(** * TwoStepNVERigid: velocity-Verlet integration of rigid bodies

    A shallow embedding of [src/libhoomd/updaters/TwoStepNVERigid.cc]
    (HOOMD-blue).  The integrator keeps its data in a structure of arrays
    indexed by body or by particle; every array becomes a list read with
    stdpp's total lookup and written with stdpp's insert, and every method
    of the class becomes a function on the state of the simulation. *)

From Stdlib Require Import ZArith QArith Qreduction Lqa List Lia Bool.
From stdpp Require Import base list.
From Corelib Require Import PrimFloat.

Set Default Proof Using "Type*".

(** ** Scalars

    [Scalar] is a build-time typedef of the sources ([float] or [double]).
    The model keeps it abstract: a type with the operations the integrator
    uses.  Nothing is assumed about them, so a theorem proved for every
    [ScalarOps] holds for IEEE arithmetic ([Binary64]) as well as for exact
    arithmetic ([Exact]). *)

Class ScalarOps (Scalar : Type) := {
  s_zero : Scalar;                       (* the literal 0.0 *)
  s_half : Scalar;                       (* the literal 0.5 *)
  s_two : Scalar;                        (* the literal 2.0 *)
  s_three : Scalar;                      (* the literal 3.0 *)
  s_add : Scalar -> Scalar -> Scalar;
  s_sub : Scalar -> Scalar -> Scalar;
  s_mul : Scalar -> Scalar -> Scalar;
  s_div : Scalar -> Scalar -> Scalar;
  s_eqb : Scalar -> Scalar -> bool;      (* a == b *)
  s_ltb : Scalar -> Scalar -> bool;      (* a < b *)
  s_geb : Scalar -> Scalar -> bool;      (* a >= b *)
  s_of_int : Z -> Scalar                 (* conversion of an int *)
}.

Declare Scope scalar_scope.
Delimit Scope scalar_scope with S.
Infix "+" := s_add : scalar_scope.
Infix "-" := s_sub : scalar_scope.
Infix "*" := s_mul : scalar_scope.
Infix "/" := s_div : scalar_scope.
Infix "=?" := s_eqb : scalar_scope.
Infix "<?" := s_ltb : scalar_scope.
Infix ">=?" := s_geb (at level 70) : scalar_scope.

(** [Scalar4]: four scalars; the integrator uses [x], [y], [z] and leaves
    [w] alone except in quaternions. *)
Record Scalar4 (Scalar : Type) := make_scalar4 {
  x4 : Scalar;
  y4 : Scalar;
  z4 : Scalar;
  w4 : Scalar
}.
Arguments make_scalar4 {Scalar} _ _ _ _.
Arguments x4 {Scalar} _.
Arguments y4 {Scalar} _.
Arguments z4 {Scalar} _.
Arguments w4 {Scalar} _.

(** Three scalars: a local triple such as [xr, yr, zr] or [fc]. *)
Record Scalar3 (Scalar : Type) := make_scalar3 {
  x3 : Scalar;
  y3 : Scalar;
  z3 : Scalar
}.
Arguments make_scalar3 {Scalar} _ _ _.
Arguments x3 {Scalar} _.
Arguments y3 {Scalar} _.
Arguments z3 {Scalar} _.

(** Assignment to the three components [.x], [.y], [.z] of an element. *)
Definition set_xyz {Scalar} (v : Scalar4 Scalar) (a b c : Scalar) : Scalar4 Scalar :=
  make_scalar4 a b c (w4 v).

(** ** Machine integers

    Image counters are [int]; the degree-of-freedom count is
    [unsigned int].  Both are 32 bits wide. *)

Definition INT_MAX : Z := 2 ^ 31 - 1.
Definition INT_MIN : Z := - 2 ^ 31.

Definition wrap_int (z : Z) : Z := (z + 2 ^ 31) mod 2 ^ 32 - 2 ^ 31.
Definition wrap_uint (z : Z) : Z := z mod 2 ^ 32.

(** [i++] and [i--] on an [int]. *)
Definition int_incr (i : Z) : Z := wrap_int (i + 1).
Definition int_decr (i : Z) : Z := wrap_int (i - 1).

(** ** Data model *)

Record BoxDim (Scalar : Type) := make_box {
  xlo : Scalar; xhi : Scalar;
  ylo : Scalar; yhi : Scalar;
  zlo : Scalar; zhi : Scalar
}.
Arguments make_box {Scalar} _ _ _ _ _ _.
Arguments xlo {Scalar} _.
Arguments xhi {Scalar} _.
Arguments ylo {Scalar} _.
Arguments yhi {Scalar} _.
Arguments zlo {Scalar} _.
Arguments zhi {Scalar} _.

(** The arrays of [RigidData] that the integrator only reads: they are
    filled when the bodies are created. *)
Record RigidConst (Scalar : Type) := make_rigid_const {
  body_mass : list Scalar;
  moment_inertia : list (Scalar4 Scalar);
  body_size : list nat;
  particle_indices : list nat;
  indices_pitch : nat;
  particle_pos : list (Scalar4 Scalar);
  particle_pos_pitch : nat;
  particle_orientation : list (Scalar4 Scalar);
  angmom_init : list bool;
  nmax : nat
}.
Arguments make_rigid_const {Scalar} _ _ _ _ _ _ _ _ _ _.
Arguments body_mass {Scalar} _.
Arguments moment_inertia {Scalar} _.
Arguments body_size {Scalar} _.
Arguments particle_indices {Scalar} _.
Arguments indices_pitch {Scalar} _.
Arguments particle_pos {Scalar} _.
Arguments particle_pos_pitch {Scalar} _.
Arguments particle_orientation {Scalar} _.
Arguments angmom_init {Scalar} _.
Arguments nmax {Scalar} _.

(** The per-body arrays of [RigidData] that change during a run. *)
Record RigidBodies (Scalar : Type) := make_rigid_bodies {
  com : list (Scalar4 Scalar);
  vel : list (Scalar4 Scalar);
  angmom : list (Scalar4 Scalar);
  angvel : list (Scalar4 Scalar);
  orientation : list (Scalar4 Scalar);
  ex_space : list (Scalar4 Scalar);
  ey_space : list (Scalar4 Scalar);
  ez_space : list (Scalar4 Scalar);
  force : list (Scalar4 Scalar);
  torque : list (Scalar4 Scalar);
  body_imagex : list Z;
  body_imagey : list Z;
  body_imagez : list Z
}.
Arguments make_rigid_bodies {Scalar} _ _ _ _ _ _ _ _ _ _ _ _ _.
Arguments com {Scalar} _.
Arguments vel {Scalar} _.
Arguments angmom {Scalar} _.
Arguments angvel {Scalar} _.
Arguments orientation {Scalar} _.
Arguments ex_space {Scalar} _.
Arguments ey_space {Scalar} _.
Arguments ez_space {Scalar} _.
Arguments force {Scalar} _.
Arguments torque {Scalar} _.
Arguments body_imagex {Scalar} _.
Arguments body_imagey {Scalar} _.
Arguments body_imagez {Scalar} _.

(** The per-constituent caches of [RigidData] ([getParticleOldPos],
    [getParticleOldVel]), indexed like [particle_pos]. *)
Record ParticleCache (Scalar : Type) := make_cache {
  particle_oldpos : list (Scalar4 Scalar);
  particle_oldvel : list (Scalar4 Scalar)
}.
Arguments make_cache {Scalar} _ _.
Arguments particle_oldpos {Scalar} _.
Arguments particle_oldvel {Scalar} _.

Record RigidData (Scalar : Type) := make_rigid_data {
  rconst : RigidConst Scalar;
  bodies : RigidBodies Scalar;
  cache : ParticleCache Scalar
}.
Arguments make_rigid_data {Scalar} _ _ _.
Arguments rconst {Scalar} _.
Arguments bodies {Scalar} _.
Arguments cache {Scalar} _.

(** [ParticleDataArrays], as handed out by [acquireReadWrite]. *)
Record ParticleDataArrays (Scalar : Type) := make_arrays {
  x : list Scalar; y : list Scalar; z : list Scalar;
  vx : list Scalar; vy : list Scalar; vz : list Scalar;
  ix : list Z; iy : list Z; iz : list Z;
  mass : list Scalar;
  tag : list nat
}.
Arguments make_arrays {Scalar} _ _ _ _ _ _ _ _ _ _ _.
Arguments x {Scalar} _.
Arguments y {Scalar} _.
Arguments z {Scalar} _.
Arguments vx {Scalar} _.
Arguments vy {Scalar} _.
Arguments vz {Scalar} _.
Arguments ix {Scalar} _.
Arguments iy {Scalar} _.
Arguments iz {Scalar} _.
Arguments mass {Scalar} _.
Arguments tag {Scalar} _.

(** [ParticleData]: the arrays, the orientations (written through
    [setOrientation], by tag), the net force, torque and virial of every
    particle, and the box. *)
Record ParticleData (Scalar : Type) := make_pdata {
  arrays : ParticleDataArrays Scalar;
  pd_orientation : list (Scalar4 Scalar);
  net_force : list (Scalar4 Scalar);
  net_torque : list (Scalar4 Scalar);
  net_virial : list Scalar;
  box : BoxDim Scalar
}.
Arguments make_pdata {Scalar} _ _ _ _ _ _.
Arguments arrays {Scalar} _.
Arguments pd_orientation {Scalar} _.
Arguments net_force {Scalar} _.
Arguments net_torque {Scalar} _.
Arguments net_virial {Scalar} _.
Arguments box {Scalar} _.

(** The integrator object with the data it points to. *)
Record State (Scalar : Type) := make_state {
  m_rigid_data : RigidData Scalar;
  m_pdata : ParticleData Scalar;
  m_group : list nat;            (* the particle group of the method *)
  m_body_group : list nat;       (* members of the RigidBodyGroup, in order *)
  n_dimensions : nat;            (* m_sysdef->getNDimensions() *)
  m_deltaT : Scalar;
  m_first_step : bool;
  m_n_bodies : nat;
  m_conjqm : list (Scalar4 Scalar);
  m_virial : list Scalar
}.
Arguments make_state {Scalar} _ _ _ _ _ _ _ _ _ _.
Arguments m_rigid_data {Scalar} _.
Arguments m_pdata {Scalar} _.
Arguments m_group {Scalar} _.
Arguments m_body_group {Scalar} _.
Arguments n_dimensions {Scalar} _.
Arguments m_deltaT {Scalar} _.
Arguments m_first_step {Scalar} _.
Arguments m_n_bodies {Scalar} _.
Arguments m_conjqm {Scalar} _.
Arguments m_virial {Scalar} _.

(** ** The helpers of QuaternionMath.h

    The integrator calls [advanceQuaternion], [matrix_dot], [quatvec],
    [quatquat] and [normalize]; their bodies are in a header that is not
    in the sources at hand.  They are the operations of an interface: each
    returns what it writes through its output reference. *)

Record Advanced (Scalar : Type) := make_advanced {
  adv_angvel : Scalar4 Scalar;
  adv_ex : Scalar4 Scalar;
  adv_ey : Scalar4 Scalar;
  adv_ez : Scalar4 Scalar;
  adv_quat : Scalar4 Scalar
}.
Arguments make_advanced {Scalar} _ _ _ _ _.
Arguments adv_angvel {Scalar} _.
Arguments adv_ex {Scalar} _.
Arguments adv_ey {Scalar} _.
Arguments adv_ez {Scalar} _.
Arguments adv_quat {Scalar} _.

Class QuaternionMath (Scalar : Type) := {
  (* advanceQuaternion(angmom, moment_inertia, angvel, ex, ey, ez, deltaT, quat):
     new angular velocity, basis vectors and orientation *)
  advanceQuaternion :
    Scalar4 Scalar -> Scalar4 Scalar -> Scalar4 Scalar ->
    Scalar4 Scalar -> Scalar4 Scalar -> Scalar4 Scalar ->
    Scalar -> Scalar4 Scalar -> Advanced Scalar;
  (* matrix_dot(ex, ey, ez, v, out) *)
  matrix_dot :
    Scalar4 Scalar -> Scalar4 Scalar -> Scalar4 Scalar -> Scalar4 Scalar ->
    Scalar4 Scalar;
  (* quatvec(q, v, out) *)
  quatvec : Scalar4 Scalar -> Scalar4 Scalar -> Scalar4 Scalar;
  (* quatquat(a, b, out) *)
  quatquat : Scalar4 Scalar -> Scalar4 Scalar -> Scalar4 Scalar;
  (* normalize(q), in place *)
  normalize : Scalar4 Scalar -> Scalar4 Scalar
}.

Section Integrator.

Context {Scalar : Type} `{ScalarOps Scalar} `{QuaternionMath Scalar}.

Local Open Scope scalar_scope.

#[global] Instance scalar_inhabited : Inhabited Scalar := populate s_zero.
#[global] Instance scalar4_inhabited : Inhabited (Scalar4 Scalar) :=
  populate (make_scalar4 s_zero s_zero s_zero s_zero).

(** *** Angular velocity from angular momentum *)

(** One body-frame component: the projection of the angular momentum on a
    basis vector over the principal moment, zero when the moment is zero. *)
Definition angbody_component (moment proj : Scalar) : Scalar :=
  if moment =? s_zero then s_zero else proj / moment.

(** The projection of [v] on the basis vector [e]. *)
Definition dot3 (e v : Scalar4 Scalar) : Scalar :=
  x4 e * x4 v + y4 e * y4 v + z4 e * z4 v.

(** The angular velocity in the body frame, one component per principal
    axis. *)
Definition angbody (angmom_b moment ex ey ez : Scalar4 Scalar) : Scalar3 Scalar :=
  make_scalar3
    (angbody_component (x4 moment) (dot3 ex angmom_b))
    (angbody_component (y4 moment) (dot3 ey angmom_b))
    (angbody_component (z4 moment) (dot3 ez angmom_b)).

(** Modelled from the spec: [computeAngularVelocity] of QuaternionMath.h,
    which is not in the sources.  The angular momentum is rotated into the
    body frame through the basis, each component is divided by its
    principal moment (a zero moment gives a zero component), and the result
    is rotated back into the space frame.  It writes [angvel] only. *)
Definition computeAngularVelocity
  (angmom_b moment ex ey ez angvel_b : Scalar4 Scalar) : Scalar4 Scalar :=
  let wb := angbody angmom_b moment ex ey ez in
  set_xyz angvel_b
    (x3 wb * x4 ex + y3 wb * x4 ey + z3 wb * x4 ez)
    (x3 wb * y4 ex + y3 wb * y4 ey + z3 wb * y4 ez)
    (x3 wb * z4 ex + y3 wb * z4 ey + z3 wb * z4 ez).

(** The same rule with the divisions made visible: a division faults
    ([None]) when its divisor compares equal to zero. *)
Definition checked_div (a b : Scalar) : option Scalar :=
  if b =? s_zero then None else Some (a / b).

Definition angbody_component_checked (moment proj : Scalar) : option Scalar :=
  if moment =? s_zero then Some s_zero else checked_div proj moment.

Definition angbody_checked (angmom_b moment ex ey ez : Scalar4 Scalar)
  : option (Scalar3 Scalar) :=
  match angbody_component_checked (x4 moment) (dot3 ex angmom_b),
        angbody_component_checked (y4 moment) (dot3 ey angmom_b),
        angbody_component_checked (z4 moment) (dot3 ez angmom_b) with
  | Some w0, Some w1, Some w2 => Some (make_scalar3 w0 w1 w2)
  | _, _, _ => None
  end.

(** [computeAngularVelocity] with its divisions checked: [None] when a
    division has a divisor that compares equal to zero. *)
Definition computeAngularVelocity_checked
  (angmom_b moment ex ey ez angvel_b : Scalar4 Scalar)
  : option (Scalar4 Scalar) :=
  match angbody_checked angmom_b moment ex ey ez with
  | Some wb =>
      Some (set_xyz angvel_b
              (x3 wb * x4 ex + y3 wb * x4 ey + z3 wb * x4 ez)
              (x3 wb * y4 ex + y3 wb * y4 ey + z3 wb * y4 ez)
              (x3 wb * z4 ex + y3 wb * z4 ey + z3 wb * z4 ez))
  | None => None
  end.

(** *** Loops over the body group *)

(** [m_body_group->getMemberIndex(group_idx)] *)
Definition getMemberIndex (group : list nat) (group_idx : nat) : nat :=
  group !!! group_idx.

(** [for (group_idx = 0; group_idx < n; group_idx++)
       { body = getMemberIndex(group_idx); ... }] *)
Definition for_each_body {A : Type} (n : nat) (group : list nat)
  (f : nat -> A -> A) (a : A) : A :=
  fold_left (fun acc group_idx => f (getMemberIndex group group_idx) acc)
            (seq 0 n) a.

(** [for (j = 0; j < len; j++) { ... }] *)
Definition for_each_j {A : Type} (len : nat) (f : nat -> A -> A) (a : A) : A :=
  fold_left (fun acc j => f j acc) (seq 0 len) a.

(** The offset of constituent [j] of [body] in the space frame: its fixed
    position in the body frame rotated by the basis. *)
Definition space_offset (ex ey ez p : Scalar4 Scalar) : Scalar3 Scalar :=
  make_scalar3
    (x4 ex * x4 p + x4 ey * y4 p + x4 ez * z4 p)
    (y4 ex * x4 p + y4 ey * y4 p + y4 ez * z4 p)
    (z4 ex * x4 p + z4 ey * y4 p + z4 ez * z4 p).

(** One axis of the map into the periodic box, with its image counter. *)
Definition wrap_coord (c lo hi L : Scalar) (img : Z) : Scalar * Z :=
  if c >=? hi then (c - L, int_incr img)
  else if c <? lo then (c + L, int_decr img)
  else (c, img).

(** *** setup *)

(** First loop of [setup]: reset velocity, force and torque of a body, and
    its angular momentum when it was not initialised. *)
Definition setup_reset_body (rc : RigidConst Scalar) (body : nat)
  (b : RigidBodies Scalar) : RigidBodies Scalar :=
  let angmom_init_b : bool := angmom_init rc !!! body in
  {| com := com b;
     vel := <[body := set_xyz (vel b !!! body) s_zero s_zero s_zero]> (vel b);
     angmom :=
       if angmom_init_b then angmom b
       else <[body := set_xyz (angmom b !!! body) s_zero s_zero s_zero]> (angmom b);
     angvel := angvel b;
     orientation := orientation b;
     ex_space := ex_space b;
     ey_space := ey_space b;
     ez_space := ez_space b;
     force := <[body := set_xyz (force b !!! body) s_zero s_zero s_zero]> (force b);
     torque := <[body := set_xyz (torque b !!! body) s_zero s_zero s_zero]> (torque b);
     body_imagex := body_imagex b;
     body_imagey := body_imagey b;
     body_imagez := body_imagez b |}.

(** Second loop of [setup], constituent [j] of [body]: add its momentum,
    force, torque and (when not initialised) angular momentum to the
    body's. *)
Definition setup_accumulate_particle (rc : RigidConst Scalar)
  (arr : ParticleDataArrays Scalar) (h_net_force : list (Scalar4 Scalar))
  (body j : nat) (b : RigidBodies Scalar) : RigidBodies Scalar :=
  let angmom_init_b : bool := angmom_init rc !!! body in
  let pidx := particle_indices rc !!! (body * indices_pitch rc + j)%nat in
  let mass_one := mass arr !!! pidx in
  let v := vel b !!! body in
  let fx := x4 (h_net_force !!! pidx) in
  let fy := y4 (h_net_force !!! pidx) in
  let fz := z4 (h_net_force !!! pidx) in
  let f := force b !!! body in
  let localidx := (body * particle_pos_pitch rc + j)%nat in
  let r := space_offset (ex_space b !!! body) (ey_space b !!! body)
                        (ez_space b !!! body) (particle_pos rc !!! localidx) in
  let rx := x3 r in
  let ry := y3 r in
  let rz := z3 r in
  let t := torque b !!! body in
  let l := angmom b !!! body in
  {| com := com b;
     vel := <[body := set_xyz v (x4 v + mass_one * (vx arr !!! pidx))
                                (y4 v + mass_one * (vy arr !!! pidx))
                                (z4 v + mass_one * (vz arr !!! pidx))]> (vel b);
     angmom :=
       if angmom_init_b then angmom b
       else <[body := set_xyz l
                (x4 l + (ry * (mass_one * (vz arr !!! pidx))
                         - rz * (mass_one * (vy arr !!! pidx))))
                (y4 l + (rz * (mass_one * (vx arr !!! pidx))
                         - rx * (mass_one * (vz arr !!! pidx))))
                (z4 l + (rx * (mass_one * (vy arr !!! pidx))
                         - ry * (mass_one * (vx arr !!! pidx))))]> (angmom b);
     angvel := angvel b;
     orientation := orientation b;
     ex_space := ex_space b;
     ey_space := ey_space b;
     ez_space := ez_space b;
     force := <[body := set_xyz f (x4 f + fx) (y4 f + fy) (z4 f + fz)]> (force b);
     torque := <[body := set_xyz t (x4 t + (ry * fz - rz * fy))
                                   (y4 t + (rz * fx - rx * fz))
                                   (z4 t + (rx * fy - ry * fx))]> (torque b);
     body_imagex := body_imagex b;
     body_imagey := body_imagey b;
     body_imagez := body_imagez b |}.

Definition setup_accumulate_body (rc : RigidConst Scalar)
  (arr : ParticleDataArrays Scalar) (h_net_force : list (Scalar4 Scalar))
  (body : nat) (b : RigidBodies Scalar) : RigidBodies Scalar :=
  let len := body_size rc !!! body in
  for_each_j len (setup_accumulate_particle rc arr h_net_force body) b.

(** Third loop of [setup]: velocity of the centre of mass and angular
    velocity. *)
Definition setup_finalize_body (rc : RigidConst Scalar) (body : nat)
  (b : RigidBodies Scalar) : RigidBodies Scalar :=
  let v := vel b !!! body in
  let m := body_mass rc !!! body in
  {| com := com b;
     vel := <[body := set_xyz v (x4 v / m) (y4 v / m) (z4 v / m)]> (vel b);
     angmom := angmom b;
     angvel :=
       <[body := computeAngularVelocity
                   (angmom b !!! body) (moment_inertia rc !!! body)
                   (ex_space b !!! body) (ey_space b !!! body)
                   (ez_space b !!! body) (angvel b !!! body)]> (angvel b);
     orientation := orientation b;
     ex_space := ex_space b;
     ey_space := ey_space b;
     ez_space := ez_space b;
     force := force b;
     torque := torque b;
     body_imagex := body_imagex b;
     body_imagey := body_imagey b;
     body_imagez := body_imagez b |}.

(** Fourth loop of [setup]: the conjugate quaternion momentum, stored at
    the index of the body.  A store at an index outside [conjqm] is dropped
    here; in the C++ it is a store outside the array. *)
Definition setup_conjqm_body (b : RigidBodies Scalar) (body : nat)
  (conjqm : list (Scalar4 Scalar)) : list (Scalar4 Scalar) :=
  let mbody := matrix_dot (ex_space b !!! body) (ey_space b !!! body)
                          (ez_space b !!! body) (angmom b !!! body) in
  let c := quatvec (orientation b !!! body) mbody in
  <[body := make_scalar4 (x4 c * s_two) (y4 c * s_two) (z4 c * s_two)
                         (w4 c * s_two)]> conjqm.

(** *** Projection of the body state on the constituent particles *)

(** [v_particle = v_com + angvel x xr] *)
Definition particle_velocity (v w : Scalar4 Scalar) (r : Scalar3 Scalar)
  : Scalar3 Scalar :=
  make_scalar3 (x4 v + y4 w * z3 r - z4 w * y3 r)
               (y4 v + z4 w * x3 r - x4 w * z3 r)
               (z4 v + x4 w * y3 r - y4 w * x3 r).

(** [fc = massone * (v - old_vel) / dt_half - net_force] *)
Definition constraint_force (massone : Scalar) (v : Scalar3 Scalar)
  (old_vel : Scalar4 Scalar) (dt_half : Scalar) (f : Scalar4 Scalar)
  : Scalar3 Scalar :=
  make_scalar3 (massone * (x3 v - x4 old_vel) / dt_half - x4 f)
               (massone * (y3 v - y4 old_vel) / dt_half - y4 f)
               (massone * (z3 v - z4 old_vel) / dt_half - z4 f).

(** [0.5 * (old_pos . fc) / 3.0] *)
Definition virial_part (old_pos : Scalar4 Scalar) (fc : Scalar3 Scalar) : Scalar :=
  s_half * (x4 old_pos * x3 fc + y4 old_pos * y3 fc + z4 old_pos * z3 fc) / s_three.

(** What the projection computes for constituent [j] of [body], from the
    state at the start of the iteration. *)
Definition pidx_of (st : State Scalar) (body j : nat) : nat :=
  let rc := rconst (m_rigid_data st) in
  particle_indices rc !!! (body * indices_pitch rc + j)%nat.

Definition localidx_of (st : State Scalar) (body j : nat) : nat :=
  (body * particle_pos_pitch (rconst (m_rigid_data st)) + j)%nat.

Definition offset_of (st : State Scalar) (body j : nat) : Scalar3 Scalar :=
  let b := bodies (m_rigid_data st) in
  space_offset (ex_space b !!! body) (ey_space b !!! body) (ez_space b !!! body)
               (particle_pos (rconst (m_rigid_data st)) !!! localidx_of st body j).

Definition velocity_of (st : State Scalar) (body j : nat) : Scalar3 Scalar :=
  let b := bodies (m_rigid_data st) in
  particle_velocity (vel b !!! body) (angvel b !!! body) (offset_of st body j).

Definition fc_of (st : State Scalar) (body j : nat) : Scalar3 Scalar :=
  let pidx := pidx_of st body j in
  constraint_force (mass (arrays (m_pdata st)) !!! pidx)
    (velocity_of st body j)
    (particle_oldvel (cache (m_rigid_data st)) !!! localidx_of st body j)
    (s_half * m_deltaT st)
    (net_force (m_pdata st) !!! pidx).

Definition virial_of (st : State Scalar) (body j : nat) : Scalar :=
  virial_part (particle_oldpos (cache (m_rigid_data st)) !!! localidx_of st body j)
              (fc_of st body j).

(** Body of the inner loop of [set_v].  A read outside an array gives the
    default element and a store outside an array is dropped, where the C++
    reads or overwrites other memory; [constituent_in_range] and
    [in_bounds] hold when the slots of the constituent are inside the
    arrays. *)
Definition set_v_particle (body j : nat) (st : State Scalar) : State Scalar :=
  let rd := m_rigid_data st in
  let pd := m_pdata st in
  let arr := arrays pd in
  let pidx := pidx_of st body j in
  let localidx := localidx_of st body j in
  let v := velocity_of st body j in
  let old_vel := particle_oldvel (cache rd) !!! localidx in
  let h_net_virial := net_virial pd in
  (* accumulate the virial from the first part *)
  let h_net_virial1 :=
    <[pidx := (h_net_virial !!! pidx) + (m_virial st !!! localidx)]> h_net_virial in
  (* and this part *)
  let h_net_virial2 :=
    <[pidx := (h_net_virial1 !!! pidx) + virial_of st body j]> h_net_virial1 in
  make_state
    (make_rigid_data (rconst rd) (bodies rd)
       (make_cache (particle_oldpos (cache rd))
          (<[localidx := set_xyz old_vel (x3 v) (y3 v) (z3 v)]>
             (particle_oldvel (cache rd)))))
    (make_pdata
       (make_arrays (x arr) (y arr) (z arr)
          (<[pidx := x3 v]> (vx arr)) (<[pidx := y3 v]> (vy arr))
          (<[pidx := z3 v]> (vz arr))
          (ix arr) (iy arr) (iz arr) (mass arr) (tag arr))
       (pd_orientation pd) (net_force pd) (net_torque pd) h_net_virial2 (box pd))
    (m_group st) (m_body_group st) (n_dimensions st) (m_deltaT st)
    (m_first_step st) (m_n_bodies st) (m_conjqm st) (m_virial st).

Definition set_v_body (body : nat) (st : State Scalar) : State Scalar :=
  let len := body_size (rconst (m_rigid_data st)) !!! body in
  for_each_j len (set_v_particle body) st.

(** [set_v]: velocities of the constituent particles, second half of the
    step. *)
Definition set_v (st : State Scalar) : State Scalar :=
  for_each_body (m_n_bodies st) (m_body_group st) set_v_body st.

(** Body of the inner loop of [set_xv].  A read outside an array gives the
    default element and a store outside an array is dropped, where the C++
    reads or overwrites other memory; [constituent_in_range] and
    [in_bounds] hold when the slots of the constituent are inside the
    arrays.

    Modelled from the spec: [ParticleData::setOrientation(tag, q)], which is
    not in the sources, stores [q] as the orientation of the particle with
    that tag; [pd_orientation] is indexed by tag. *)
Definition set_xv_particle (body j : nat) (st : State Scalar) : State Scalar :=
  let rd := m_rigid_data st in
  let b := bodies rd in
  let pd := m_pdata st in
  let arr := arrays pd in
  let bx := box pd in
  let Lx := xhi bx - xlo bx in
  let Ly := yhi bx - ylo bx in
  let Lz := zhi bx - zlo bx in
  let pidx := pidx_of st body j in
  let localidx := localidx_of st body j in
  let tag_p : nat := tag arr !!! pidx in
  let r := offset_of st body j in
  let old_vel := particle_oldvel (cache rd) !!! localidx in
  let old_pos := particle_oldpos (cache rd) !!! localidx in
  (* x_particle = x_com + xr, images from the body, then the box *)
  let wx := wrap_coord (x4 (com b !!! body) + x3 r) (xlo bx) (xhi bx) Lx
                       (body_imagex b !!! body) in
  let wy := wrap_coord (y4 (com b !!! body) + y3 r) (ylo bx) (yhi bx) Ly
                       (body_imagey b !!! body) in
  let wz := wrap_coord (z4 (com b !!! body) + z3 r) (zlo bx) (zhi bx) Lz
                       (body_imagez b !!! body) in
  let porientation :=
    normalize (quatquat (orientation b !!! body)
                        (particle_orientation (rconst rd) !!! localidx)) in
  let v := velocity_of st body j in
  make_state
    (make_rigid_data (rconst rd) (bodies rd)
       (make_cache
          (<[localidx := set_xyz old_pos
                           (fst wx + Lx * s_of_int (snd wx))
                           (fst wy + Ly * s_of_int (snd wy))
                           (fst wz + Lz * s_of_int (snd wz))]>
             (particle_oldpos (cache rd)))
          (<[localidx := set_xyz old_vel (x3 v) (y3 v) (z3 v)]>
             (particle_oldvel (cache rd)))))
    (make_pdata
       (make_arrays
          (<[pidx := fst wx]> (x arr)) (<[pidx := fst wy]> (y arr))
          (<[pidx := fst wz]> (z arr))
          (<[pidx := x3 v]> (vx arr)) (<[pidx := y3 v]> (vy arr))
          (<[pidx := z3 v]> (vz arr))
          (<[pidx := snd wx]> (ix arr)) (<[pidx := snd wy]> (iy arr))
          (<[pidx := snd wz]> (iz arr))
          (mass arr) (tag arr))
       (<[tag_p := porientation]> (pd_orientation pd))
       (net_force pd) (net_torque pd) (net_virial pd) (box pd))
    (m_group st) (m_body_group st) (n_dimensions st) (m_deltaT st)
    (m_first_step st) (m_n_bodies st) (m_conjqm st)
    (<[localidx := virial_of st body j]> (m_virial st)).

Definition set_xv_body (body : nat) (st : State Scalar) : State Scalar :=
  let len := body_size (rconst (m_rigid_data st)) !!! body in
  for_each_j len (set_xv_particle body) st.

(** [set_xv]: positions and velocities of the constituent particles, first
    half of the step. *)
Definition set_xv (st : State Scalar) : State Scalar :=
  for_each_body (m_n_bodies st) (m_body_group st) set_xv_body st.

(** Replace the per-body arrays of a state. *)
Definition with_bodies (b : RigidBodies Scalar) (st : State Scalar) : State Scalar :=
  make_state
    (make_rigid_data (rconst (m_rigid_data st)) b (cache (m_rigid_data st)))
    (m_pdata st) (m_group st) (m_body_group st) (n_dimensions st) (m_deltaT st)
    (m_first_step st) (m_n_bodies st) (m_conjqm st) (m_virial st).

(** *** computeForceAndTorque *)

Definition force_reset_body (body : nat) (b : RigidBodies Scalar)
  : RigidBodies Scalar :=
  {| com := com b;
     vel := vel b;
     angmom := angmom b;
     angvel := angvel b;
     orientation := orientation b;
     ex_space := ex_space b;
     ey_space := ey_space b;
     ez_space := ez_space b;
     force := <[body := set_xyz (force b !!! body) s_zero s_zero s_zero]> (force b);
     torque := <[body := set_xyz (torque b !!! body) s_zero s_zero s_zero]> (torque b);
     body_imagex := body_imagex b;
     body_imagey := body_imagey b;
     body_imagez := body_imagez b |}.

Definition force_accumulate_particle (rc : RigidConst Scalar)
  (h_net_force h_net_torque : list (Scalar4 Scalar))
  (body j : nat) (b : RigidBodies Scalar) : RigidBodies Scalar :=
  let pidx := particle_indices rc !!! (body * indices_pitch rc + j)%nat in
  let fx := x4 (h_net_force !!! pidx) in
  let fy := y4 (h_net_force !!! pidx) in
  let fz := z4 (h_net_force !!! pidx) in
  let tx := x4 (h_net_torque !!! pidx) in
  let ty := y4 (h_net_torque !!! pidx) in
  let tz := z4 (h_net_torque !!! pidx) in
  let f := force b !!! body in
  let localidx := (body * particle_pos_pitch rc + j)%nat in
  let r := space_offset (ex_space b !!! body) (ey_space b !!! body)
                        (ez_space b !!! body) (particle_pos rc !!! localidx) in
  let rx := x3 r in
  let ry := y3 r in
  let rz := z3 r in
  let t := torque b !!! body in
  {| com := com b;
     vel := vel b;
     angmom := angmom b;
     angvel := angvel b;
     orientation := orientation b;
     ex_space := ex_space b;
     ey_space := ey_space b;
     ez_space := ez_space b;
     force := <[body := set_xyz f (x4 f + fx) (y4 f + fy) (z4 f + fz)]> (force b);
     torque := <[body := set_xyz t (x4 t + (ry * fz - rz * fy + tx))
                                   (y4 t + (rz * fx - rx * fz + ty))
                                   (z4 t + (rx * fy - ry * fx + tz))]> (torque b);
     body_imagex := body_imagex b;
     body_imagey := body_imagey b;
     body_imagez := body_imagez b |}.

Definition force_accumulate_body (rc : RigidConst Scalar)
  (h_net_force h_net_torque : list (Scalar4 Scalar))
  (body : nat) (b : RigidBodies Scalar) : RigidBodies Scalar :=
  let len := body_size rc !!! body in
  for_each_j len (force_accumulate_particle rc h_net_force h_net_torque body) b.

Definition computeForceAndTorque (st : State Scalar) : State Scalar :=
  let rc := rconst (m_rigid_data st) in
  let b0 := bodies (m_rigid_data st) in
  let b1 := for_each_body (m_n_bodies st) (m_body_group st) force_reset_body b0 in
  let b2 := for_each_body (m_n_bodies st) (m_body_group st)
              (force_accumulate_body rc (net_force (m_pdata st))
                                     (net_torque (m_pdata st))) b1 in
  with_bodies b2 st.

(** *** setup *)

(** Storage of a fresh [GPUArray]: cleared. *)
Definition zero4 : Scalar4 Scalar := make_scalar4 s_zero s_zero s_zero s_zero.

(** [setup].  Its two fresh arrays are [m_conjqm], one element per body of
    the group, and [m_virial], [getNmax()] wide and one row per body of the
    group; the integrator indexes the latter with the row pitch of
    [particle_pos], which has the same width, and the model gives it rows
    of that pitch.  Both arrays are indexed by the index of the body, not
    by its position in the group.  For a member of the group whose index
    is not below the number of members the C++ stores past the end of the
    array; the model drops such a store and reads the default element.
    [in_bounds] holds of the states on which this does not happen. *)
Definition setup (st : State Scalar) : State Scalar :=
  (* m_n_bodies = m_body_group->getNumMembers() *)
  let n := length (m_body_group st) in
  let rd := m_rigid_data st in
  let rc := rconst rd in
  if (n <=? 0)%nat then
    make_state rd (m_pdata st) (m_group st) (m_body_group st) (n_dimensions st)
               (m_deltaT st) (m_first_step st) n (m_conjqm st) (m_virial st)
  else
    let conjqm_alloc := replicate n zero4 in
    let virial := replicate (particle_pos_pitch rc * n)%nat s_zero in
    let group := m_body_group st in
    let b1 := for_each_body n group (setup_reset_body rc) (bodies rd) in
    let b2 := for_each_body n group
                (setup_accumulate_body rc (arrays (m_pdata st))
                                       (net_force (m_pdata st))) b1 in
    let b3 := for_each_body n group (setup_finalize_body rc) b2 in
    let conjqm := for_each_body n group (setup_conjqm_body b3) conjqm_alloc in
    set_v
      (make_state (make_rigid_data rc b3 (cache rd)) (m_pdata st) (m_group st)
                  group (n_dimensions st) (m_deltaT st) (m_first_step st) n
                  conjqm virial).

(** *** integrateStepOne *)

Definition integrateStepOne_body (rc : RigidConst Scalar) (bx : BoxDim Scalar)
  (deltaT : Scalar) (body : nat) (b : RigidBodies Scalar) : RigidBodies Scalar :=
  let Lx := xhi bx - xlo bx in
  let Ly := yhi bx - ylo bx in
  let Lz := zhi bx - zlo bx in
  let dt_half := s_half * deltaT in
  let dtfm := dt_half / (body_mass rc !!! body) in
  let f := force b !!! body in
  let v0 := vel b !!! body in
  let v1 := set_xyz v0 (x4 v0 + dtfm * x4 f) (y4 v0 + dtfm * y4 f)
                       (z4 v0 + dtfm * z4 f) in
  let c0 := com b !!! body in
  (* map the center of mass to the periodic box, update the com image info *)
  let wx := wrap_coord (x4 c0 + x4 v1 * deltaT) (xlo bx) (xhi bx) Lx
                       (body_imagex b !!! body) in
  let wy := wrap_coord (y4 c0 + y4 v1 * deltaT) (ylo bx) (yhi bx) Ly
                       (body_imagey b !!! body) in
  let wz := wrap_coord (z4 c0 + z4 v1 * deltaT) (zlo bx) (zhi bx) Lz
                       (body_imagez b !!! body) in
  (* update the angular momentum *)
  let t := torque b !!! body in
  let l0 := angmom b !!! body in
  let l1 := set_xyz l0 (x4 l0 + dt_half * x4 t) (y4 l0 + dt_half * y4 t)
                       (z4 l0 + dt_half * z4 t) in
  (* update quaternion and angular velocity *)
  let adv := advanceQuaternion l1 (moment_inertia rc !!! body)
               (angvel b !!! body) (ex_space b !!! body) (ey_space b !!! body)
               (ez_space b !!! body) deltaT (orientation b !!! body) in
  {| com := <[body := set_xyz c0 (fst wx) (fst wy) (fst wz)]> (com b);
     vel := <[body := v1]> (vel b);
     angmom := <[body := l1]> (angmom b);
     angvel := <[body := adv_angvel adv]> (angvel b);
     orientation := <[body := adv_quat adv]> (orientation b);
     ex_space := <[body := adv_ex adv]> (ex_space b);
     ey_space := <[body := adv_ey adv]> (ey_space b);
     ez_space := <[body := adv_ez adv]> (ez_space b);
     force := force b;
     torque := torque b;
     body_imagex := <[body := snd wx]> (body_imagex b);
     body_imagey := <[body := snd wy]> (body_imagey b);
     body_imagez := <[body := snd wz]> (body_imagez b) |}.

Definition set_first_step (fs : bool) (st : State Scalar) : State Scalar :=
  make_state (m_rigid_data st) (m_pdata st) (m_group st) (m_body_group st)
             (n_dimensions st) (m_deltaT st) fs (m_n_bodies st) (m_conjqm st)
             (m_virial st).

Definition integrateStepOne (st : State Scalar) : State Scalar :=
  let st1 := if m_first_step st then set_first_step false (setup st) else st in
  (* sanity check *)
  if (m_n_bodies st1 <=? 0)%nat then st1
  else
    let rd := m_rigid_data st1 in
    let b := for_each_body (m_n_bodies st1) (m_body_group st1)
               (integrateStepOne_body (rconst rd) (box (m_pdata st1)) (m_deltaT st1))
               (bodies rd) in
    set_xv (with_bodies b st1).

(** *** integrateStepTwo *)

Definition integrateStepTwo_body (rc : RigidConst Scalar) (deltaT : Scalar)
  (body : nat) (b : RigidBodies Scalar) : RigidBodies Scalar :=
  let dt_half := s_half * deltaT in
  let dtfm := dt_half / (body_mass rc !!! body) in
  let f := force b !!! body in
  let v0 := vel b !!! body in
  let t := torque b !!! body in
  let l0 := angmom b !!! body in
  let l1 := set_xyz l0 (x4 l0 + dt_half * x4 t) (y4 l0 + dt_half * y4 t)
                       (z4 l0 + dt_half * z4 t) in
  {| com := com b;
     vel := <[body := set_xyz v0 (x4 v0 + dtfm * x4 f) (y4 v0 + dtfm * y4 f)
                                 (z4 v0 + dtfm * z4 f)]> (vel b);
     angmom := <[body := l1]> (angmom b);
     angvel :=
       <[body := computeAngularVelocity l1 (moment_inertia rc !!! body)
                   (ex_space b !!! body) (ey_space b !!! body)
                   (ez_space b !!! body) (angvel b !!! body)]> (angvel b);
     orientation := orientation b;
     ex_space := ex_space b;
     ey_space := ey_space b;
     ez_space := ez_space b;
     force := force b;
     torque := torque b;
     body_imagex := body_imagex b;
     body_imagey := body_imagey b;
     body_imagez := body_imagez b |}.

Definition integrateStepTwo (st : State Scalar) : State Scalar :=
  (* sanity check *)
  if (m_n_bodies st <=? 0)%nat then st
  else
    let st1 := computeForceAndTorque st in
    let rd := m_rigid_data st1 in
    let b := for_each_body (m_n_bodies st1) (m_body_group st1)
               (integrateStepTwo_body (rconst rd) (m_deltaT st1)) (bodies rd) in
    set_v (with_bodies b st1).

(** The force field runs between the two half steps: it replaces the net
    force, torque and virial of the particles and nothing else. *)
Definition with_net_forces (nf nt : list (Scalar4 Scalar)) (nv : list Scalar)
  (st : State Scalar) : State Scalar :=
  make_state (m_rigid_data st)
    (make_pdata (arrays (m_pdata st)) (pd_orientation (m_pdata st)) nf nt nv
                (box (m_pdata st)))
    (m_group st) (m_body_group st) (n_dimensions st) (m_deltaT st)
    (m_first_step st) (m_n_bodies st) (m_conjqm st) (m_virial st).

(** *** getNDOF *)

Section DegreesOfFreedom.

(** [ParticleGroup::groupIntersection] and the constructor of
    [RigidBodyGroup] are not in the sources: a particle group is the list of
    its members, and the two operations are parameters. *)
Variable groupIntersection : list nat -> list nat -> list nat.
Variable RigidBodyGroup : list nat -> list nat.

(** [m_body_group->isMember(body)] *)
Definition isMember (group : list nat) (body : nat) : bool :=
  bool_decide (body ∈ group).

(** The count of one body; [dof_one] is an [unsigned int]. *)
Definition dof_one (dimension : nat) (moment : Scalar4 Scalar) : Z :=
  if (dimension =? 3)%nat then
    let d := 6%Z in
    let d := if x4 moment =? s_zero then wrap_uint (d - 1) else d in
    let d := if y4 moment =? s_zero then wrap_uint (d - 1) else d in
    let d := if z4 moment =? s_zero then wrap_uint (d - 1) else d in
    d
  else
    let d := 3%Z in
    let d := if z4 moment =? s_zero then wrap_uint (d - 1) else d in
    d.

(** [getNDOF] returns the count; the state comes back with it so that the
    absence of writes can be stated. *)
Definition getNDOF (st : State Scalar) (query_group : list nat)
  : State Scalar * Z :=
  let moments := moment_inertia (rconst (m_rigid_data st)) in
  let intersect_particles := groupIntersection (m_group st) query_group in
  let intersect_bodies := RigidBodyGroup intersect_particles in
  let dimension := n_dimensions st in
  (st,
   fold_left
     (fun query_group_dof group_idx =>
        let body := getMemberIndex intersect_bodies group_idx in
        if isMember (m_body_group st) body
        then wrap_uint (query_group_dof + dof_one dimension (moments !!! body))
        else query_group_dof)
     (seq 0 (length intersect_bodies)) 0%Z).

(** The bodies that count: members of the intersection that are members of
    the body group of the method. *)
Definition qualifying_bodies (st : State Scalar) (query_group : list nat)
  : list nat :=
  filter (fun body => body ∈ m_body_group st)
         (RigidBodyGroup (groupIntersection (m_group st) query_group)).

(** The number of principal moments equal to zero. *)
Definition zero_moments (moment : Scalar4 Scalar) : Z :=
  Z.add (Z.add (if x4 moment =? s_zero then 1%Z else 0%Z)
               (if y4 moment =? s_zero then 1%Z else 0%Z))
        (if z4 moment =? s_zero then 1%Z else 0%Z).

(** Sum of [f] over a list of bodies. *)
Definition sum_over (f : nat -> Z) (l : list nat) : Z :=
  fold_right (fun body acc => (f body + acc)%Z) 0%Z l.

End DegreesOfFreedom.

(** *** Vocabulary of the statements *)

(** The integrator is ready once [setup] has counted the bodies. *)
Definition group_ready (st : State Scalar) : Prop :=
  m_n_bodies st = length (m_body_group st).

(** Before the first step nothing is known of [m_n_bodies]; afterwards it
    is the size of the body group. *)
Definition protocol (st : State Scalar) : Prop :=
  m_first_step st = false -> group_ready st.

(** The constituents the projection visits: pairs of a body of the group
    and an index below the size of the body. *)
Definition constituents (st : State Scalar) : list (nat * nat) :=
  flat_map
    (fun body =>
       map (pair body) (seq 0 (body_size (rconst (m_rigid_data st)) !!! body)))
    (m_body_group st).

(** A state with the arrays that [set_v] writes erased. *)
Definition erase_velocities (st : State Scalar) : State Scalar :=
  let rd := m_rigid_data st in
  let pd := m_pdata st in
  let arr := arrays pd in
  make_state
    (make_rigid_data (rconst rd) (bodies rd)
       (make_cache (particle_oldpos (cache rd)) []))
    (make_pdata
       (make_arrays (x arr) (y arr) (z arr) [] [] [] (ix arr) (iy arr) (iz arr)
                    (mass arr) (tag arr))
       (pd_orientation pd) (net_force pd) (net_torque pd) [] (box pd))
    (m_group st) (m_body_group st) (n_dimensions st) (m_deltaT st)
    (m_first_step st) (m_n_bodies st) (m_conjqm st) (m_virial st).

(** A state with the arrays that [set_xv] writes erased. *)
Definition erase_projection (st : State Scalar) : State Scalar :=
  let rd := m_rigid_data st in
  let pd := m_pdata st in
  let arr := arrays pd in
  make_state
    (make_rigid_data (rconst rd) (bodies rd) (make_cache [] []))
    (make_pdata
       (make_arrays [] [] [] [] [] [] [] [] [] (mass arr) (tag arr))
       [] (net_force pd) (net_torque pd) (net_virial pd) (box pd))
    (m_group st) (m_body_group st) (n_dimensions st) (m_deltaT st)
    (m_first_step st) (m_n_bodies st) (m_conjqm st) [].

(** The per-body arrays with force, torque, velocity, angular momentum and
    angular velocity erased. *)
Definition erase_momenta (b : RigidBodies Scalar) : RigidBodies Scalar :=
  {| com := com b;
     vel := [];
     angmom := [];
     angvel := [];
     orientation := orientation b;
     ex_space := ex_space b;
     ey_space := ey_space b;
     ez_space := ez_space b;
     force := [];
     torque := [];
     body_imagex := body_imagex b;
     body_imagey := body_imagey b;
     body_imagez := body_imagez b |}.

(** A state with everything that [integrateStepTwo] writes erased. *)
Definition erase_step_two (st : State Scalar) : State Scalar :=
  let st0 := erase_velocities st in
  with_bodies (erase_momenta (bodies (m_rigid_data st0))) st0.

(** The position of constituent [j] of [body] relative to the centre of
    mass, in the space frame: its fixed position in the body frame taken
    along the basis vectors of the body.  It is written out for the
    statements, apart from the functions of the integrator. *)
Definition lever_arm (st : State Scalar) (body j : nat) : Scalar3 Scalar :=
  let rc := rconst (m_rigid_data st) in
  let b := bodies (m_rigid_data st) in
  let ex := ex_space b !!! body in
  let ey := ey_space b !!! body in
  let ez := ez_space b !!! body in
  let p := particle_pos rc !!! (body * particle_pos_pitch rc + j)%nat in
  make_scalar3 (x4 ex * x4 p + x4 ey * y4 p + x4 ez * z4 p)
               (y4 ex * x4 p + y4 ey * y4 p + y4 ez * z4 p)
               (z4 ex * x4 p + z4 ey * y4 p + z4 ez * z4 p).

(** The angular momentum that the constituents of [body] carry about its
    centre of mass: the terms [r x (m v)] added one after the other,
    starting from zero. *)
Definition angmom_term (st : State Scalar) (body j : nat)
  (acc : Scalar3 Scalar) : Scalar3 Scalar :=
  let arr := arrays (m_pdata st) in
  let pidx := pidx_of st body j in
  let r := lever_arm st body j in
  let m := mass arr !!! pidx in
  make_scalar3
    (x3 acc + (y3 r * (m * (vz arr !!! pidx)) - z3 r * (m * (vy arr !!! pidx))))
    (y3 acc + (z3 r * (m * (vx arr !!! pidx)) - x3 r * (m * (vz arr !!! pidx))))
    (z3 acc + (x3 r * (m * (vy arr !!! pidx)) - y3 r * (m * (vx arr !!! pidx)))).

Definition angmom_sum (st : State Scalar) (body : nat) : Scalar3 Scalar :=
  for_each_j (body_size (rconst (m_rigid_data st)) !!! body)
             (angmom_term st body) (make_scalar3 s_zero s_zero s_zero).

(** Modelled from the spec: [advanceQuaternion] of QuaternionMath.h, which
    is not in the sources, re-derives the angular velocity after the
    rotation by the rule of [computeAngularVelocity], from the angular
    momentum and the moments it is given and the basis it returns. *)
Definition advance_by_rule : Prop :=
  forall (l moment w ex ey ez : Scalar4 Scalar) (deltaT : Scalar)
         (q : Scalar4 Scalar),
    let adv := advanceQuaternion l moment w ex ey ez deltaT q in
    exists w0,
      adv_angvel adv
      = computeAngularVelocity l moment (adv_ex adv) (adv_ey adv) (adv_ez adv) w0.

(** The lengths of the per-body arrays. *)
Definition body_lengths (b : RigidBodies Scalar) : list nat :=
  [length (com b); length (vel b); length (angmom b); length (angvel b);
   length (orientation b); length (ex_space b); length (ey_space b);
   length (ez_space b); length (force b); length (torque b);
   length (body_imagex b); length (body_imagey b); length (body_imagez b)].

(** The lengths of the arrays that the projections write. *)
Definition projection_lengths (st : State Scalar) : list nat :=
  let arr := arrays (m_pdata st) in
  [length (x arr); length (y arr); length (z arr);
   length (vx arr); length (vy arr); length (vz arr);
   length (ix arr); length (iy arr); length (iz arr);
   length (net_virial (m_pdata st));
   length (particle_oldpos (cache (m_rigid_data st)));
   length (particle_oldvel (cache (m_rigid_data st)));
   length (m_virial st)].

(** The rigid data are well formed for the projections: the integrator is
    ready, no body is twice in the group, no particle is a constituent
    twice, and the constituents of a body fit a row of the per-constituent
    arrays. *)
Definition constituents_wf (st : State Scalar) : Prop :=
  group_ready st /\
  NoDup (m_body_group st) /\
  (forall k k',
      k ∈ constituents st -> k' ∈ constituents st ->
      pidx_of st (fst k) (snd k) = pidx_of st (fst k') (snd k') -> k = k') /\
  (forall body,
      body ∈ m_body_group st ->
      body_size (rconst (m_rigid_data st)) !!! body
      <= particle_pos_pitch (rconst (m_rigid_data st))).

(** The slots of constituent [j] of [body] are inside the arrays that the
    projections write: the particle index in the particle arrays, the
    local index in the per-constituent arrays. *)
Definition constituent_in_range (st : State Scalar) (body j : nat) : Prop :=
  Forall2 lt
    (replicate 10 (pidx_of st body j) ++ replicate 3 (localidx_of st body j))
    (projection_lengths st).

(** The velocity of a particle, read from the arrays. *)
Definition velocity3 (arr : ParticleDataArrays Scalar) (pidx : nat)
  : Scalar3 Scalar :=
  make_scalar3 (vx arr !!! pidx) (vy arr !!! pidx) (vz arr !!! pidx).

(** The components [x], [y], [z] of an element. *)
Definition xyz_of (v : Scalar4 Scalar) : Scalar3 Scalar :=
  make_scalar3 (x4 v) (y4 v) (z4 v).

(** Axes, to state a property once for [x], [y] and [z]. *)
Inductive Axis : Type := AxisX | AxisY | AxisZ.

Definition coord (a : Axis) (v : Scalar4 Scalar) : Scalar :=
  match a with AxisX => x4 v | AxisY => y4 v | AxisZ => z4 v end.

Definition coord3 (a : Axis) (v : Scalar3 Scalar) : Scalar :=
  match a with AxisX => x3 v | AxisY => y3 v | AxisZ => z3 v end.

Definition box_lo (a : Axis) (bx : BoxDim Scalar) : Scalar :=
  match a with AxisX => xlo bx | AxisY => ylo bx | AxisZ => zlo bx end.

Definition box_hi (a : Axis) (bx : BoxDim Scalar) : Scalar :=
  match a with AxisX => xhi bx | AxisY => yhi bx | AxisZ => zhi bx end.

Definition body_image (a : Axis) (b : RigidBodies Scalar) : list Z :=
  match a with
  | AxisX => body_imagex b | AxisY => body_imagey b | AxisZ => body_imagez b
  end.

Definition position (a : Axis) (arr : ParticleDataArrays Scalar) : list Scalar :=
  match a with AxisX => x arr | AxisY => y arr | AxisZ => z arr end.

Definition velocity (a : Axis) (arr : ParticleDataArrays Scalar) : list Scalar :=
  match a with AxisX => vx arr | AxisY => vy arr | AxisZ => vz arr end.

Definition image (a : Axis) (arr : ParticleDataArrays Scalar) : list Z :=
  match a with AxisX => ix arr | AxisY => iy arr | AxisZ => iz arr end.

(** The state on which the loop of [integrateStepOne] runs. *)
Definition prepared (st : State Scalar) : State Scalar :=
  if m_first_step st then set_first_step false (setup st) else st.

(** The lengths of the arrays that the first half step writes for the
    centre of mass. *)
Definition com_lengths (b : RigidBodies Scalar) : list nat :=
  [length (com b); length (vel b); length (body_imagex b);
   length (body_imagey b); length (body_imagez b)].

(** The drifted coordinate of a body and what the map into the box makes
    of it. *)
Definition drifted (ax : Axis) (c v : Scalar4 Scalar) (deltaT : Scalar) : Scalar :=
  (coord ax c + coord ax v * deltaT)%S.

Definition wrapped (ax : Axis) (bx : BoxDim Scalar) (d : Scalar) (img : Z)
  : Scalar * Z :=
  wrap_coord d (box_lo ax bx) (box_hi ax bx)
             (box_hi ax bx - box_lo ax bx)%S img.

(** The coordinate the full projection computes for a constituent before
    the map into the box: centre of mass plus rotated local position. *)
Definition computed_coordinate (ax : Axis) (st : State Scalar) (body j : nat)
  : Scalar :=
  (coord ax (com (bodies (m_rigid_data st)) !!! body)
   + coord3 ax (offset_of st body j))%S.

End Integrator.

(** ** The rest of the integrator, and the vocabulary of its properties *)

Section Extensions.

Context {Scalar : Type} `{ScalarOps Scalar} `{QuaternionMath Scalar}.

Local Open Scope scalar_scope.

(** What the constructor reads from the system definition. *)
Record SystemDefinition := make_sysdef {
  getRigidData : RigidData Scalar;
  getParticleData : ParticleData Scalar;
  getNDimensions : nat
}.

(** The constructor.  The body group is built from the particle group by
    the constructor of [RigidBodyGroup], which is not in the sources:
    [RigidBodyGroup] is a parameter, as in [getNDOF].  The time step comes
    from the base class.  [m_n_bodies] is not initialised: it holds
    whatever [garbage] is there.  The second component tells whether the
    warning for an empty group is printed. *)
Definition TwoStepNVERigid_new (RigidBodyGroup : list nat -> list nat)
  (sysdef : SystemDefinition) (group : list nat) (deltaT : Scalar)
  (garbage : nat) : State Scalar * bool :=
  let body_group := RigidBodyGroup group in
  (make_state (getRigidData sysdef) (getParticleData sysdef) group body_group
              (getNDimensions sysdef) deltaT true garbage [] [],
   (length body_group =? 0)%nat).

(** The calls an integrator receives. *)
Inductive Phase : Type := StepOne | StepTwo.

Definition step (p : Phase) (st : State Scalar) : State Scalar :=
  match p with
  | StepOne => integrateStepOne st
  | StepTwo => integrateStepTwo st
  end.

Definition run (ps : list Phase) (st : State Scalar) : State Scalar :=
  fold_left (fun s p => step p s) ps st.

(** The same integrator with another body group. *)
Definition with_group (group : list nat) (st : State Scalar) : State Scalar :=
  make_state (m_rigid_data st) (m_pdata st) (m_group st) group
             (n_dimensions st) (m_deltaT st) (m_first_step st) (m_n_bodies st)
             (m_conjqm st) (m_virial st).

(** The elements of the per-body arrays that belong to one body. *)
Definition body_at (b : RigidBodies Scalar) (body : nat) : RigidBodies Scalar :=
  {| com := [com b !!! body];
     vel := [vel b !!! body];
     angmom := [angmom b !!! body];
     angvel := [angvel b !!! body];
     orientation := [orientation b !!! body];
     ex_space := [ex_space b !!! body];
     ey_space := [ey_space b !!! body];
     ez_space := [ez_space b !!! body];
     force := [force b !!! body];
     torque := [torque b !!! body];
     body_imagex := [body_imagex b !!! body];
     body_imagey := [body_imagey b !!! body];
     body_imagez := [body_imagez b !!! body] |}.

(** [body] is an index of every per-body array. *)
Definition body_in_range (b : RigidBodies Scalar) (body : nat) : Prop :=
  Forall (fun n => body < n) (body_lengths b).

(** The two loops of [computeForceAndTorque] for one body. *)
Definition aggregate_body (st : State Scalar) (body : nat)
  (b : RigidBodies Scalar) : RigidBodies Scalar :=
  force_accumulate_body (rconst (m_rigid_data st)) (net_force (m_pdata st))
    (net_torque (m_pdata st)) body (force_reset_body body b).

(** The three loops of [setup] over the per-body arrays, for one body. *)
Definition setup_body (st : State Scalar) (body : nat)
  (b : RigidBodies Scalar) : RigidBodies Scalar :=
  let rc := rconst (m_rigid_data st) in
  setup_finalize_body rc body
    (setup_accumulate_body rc (arrays (m_pdata st)) (net_force (m_pdata st)) body
       (setup_reset_body rc body b)).

(** The per-body arrays with force and torque erased. *)
Definition erase_forces (b : RigidBodies Scalar) : RigidBodies Scalar :=
  {| com := com b;
     vel := vel b;
     angmom := angmom b;
     angvel := angvel b;
     orientation := orientation b;
     ex_space := ex_space b;
     ey_space := ey_space b;
     ez_space := ez_space b;
     force := [];
     torque := [];
     body_imagex := body_imagex b;
     body_imagey := body_imagey b;
     body_imagez := body_imagez b |}.

(** A state with everything that [setup] writes erased: what
    [integrateStepTwo] writes, the number of bodies and the two arrays of
    the integrator. *)
Definition erase_setup (st : State Scalar) : State Scalar :=
  let e := erase_step_two st in
  make_state (m_rigid_data e) (m_pdata e) (m_group e) (m_body_group e)
             (n_dimensions e) (m_deltaT e) (m_first_step e) 0 [] [].

(** What the integrator reads and never writes: the constants of the
    bodies, the box, the masses and tags of the particles, their net forces
    and torques, the groups, the dimension and the time step. *)
Definition read_only (st : State Scalar) :=
  (rconst (m_rigid_data st), box (m_pdata st),
   mass (arrays (m_pdata st)), tag (arrays (m_pdata st)),
   net_force (m_pdata st), net_torque (m_pdata st),
   m_group st, m_body_group st, n_dimensions st, m_deltaT st).

(** The position, the velocity and the image counters of a particle. *)
Definition particle_at (arr : ParticleDataArrays Scalar) (p : nat)
  : Scalar3 Scalar * Scalar3 Scalar * (Z * Z * Z) :=
  (make_scalar3 (x arr !!! p) (y arr !!! p) (z arr !!! p),
   velocity3 arr p,
   (ix arr !!! p, iy arr !!! p, iz arr !!! p)).

(** *** Accesses inside the arrays

    The model reads a default element and drops a store outside an array;
    the C++ reads or overwrites memory that is not the array's.  The two
    agree on the states whose accesses are all inside the arrays, and a
    statement about what the code leaves alone is made for those. *)

(** What [setup] allocates: the number of bodies, one conjugate momentum
    for each member of the group, and one row of the virial array for each
    member of the group. *)
Definition allocate (st : State Scalar) : State Scalar :=
  let n := length (m_body_group st) in
  make_state (m_rigid_data st) (m_pdata st) (m_group st) (m_body_group st)
             (n_dimensions st) (m_deltaT st) (m_first_step st) n
             (replicate n zero4)
             (replicate (particle_pos_pitch (rconst (m_rigid_data st)) * n)%nat
                        s_zero).

(** The accesses that the integrator makes for a body, each as the index
    and the length of the array: the constants and the per-body arrays, and
    the conjugate momenta, all indexed by the body. *)
Definition body_accesses (st : State Scalar) (body : nat) : list (nat * nat) :=
  let rc := rconst (m_rigid_data st) in
  map (pair body)
      ([length (body_mass rc); length (moment_inertia rc); length (body_size rc);
        length (angmom_init rc); length (m_conjqm st)]
       ++ body_lengths (bodies (m_rigid_data st))).

(** The accesses for constituent [j] of [body]: the table of particle
    indices; the per-constituent arrays at the local index; the particle
    arrays at the particle index; the orientations at the tag. *)
Definition constituent_accesses (st : State Scalar) (body j : nat)
  : list (nat * nat) :=
  let rd := m_rigid_data st in
  let rc := rconst rd in
  let pd := m_pdata st in
  let arr := arrays pd in
  let localidx := (body * particle_pos_pitch rc + j)%nat in
  let pidx := particle_indices rc !!! (body * indices_pitch rc + j)%nat in
  [((body * indices_pitch rc + j)%nat, length (particle_indices rc))]
  ++ map (pair localidx)
       [length (particle_pos rc); length (particle_orientation rc);
        length (particle_oldpos (cache rd)); length (particle_oldvel (cache rd));
        length (m_virial st)]
  ++ map (pair pidx)
       [length (x arr); length (y arr); length (z arr);
        length (vx arr); length (vy arr); length (vz arr);
        length (ix arr); length (iy arr); length (iz arr);
        length (mass arr); length (tag arr);
        length (net_force pd); length (net_torque pd); length (net_virial pd)]
  ++ [(tag arr !!! pidx, length (pd_orientation pd))].

Definition accesses (st : State Scalar) : list (nat * nat) :=
  flat_map
    (fun body =>
       body_accesses st body
       ++ flat_map (constituent_accesses st body)
            (seq 0 (body_size (rconst (m_rigid_data st)) !!! body)))
    (m_body_group st).

(** The accesses of the integrator are inside the arrays: those of a ready
    integrator, whose loops run over the members of the group, as the
    state has them; those of a fresh one with the arrays that [setup] will
    allocate. *)
Definition ready_in_bounds (st : State Scalar) : Prop :=
  group_ready st /\ Forall (fun a => fst a < snd a) (accesses st).

Definition in_bounds (st : State Scalar) : Prop :=
  if m_first_step st then ready_in_bounds (allocate st) else ready_in_bounds st.

(** What the accesses depend on: the data that the integrator only reads
    and the lengths of the arrays. *)
Definition shape (st : State Scalar) :=
  (read_only st, body_lengths (bodies (m_rigid_data st)), projection_lengths st,
   length (pd_orientation (m_pdata st)), length (m_conjqm st)).

(** An element with its components [x], [y], [z] replaced by a triple. *)
Definition with_xyz (v : Scalar4 Scalar) (t : Scalar3 Scalar) : Scalar4 Scalar :=
  set_xyz v (x3 t) (y3 t) (z3 t).

(** Sums over the constituents of a body, the terms added one after the
    other, starting from zero: the net force, the torque [r x f] with and
    without the torque of the particle itself, and the momentum. *)
Definition zero3 : Scalar3 Scalar := make_scalar3 s_zero s_zero s_zero.

Definition force_term (st : State Scalar) (body j : nat)
  (acc : Scalar3 Scalar) : Scalar3 Scalar :=
  let f := net_force (m_pdata st) !!! pidx_of st body j in
  make_scalar3 (x3 acc + x4 f) (y3 acc + y4 f) (z3 acc + z4 f).

Definition force_sum (st : State Scalar) (body : nat) : Scalar3 Scalar :=
  for_each_j (body_size (rconst (m_rigid_data st)) !!! body)
             (force_term st body) zero3.

Definition torque_term (st : State Scalar) (body j : nat)
  (acc : Scalar3 Scalar) : Scalar3 Scalar :=
  let f := net_force (m_pdata st) !!! pidx_of st body j in
  let t := net_torque (m_pdata st) !!! pidx_of st body j in
  let r := lever_arm st body j in
  make_scalar3 (x3 acc + (y3 r * z4 f - z3 r * y4 f + x4 t))
               (y3 acc + (z3 r * x4 f - x3 r * z4 f + y4 t))
               (z3 acc + (x3 r * y4 f - y3 r * x4 f + z4 t)).

Definition torque_sum (st : State Scalar) (body : nat) : Scalar3 Scalar :=
  for_each_j (body_size (rconst (m_rigid_data st)) !!! body)
             (torque_term st body) zero3.

Definition lever_term (st : State Scalar) (body j : nat)
  (acc : Scalar3 Scalar) : Scalar3 Scalar :=
  let f := net_force (m_pdata st) !!! pidx_of st body j in
  let r := lever_arm st body j in
  make_scalar3 (x3 acc + (y3 r * z4 f - z3 r * y4 f))
               (y3 acc + (z3 r * x4 f - x3 r * z4 f))
               (z3 acc + (x3 r * y4 f - y3 r * x4 f)).

Definition lever_sum (st : State Scalar) (body : nat) : Scalar3 Scalar :=
  for_each_j (body_size (rconst (m_rigid_data st)) !!! body)
             (lever_term st body) zero3.

Definition momentum_term (st : State Scalar) (body j : nat)
  (acc : Scalar3 Scalar) : Scalar3 Scalar :=
  let arr := arrays (m_pdata st) in
  let pidx := pidx_of st body j in
  let m := mass arr !!! pidx in
  make_scalar3 (x3 acc + m * (vx arr !!! pidx))
               (y3 acc + m * (vy arr !!! pidx))
               (z3 acc + m * (vz arr !!! pidx)).

Definition momentum_sum (st : State Scalar) (body : nat) : Scalar3 Scalar :=
  for_each_j (body_size (rconst (m_rigid_data st)) !!! body)
             (momentum_term st body) zero3.

(** A loop body over the per-body arrays is local when it keeps the
    lengths of the arrays, leaves the elements of the other bodies alone,
    computes the elements of its body from the elements of its body, and
    commutes with itself on another body. *)
Record LocalStep (f : nat -> RigidBodies Scalar -> RigidBodies Scalar) : Prop := {
  local_lengths : forall body b, body_lengths (f body b) = body_lengths b;
  local_other :
    forall body' body b,
      body' <> body -> body_at (f body' b) body = body_at b body;
  local_own :
    forall body b b',
      body_in_range b body -> body_in_range b' body ->
      body_at b body = body_at b' body ->
      body_at (f body b) body = body_at (f body b') body;
  local_commute :
    forall body body' b, body <> body' -> f body (f body' b) = f body' (f body b)
}.

End Extensions.

(** ** Plane walls and the rescaling of the box

    [WallData.h].  A [vec3<Scalar>] is a [Scalar3]. *)

Record PlaneWall (Scalar : Type) := make_plane_wall {
  normal : Scalar3 Scalar;
  origin : Scalar3 Scalar;
  inside : bool
}.

Arguments make_plane_wall {Scalar} _ _ _.
Arguments normal {Scalar} _.
Arguments origin {Scalar} _.
Arguments inside {Scalar} _.

Section Walls.

Context {Scalar : Type} `{ScalarOps Scalar}.

Local Open Scope scalar_scope.

(** [BoxDim.h], [HOOMDMath.h] and [VectorMath.h] are not in the sources:
    the box with its lattice vectors, the fast inverse square root and the
    product of a vector with a scalar are parameters. *)
Variable BoxDim' : Type.
Variable getLatticeVector : BoxDim' -> nat -> Scalar3 Scalar.
Variable rsqrt : Scalar -> Scalar.
Variable vec_scale : Scalar3 Scalar -> Scalar -> Scalar3 Scalar.

(** [getTransMatrix]: the nine entries it writes to [A], row by row. *)
Definition getTransMatrix (old_box new_box : BoxDim') : list Scalar :=
  (* Old Box *)
  let a_old := getLatticeVector old_box 0 in
  let b_old := getLatticeVector old_box 1 in
  let c_old := getLatticeVector old_box 2 in
  (* New Box *)
  let a_new := getLatticeVector new_box 0 in
  let b_new := getLatticeVector new_box 1 in
  let c_new := getLatticeVector new_box 2 in
  (* Calculate the inverse of old matrix *)
  let inv11 := y3 b_old * z3 c_old - y3 c_old * z3 b_old in
  let inv12 := x3 c_old * z3 b_old - x3 b_old * z3 c_old in
  let inv13 := x3 b_old * y3 c_old - x3 c_old * y3 b_old in
  let inv21 := y3 c_old * z3 a_old - y3 a_old * z3 c_old in
  let inv22 := x3 a_old * z3 c_old - x3 c_old * z3 a_old in
  let inv23 := x3 c_old * y3 a_old - x3 a_old * y3 c_old in
  let inv31 := y3 a_old * z3 b_old - y3 b_old * z3 a_old in
  let inv32 := x3 b_old * z3 a_old - x3 a_old * z3 b_old in
  let inv33 := x3 a_old * y3 b_old - x3 b_old * y3 a_old in
  let detinv := x3 a_old * inv11 + x3 b_old * inv21 + x3 c_old * inv31 in
  let inv11 := inv11 / detinv in
  let inv12 := inv12 / detinv in
  let inv13 := inv13 / detinv in
  let inv21 := inv21 / detinv in
  let inv22 := inv22 / detinv in
  let inv23 := inv23 / detinv in
  let inv31 := inv31 / detinv in
  let inv32 := inv32 / detinv in
  let inv33 := inv33 / detinv in
  (* A = new_box_matrix * inverse(old_box_matrix) *)
  [ x3 a_new * inv11 + x3 b_new * inv21 + x3 c_new * inv31;
    x3 a_new * inv12 + x3 b_new * inv22 + x3 c_new * inv32;
    x3 a_new * inv13 + x3 b_new * inv23 + x3 c_new * inv33;
    y3 a_new * inv11 + y3 b_new * inv21 + y3 c_new * inv31;
    y3 a_new * inv12 + y3 b_new * inv22 + y3 c_new * inv32;
    y3 a_new * inv13 + y3 b_new * inv23 + y3 c_new * inv33;
    z3 a_new * inv11 + z3 b_new * inv21 + z3 c_new * inv31;
    z3 a_new * inv12 + z3 b_new * inv22 + z3 c_new * inv32;
    z3 a_new * inv13 + z3 b_new * inv23 + z3 c_new * inv33 ].

(** The origin that [rescaleWall] leaves in the wall.  The components are
    assigned in place, one after the other: [y] is computed from the new
    [x], and [z] from the new [x] and [y]. *)
Definition rescaled_origin (o : Scalar3 Scalar) (transMatrix : list Scalar)
  : Scalar3 Scalar :=
  let ox := x3 o * transMatrix !!! 0 + y3 o * transMatrix !!! 1
            + z3 o * transMatrix !!! 2 in
  let oy := ox * transMatrix !!! 3 + y3 o * transMatrix !!! 4
            + z3 o * transMatrix !!! 5 in
  let oz := ox * transMatrix !!! 6 + oy * transMatrix !!! 7
            + z3 o * transMatrix !!! 8 in
  make_scalar3 ox oy oz.

(** The normal of [rescaleWall] before it is normalised, assigned in place
    in the same way. *)
Definition rescaled_normal (n : Scalar3 Scalar) (transMatrix : list Scalar)
  : Scalar3 Scalar :=
  let t i := transMatrix !!! i in
  (* find transpose inverse of transMatrix *)
  let inv11 := t 4 * t 8 - t 5 * t 7 in
  let inv12 := t 2 * t 7 - t 1 * t 8 in
  let inv13 := t 1 * t 5 - t 2 * t 4 in
  let inv21 := t 5 * t 6 - t 3 * t 8 in
  let inv22 := t 0 * t 8 - t 2 * t 6 in
  let inv23 := t 2 * t 3 - t 0 * t 5 in
  let inv31 := t 3 * t 7 - t 4 * t 6 in
  let inv32 := t 1 * t 6 - t 0 * t 7 in
  let inv33 := t 0 * t 4 - t 1 * t 3 in
  let detinv := t 0 * inv11 + t 1 * inv21 + t 2 * inv31 in
  let inv11 := inv11 / detinv in
  let inv12 := inv12 / detinv in
  let inv13 := inv13 / detinv in
  let inv21 := inv21 / detinv in
  let inv22 := inv22 / detinv in
  let inv23 := inv23 / detinv in
  let inv31 := inv31 / detinv in
  let inv32 := inv32 / detinv in
  let inv33 := inv33 / detinv in
  let nx := x3 n * inv11 + y3 n * inv21 + z3 n * inv31 in
  let ny := nx * inv12 + y3 n * inv22 + z3 n * inv32 in
  let nz := nx * inv13 + ny * inv23 + z3 n * inv33 in
  make_scalar3 nx ny nz.

(** [rescaleWall]; the old box is not read. *)
Definition rescaleWall (wall : PlaneWall Scalar) (old_box : BoxDim')
  (transMatrix : list Scalar) : PlaneWall Scalar :=
  let o := rescaled_origin (origin wall) transMatrix in
  let n := rescaled_normal (normal wall) transMatrix in
  let invNormLength := rsqrt (x3 n * x3 n + y3 n * y3 n + z3 n * z3 n) in
  make_plane_wall (vec_scale n invNormLength) o (inside wall).

(** The product of a matrix, given row by row, with a vector. *)
Definition mat_vec (A : list Scalar) (v : Scalar3 Scalar) : Scalar3 Scalar :=
  make_scalar3
    (A !!! 0 * x3 v + A !!! 1 * y3 v + A !!! 2 * z3 v)
    (A !!! 3 * x3 v + A !!! 4 * y3 v + A !!! 5 * z3 v)
    (A !!! 6 * x3 v + A !!! 7 * y3 v + A !!! 8 * z3 v).

(** The determinant of the matrix of three column vectors, as
    [getTransMatrix] computes it. *)
Definition det3 (a b c : Scalar3 Scalar) : Scalar :=
  x3 a * (y3 b * z3 c - y3 c * z3 b) + x3 b * (y3 c * z3 a - y3 a * z3 c)
  + x3 c * (y3 a * z3 b - y3 b * z3 a).

(** The point with coordinates [al], [be], [ga] in the lattice [a], [b],
    [c]. *)
Definition combine3 (al be ga : Scalar) (a b c : Scalar3 Scalar) : Scalar3 Scalar :=
  make_scalar3 (al * x3 a + be * x3 b + ga * x3 c)
               (al * y3 a + be * y3 b + ga * y3 c)
               (al * z3 a + be * z3 b + ga * z3 c).

End Walls.

(** ** Exact arithmetic

    An instance of the scalar operations on which the model runs: rational
    numbers kept in lowest terms, so that equal numbers are equal terms.
    Nothing is rounded, and the quotient by zero is zero, as [Qinv] has it:
    what is proved with these operations is a statement in exact
    arithmetic, not one about a [float] or [double] build. *)

Module Exact.

Local Open Scope Q_scope.

Definition add (a b : Q) : Q := Qred (a + b).
Definition sub (a b : Q) : Q := Qred (a - b).
Definition mul (a b : Q) : Q := Qred (a * b).
Definition div (a b : Q) : Q := Qred (a / b).
Definition ltb (a b : Q) : bool := negb (Qle_bool b a).
Definition geb (a b : Q) : bool := Qle_bool b a.

#[export] Instance scalar_ops : ScalarOps Q := {|
  s_zero := 0;
  s_half := 1 # 2;
  s_two := 2;
  s_three := 3;
  s_add := add;
  s_sub := sub;
  s_mul := mul;
  s_div := div;
  s_eqb := Qeq_bool;
  s_ltb := ltb;
  s_geb := geb;
  s_of_int := inject_Z
|}.

Local Open Scope scalar_scope.

(** The square root of the square of a rational (of another number, the
    root of the integer part of numerator times denominator, over the
    denominator). *)
Definition sqrt (a : Q) : Q :=
  Qred (Z.sqrt (Qnum a * Zpos (Qden a))%Z # Qden a).

Definition q_scale (c : Q) (q : Scalar4 Q) : Scalar4 Q :=
  make_scalar4 (c * x4 q) (c * y4 q) (c * z4 q) (c * w4 q).

Definition q_add (a b : Scalar4 Q) : Scalar4 Q :=
  make_scalar4 (x4 a + x4 b) (y4 a + y4 b) (z4 a + z4 b) (w4 a + w4 b).

(** Product of quaternions; [x] is the scalar part. *)
Definition q_mul (a b : Scalar4 Q) : Scalar4 Q :=
  make_scalar4
    (x4 a * x4 b - y4 a * y4 b - z4 a * z4 b - w4 a * w4 b)
    (x4 a * y4 b + x4 b * y4 a + z4 a * w4 b - w4 a * z4 b)
    (x4 a * z4 b + x4 b * z4 a + w4 a * y4 b - y4 a * w4 b)
    (x4 a * w4 b + x4 b * w4 a + y4 a * z4 b - z4 a * y4 b).

(** The vector [v] as a quaternion without scalar part. *)
Definition q_pure (v : Scalar4 Q) : Scalar4 Q :=
  make_scalar4 0 (x4 v) (y4 v) (z4 v).

Definition q_normalize (q : Scalar4 Q) : Scalar4 Q :=
  let n := sqrt (x4 q * x4 q + y4 q * y4 q + z4 q * z4 q + w4 q * w4 q) in
  if n =? 0 then q else q_scale (1 / n) q.

(** The transposed basis applied to [v]. *)
Definition q_matrix_dot (ex ey ez v : Scalar4 Q) : Scalar4 Q :=
  make_scalar4 (dot3 ex v) (dot3 ey v) (dot3 ez v) 0.

(** The basis vectors of the frame of a quaternion. *)
Definition q_basis (q : Scalar4 Q) : Scalar4 Q * Scalar4 Q * Scalar4 Q :=
  let q0 := x4 q in
  let q1 := y4 q in
  let q2 := z4 q in
  let q3 := w4 q in
  (make_scalar4 (q0 * q0 + q1 * q1 - q2 * q2 - q3 * q3)
                (2 * (q1 * q2 + q0 * q3)) (2 * (q1 * q3 - q0 * q2)) 0,
   make_scalar4 (2 * (q1 * q2 - q0 * q3))
                (q0 * q0 - q1 * q1 + q2 * q2 - q3 * q3)
                (2 * (q2 * q3 + q0 * q1)) 0,
   make_scalar4 (2 * (q1 * q3 + q0 * q2)) (2 * (q2 * q3 - q0 * q1))
                (q0 * q0 - q1 * q1 - q2 * q2 + q3 * q3) 0).

(** A first-order advance of the orientation: [q + dt/2 (w q)],
    normalised, with the basis and the angular velocity rebuilt from it.
    It stands in for the scheme of the absent header when the model is run
    on a concrete state; the theorems hold for every instance of the
    interface. *)
Definition q_advance (l moment w ex ey ez : Scalar4 Q) (deltaT : Q)
  (q : Scalar4 Q) : Advanced Q :=
  let w1 := computeAngularVelocity l moment ex ey ez w in
  let q1 := q_normalize
              (q_add q (q_scale (s_half * deltaT) (q_mul (q_pure w1) q))) in
  let '(ex1, ey1, ez1) := q_basis q1 in
  make_advanced (computeAngularVelocity l moment ex1 ey1 ez1 w1) ex1 ey1 ez1 q1.

#[export] Instance quaternion_math : QuaternionMath Q := {|
  advanceQuaternion := q_advance;
  matrix_dot := q_matrix_dot;
  quatvec := fun q v => q_mul q (q_pure v);
  quatquat := q_mul;
  normalize := q_normalize
|}.

(** Vectors with equal components. *)
Definition eq3 (u v : Scalar3 Q) : Prop :=
  (x3 u == x3 v /\ y3 u == y3 v /\ z3 u == z3 v)%Q.

(** The lattice vectors of a box as HOOMD has them: the first along [x],
    the second in the plane of [x] and [y]. *)
Definition upper_triangular (a b : Scalar3 Q) : Prop :=
  (y3 a == 0 /\ z3 a == 0 /\ z3 b == 0)%Q.

End Exact.

(** ** Binary64 arithmetic

    The scalar operations of a build in which [Scalar] is [double]: the
    operations of IEEE 754 binary64, rounding to nearest.  The helpers of
    the absent header are the first-order scheme of [Exact], in binary64. *)

Module Binary64.

(** Conversion of an [int]: exact, an [int] has fewer bits than the
    significand. *)
Fixpoint of_pos (p : positive) : float :=
  match p with
  | xH => 1%float
  | xO p => PrimFloat.mul 2 (of_pos p)
  | xI p => PrimFloat.add (PrimFloat.mul 2 (of_pos p)) 1
  end.

Definition of_int (z : Z) : float :=
  match z with
  | Z0 => 0%float
  | Zpos p => of_pos p
  | Zneg p => PrimFloat.opp (of_pos p)
  end.

#[export] Instance double_ops : ScalarOps float := {|
  s_zero := 0%float;
  s_half := 0x1p-1%float;
  s_two := 2%float;
  s_three := 3%float;
  s_add := PrimFloat.add;
  s_sub := PrimFloat.sub;
  s_mul := PrimFloat.mul;
  s_div := PrimFloat.div;
  s_eqb := PrimFloat.eqb;
  s_ltb := PrimFloat.ltb;
  s_geb := fun a b => PrimFloat.leb b a;
  s_of_int := of_int
|}.

Local Open Scope scalar_scope.

Definition quat_scale (c : float) (q : Scalar4 float) : Scalar4 float :=
  make_scalar4 (c * x4 q) (c * y4 q) (c * z4 q) (c * w4 q).

Definition quat_add (a b : Scalar4 float) : Scalar4 float :=
  make_scalar4 (x4 a + x4 b) (y4 a + y4 b) (z4 a + z4 b) (w4 a + w4 b).

Definition quat_mul (a b : Scalar4 float) : Scalar4 float :=
  make_scalar4
    (x4 a * x4 b - y4 a * y4 b - z4 a * z4 b - w4 a * w4 b)
    (x4 a * y4 b + x4 b * y4 a + z4 a * w4 b - w4 a * z4 b)
    (x4 a * z4 b + x4 b * z4 a + w4 a * y4 b - y4 a * w4 b)
    (x4 a * w4 b + x4 b * w4 a + y4 a * z4 b - z4 a * y4 b).

Definition quat_pure (v : Scalar4 float) : Scalar4 float :=
  make_scalar4 s_zero (x4 v) (y4 v) (z4 v).

Definition quat_normalize (q : Scalar4 float) : Scalar4 float :=
  let n := PrimFloat.sqrt
             (x4 q * x4 q + y4 q * y4 q + z4 q * z4 q + w4 q * w4 q) in
  if n =? s_zero then q else quat_scale (1%float / n) q.

Definition quat_matrix_dot (ex ey ez v : Scalar4 float) : Scalar4 float :=
  make_scalar4 (dot3 ex v) (dot3 ey v) (dot3 ez v) s_zero.

Definition quat_basis (q : Scalar4 float)
  : Scalar4 float * Scalar4 float * Scalar4 float :=
  let q0 := x4 q in
  let q1 := y4 q in
  let q2 := z4 q in
  let q3 := w4 q in
  (make_scalar4 (q0 * q0 + q1 * q1 - q2 * q2 - q3 * q3)
                (s_two * (q1 * q2 + q0 * q3)) (s_two * (q1 * q3 - q0 * q2)) s_zero,
   make_scalar4 (s_two * (q1 * q2 - q0 * q3))
                (q0 * q0 - q1 * q1 + q2 * q2 - q3 * q3)
                (s_two * (q2 * q3 + q0 * q1)) s_zero,
   make_scalar4 (s_two * (q1 * q3 + q0 * q2)) (s_two * (q2 * q3 - q0 * q1))
                (q0 * q0 - q1 * q1 - q2 * q2 + q3 * q3) s_zero).

Definition quat_advance (l moment w ex ey ez : Scalar4 float) (deltaT : float)
  (q : Scalar4 float) : Advanced float :=
  let w1 := computeAngularVelocity l moment ex ey ez w in
  let q1 := quat_normalize
              (quat_add q (quat_scale (s_half * deltaT)
                                      (quat_mul (quat_pure w1) q))) in
  let '(ex1, ey1, ez1) := quat_basis q1 in
  make_advanced (computeAngularVelocity l moment ex1 ey1 ez1 w1) ex1 ey1 ez1 q1.

#[export] Instance double_math : QuaternionMath float := {|
  advanceQuaternion := quat_advance;
  matrix_dot := quat_matrix_dot;
  quatvec := fun q v => quat_mul q (quat_pure v);
  quatquat := quat_mul;
  normalize := quat_normalize
|}.

Definition f4 (a b c : float) : Scalar4 float := make_scalar4 a b c 0%float.

(** One body, index 0, of two particles of mass 1 at (1/16,0,0) and
    (-1/16,0,0) in the body frame, its frame the space frame, under no
    force.  The box is [-0.3,0.25) in [x], the bounds being the doubles
    nearest to these numbers.  The centre of mass is one unit in the last
    place below the high bound in [x], at 0.25 - 2^-55, and the body moves
    with velocity 2^-54 along [x]; the time step is 1.  The integrator is
    ready. *)
Definition edge_body : State float :=
  let c := PrimFloat.sub 0x1p-2 0x1p-55 in
  make_state
    (make_rigid_data
       (make_rigid_const [2%float] [f4 0 2 2] [2%nat] [0%nat; 1%nat] 2
          [f4 0x1p-4 0 0; f4 (-0x1p-4) 0 0] 2
          [make_scalar4 1 0 0 0; make_scalar4 1 0 0 0]%float [true] 2)
       (make_rigid_bodies [f4 c 0 0] [f4 0x1p-54 0 0] [f4 0 0 0] [f4 0 0 0]
          [make_scalar4 1 0 0 0]%float [f4 1 0 0] [f4 0 1 0] [f4 0 0 1]
          [f4 0 0 0] [f4 0 0 0] [0%Z] [0%Z] [0%Z])
       (make_cache [f4 0 0 0; f4 0 0 0] [f4 0 0 0; f4 0 0 0]))
    (make_pdata
       (make_arrays [0x1p-3; 0x1p-3]%float [0; 0]%float [0; 0]%float
          [0x1p-54; 0x1p-54]%float [0; 0]%float [0; 0]%float
          [0%Z; 0%Z] [0%Z; 0%Z] [0%Z; 0%Z] [1; 1]%float [0%nat; 1%nat])
       [make_scalar4 1 0 0 0; make_scalar4 1 0 0 0]%float
       [f4 0 0 0; f4 0 0 0] [f4 0 0 0; f4 0 0 0] [0; 0]%float
       (make_box (-0x1.3333333333333p-2) 0x1p-2 (-1) 1 (-1) 1)%float)
    [0%nat; 1%nat] [0%nat] 3 1%float false 1%nat [f4 0 0 0] [0; 0]%float.

End Binary64.

(** ** Concrete states *)

Module Examples.

Import Exact.
Local Open Scope Q_scope.

Definition v4 (a b c : Q) : Scalar4 Q := make_scalar4 a b c 0.

Definition identity_quat : Scalar4 Q := make_scalar4 1 0 0 0.

Definition cube : BoxDim Q := make_box (-5) 5 (-5) 5 (-5) 5.

(** One body, index 0, of two particles of mass 1 at (1,0,0) and (-1,0,0)
    in the body frame: mass 2, principal moments (0,2,2).  Its centre of
    mass is at [c] with image counters [img]; its frame is the space frame.
    The particles move with velocities [pv] and [-pv] and both feel the
    force [f]; the body has velocity [bv] and force [bf]; the caches hold
    the positions of the particles and zero velocities.  A third particle, index 2, belongs to
    no body.  The box is [-5,5) on each axis and the time step is 1/100. *)
Definition dumbbell (c : Scalar4 Q) (img : Z) (pv bv bf f : Scalar4 Q)
  (init first : bool) : State Q :=
  make_state
    (make_rigid_data
       (make_rigid_const [2] [v4 0 2 2] [2%nat] [0%nat; 1%nat] 2
          [v4 1 0 0; v4 (-1) 0 0] 2 [identity_quat; identity_quat] [init] 2)
       (make_rigid_bodies [c] [bv] [v4 0 0 0] [v4 0 0 0] [identity_quat]
          [v4 1 0 0] [v4 0 1 0] [v4 0 0 1] [bf] [v4 0 0 0]
          [img] [img] [img])
       (make_cache [v4 (x4 c + 1) (y4 c) (z4 c); v4 (x4 c - 1) (y4 c) (z4 c)]
                   [v4 0 0 0; v4 0 0 0]))
    (make_pdata
       (make_arrays [x4 c + 1; x4 c - 1; 3] [y4 c; y4 c; 3] [z4 c; z4 c; 3]
          [x4 pv; - x4 pv; 7] [y4 pv; - y4 pv; 7] [z4 pv; - z4 pv; 7]
          [img; img; 0%Z] [img; img; 0%Z] [img; img; 0%Z] [1; 1; 1]
          [0%nat; 1%nat; 2%nat])
       [identity_quat; identity_quat; identity_quat] [f; f; v4 0 0 0]
       [v4 0 0 0; v4 0 0 0; v4 0 0 0] [0; 0; 9] cube)
    [0%nat; 1%nat] [0%nat] 3 (1 # 100) first (if first then 0%nat else 1%nat)
    (if first then [] else [v4 0 0 0]) [0; 0].

(** A fresh integrator for the body at rest at the origin, with a force of
    1/2 on each particle. *)
Definition resting_dumbbell : State Q :=
  dumbbell (v4 0 0 0) 0 (v4 0 0 0) (v4 0 0 0) (v4 0 0 0) (v4 (1 # 2) 0 0)
           false true.

(** The same body after the first half step, the integrator ready. *)
Definition ready_dumbbell : State Q :=
  dumbbell (v4 0 0 0) 0 (v4 0 0 0) (v4 (1 # 400) 0 0) (v4 1 0 0)
           (v4 (1 # 2) 0 0) false false.

(** The body moving with velocity (1/400,0,0) under no force, while the
    cached velocities of its particles are zero. *)
Definition kicked_dumbbell : State Q :=
  dumbbell (v4 0 0 0) 0 (v4 0 0 0) (v4 (1 # 400) 0 0) (v4 1 0 0) (v4 0 0 0)
           false false.

(** A fresh integrator for the body at rest 1/80000 below the high bound
    of the box in [x]. *)
Definition edge_dumbbell : State Q :=
  dumbbell (v4 (5 - (1 # 80000)) 0 0) 0 (v4 0 0 0) (v4 0 0 0) (v4 0 0 0)
           (v4 (1 # 2) 0 0) false true.

(** The body with its centre of mass at 9/2 in [x]: one particle is beyond
    the high bound. *)
Definition straddling_dumbbell : State Q :=
  dumbbell (v4 (9 # 2) 0 0) 0 (v4 0 0 0) (v4 0 0 0) (v4 0 0 0) (v4 0 0 0)
           false false.

(** A fresh integrator for the body spinning about [z], with its angular
    momentum marked as initialised, or not. *)
Definition flagged_dumbbell (init : bool) : State Q :=
  dumbbell (v4 0 0 0) 0 (v4 0 3 0) (v4 0 0 0) (v4 0 0 0) (v4 0 0 0) init true.

(** The same integrator with no body in its group. *)
Definition no_body (first : bool) : State Q :=
  let st := dumbbell (v4 0 0 0) 0 (v4 0 0 0) (v4 0 0 0) (v4 0 0 0) (v4 0 0 0)
                     false first in
  make_state (m_rigid_data st) (m_pdata st) [] [] 3 (m_deltaT st) first 0%nat
             [] [].

(** Three bodies like the dumbbell, with indices 0, 1 and 2, their centres
    of mass at (-2,0,0), (0,2,0) and (2,0,0), their frames the space frame.
    Body 0 moves with velocity (1/400,0,0) and turns about [z] with angular
    velocity 1, body 2 moves with velocity (0,1/100,0), body 1 is at rest;
    the particles move with their bodies.  The particles of body 0 feel the
    force (1/2,0,0), and the first of them the torque (0,0,1/3); those of
    body 2 feel the forces (0,1/2,0) and (0,1/4,0).  A seventh particle,
    index 6, belongs to no body.  The integrator works on the bodies of
    [group]; it is fresh when [first] is set and ready otherwise. *)
Definition trio (group : list nat) (first : bool) : State Q :=
  let n := length group in
  make_state
    (make_rigid_data
       (make_rigid_const [2; 2; 2] [v4 0 2 2; v4 0 2 2; v4 0 2 2]
          [2%nat; 2%nat; 2%nat] [0%nat; 1%nat; 2%nat; 3%nat; 4%nat; 5%nat] 2
          [v4 1 0 0; v4 (-1) 0 0; v4 1 0 0; v4 (-1) 0 0; v4 1 0 0; v4 (-1) 0 0] 2
          (replicate 6 identity_quat) [false; false; false] 2)
       (make_rigid_bodies
          [v4 (-2) 0 0; v4 0 2 0; v4 2 0 0]
          [v4 (1 # 400) 0 0; v4 0 0 0; v4 0 (1 # 100) 0]
          [v4 0 0 2; v4 0 0 0; v4 0 0 0]
          [v4 0 0 1; v4 0 0 0; v4 0 0 0]
          (replicate 3 identity_quat)
          (replicate 3 (v4 1 0 0)) (replicate 3 (v4 0 1 0)) (replicate 3 (v4 0 0 1))
          [v4 1 0 0; v4 0 0 0; v4 0 (3 # 4) 0]
          [v4 0 0 (1 # 3); v4 0 0 0; v4 0 0 (1 # 4)]
          [0%Z; 0%Z; 0%Z] [0%Z; 0%Z; 0%Z] [0%Z; 0%Z; 0%Z])
       (make_cache
          [v4 (-1) 0 0; v4 (-3) 0 0; v4 1 2 0; v4 (-1) 2 0; v4 3 0 0; v4 1 0 0]
          (replicate 6 (v4 0 0 0))))
    (make_pdata
       (make_arrays [-1; -3; 1; -1; 3; 1; 4] [0; 0; 2; 2; 0; 0; 4]
          [0; 0; 0; 0; 0; 0; 4]
          [1 # 400; 1 # 400; 0; 0; 0; 0; 7] [1; -1; 0; 0; 1 # 100; 1 # 100; 7]
          [0; 0; 0; 0; 0; 0; 7]
          (replicate 7 0%Z) (replicate 7 0%Z) (replicate 7 0%Z)
          (replicate 7 1)
          [0%nat; 1%nat; 2%nat; 3%nat; 4%nat; 5%nat; 6%nat])
       (replicate 7 identity_quat)
       [v4 (1 # 2) 0 0; v4 (1 # 2) 0 0; v4 0 0 0; v4 0 0 0; v4 0 (1 # 2) 0;
        v4 0 (1 # 4) 0; v4 0 0 0]
       [v4 0 0 (1 # 3); v4 0 0 0; v4 0 0 0; v4 0 0 0; v4 0 0 0; v4 0 0 0;
        v4 0 0 0]
       (replicate 7 0) cube)
    [0%nat; 1%nat; 4%nat; 5%nat] group 3 (1 # 100) first
    (if first then 0%nat else n)
    (if first then [] else replicate n (v4 0 0 0)) (replicate 6 0).

(** The integrator on bodies 0 and 2 of the trio, ready and fresh. *)
Definition ready_trio : State Q := trio [0%nat; 2%nat] false.

Definition fresh_trio : State Q := trio [0%nat; 2%nat] true.

(** Three bodies of two particles each, with indices 0, 1 and 2; the
    integrator works on bodies 1 and 0, in this order.  Body [b] owns the
    particles [particle_indices] names in its row: 4 and 1 for body 0, 0 and
    5 for body 1, 2 and 3 for body 2; particle 6 belongs to no body.  Body 0
    is turned about [x] (orientation (3/5,4/5,0,0)), body 1 about [z]
    (orientation (4/5,0,0,3/5)), the frame of body 2 is the space frame.
    Body 1 has a zero principal moment, and the angular momentum of body 0
    is marked as initialised.  Velocities, forces, torques and caches are
    not zero.  The box is [-5,5) on each axis and the time step is 1/100.
    The integrator is fresh when [first] is set and ready otherwise, with
    [m_conjqm] and [m_virial] as [setup] allocates them for two bodies. *)
Definition fleet (first : bool) : State Q :=
  make_state
    (make_rigid_data
       (make_rigid_const [2; 2; 2] [v4 4 2 3; v4 0 2 5; v4 0 2 2]
          [2%nat; 2%nat; 2%nat] [4%nat; 1%nat; 0%nat; 5%nat; 2%nat; 3%nat] 2
          [v4 1 (1 # 2) (1 # 4); v4 (-1) (-1 # 2) (-1 # 4);
           v4 (1 # 2) (1 # 4) (1 # 4); v4 (-3 # 2) (-3 # 4) (-3 # 4);
           v4 1 0 0; v4 (-1) 0 0] 2
          (replicate 6 identity_quat) [true; false; false] 2)
       (make_rigid_bodies
          [v4 (-2) 1 (1 # 2); v4 (24 # 5) 2 0; v4 2 0 0]
          [v4 (1 # 400) 0 (1 # 50); v4 (1 # 10) (-1 # 5) (3 # 10); v4 0 (1 # 100) 0]
          [v4 (1 # 2) (1 # 3) 2; v4 1 1 1; v4 0 0 0]
          [v4 0 0 1; v4 (1 # 7) 0 0; v4 0 0 0]
          [make_scalar4 (3 # 5) (4 # 5) 0 0; make_scalar4 (4 # 5) 0 0 (3 # 5);
           identity_quat]
          [v4 1 0 0; v4 (7 # 25) (24 # 25) 0; v4 1 0 0]
          [v4 0 (-7 # 25) (24 # 25); v4 (-24 # 25) (7 # 25) 0; v4 0 1 0]
          [v4 0 (-24 # 25) (-7 # 25); v4 0 0 1; v4 0 0 1]
          [v4 1 2 3; v4 (1 # 2) 0 (-1); v4 0 (3 # 4) 0]
          [v4 0 0 (1 # 3); v4 (1 # 5) (1 # 5) (1 # 5); v4 0 0 (1 # 4)]
          [0%Z; 1%Z; 0%Z] [2%Z; 0%Z; 0%Z] [0%Z; (-1)%Z; 0%Z])
       (make_cache
          [v4 (-1) (3 # 2) (1 # 2); v4 (-3) (1 # 2) 1; v4 5 2 (1 # 4);
           v4 (23 # 5) 1 (-1); v4 3 0 0; v4 1 0 0]
          [v4 (1 # 4) 0 (1 # 8); v4 0 (1 # 2) 0; v4 (1 # 10) (1 # 10) (-1 # 5);
           v4 (-1 # 3) 0 1; v4 0 0 0; v4 0 0 0]))
    (make_pdata
       (make_arrays [4; -3; 3; 1; -1; 4; 4] [2; 1; 0; 0; 1; 2; 4]
          [0; 0; 0; 0; 1; -1; 4]
          [1 # 2; -1 # 4; 0; 0; 1 # 3; 1; 7] [1; 1 # 5; 0; 0; -1 # 2; -2; 7]
          [-1; 1 # 2; 0; 0; 1 # 4; 3; 7]
          [1%Z; 0%Z; 0%Z; 0%Z; 0%Z; 1%Z; 0%Z] [0%Z; 2%Z; 0%Z; 0%Z; 2%Z; 0%Z; 0%Z]
          [(-1)%Z; 0%Z; 0%Z; 0%Z; 0%Z; (-1)%Z; 0%Z]
          [3 # 2; 1; 1; 1; 1; 1 # 2; 1]
          [0%nat; 1%nat; 2%nat; 3%nat; 4%nat; 5%nat; 6%nat])
       (replicate 7 identity_quat)
       [v4 (1 # 2) (-1) 2; v4 1 (1 # 3) (-1 # 2); v4 0 0 0; v4 0 0 0;
        v4 (-1 # 4) 2 1; v4 3 (1 # 2) (-2); v4 9 9 9]
       [v4 0 (1 # 2) (1 # 3); v4 1 0 0; v4 0 0 0; v4 0 0 0; v4 (1 # 5) 0 (-1);
        v4 0 0 2; v4 0 0 0]
       [1 # 10; 1 # 5; 0; 0; 3 # 10; 2 # 5; 9] cube)
    [0%nat; 1%nat; 2%nat; 3%nat; 4%nat; 5%nat] [1%nat; 0%nat] 3 (1 # 100) first
    (if first then 0%nat else 2%nat)
    (if first then [] else replicate 2 (v4 0 0 0))
    (if first then [] else [1 # 100; 1 # 50; 3 # 100; 1 # 25]).

Definition fresh_fleet : State Q := fleet true.

Definition ready_fleet : State Q := fleet false.

(** Two boxes by their lattice vectors: a cube of side 10, and a sheared
    box with lattice vectors (20,0,0), (5,10,0) and (2,3,30). *)
Inductive ExampleBox : Type := CubicBox | ShearedBox.

Definition example_lattice (bx : ExampleBox) (i : nat) : Scalar3 Q :=
  match bx, i with
  | CubicBox, O => make_scalar3 10 0 0
  | CubicBox, S O => make_scalar3 0 10 0
  | CubicBox, _ => make_scalar3 0 0 10
  | ShearedBox, O => make_scalar3 20 0 0
  | ShearedBox, S O => make_scalar3 5 10 0
  | ShearedBox, _ => make_scalar3 2 3 30
  end.

(** Stand-ins for the inverse square root and the product of a vector
    with a scalar, to run [rescaleWall] on a concrete wall. *)
Definition q_rsqrt (a : Q) : Q := 1 / sqrt a.

Definition q_vec_scale (v : Scalar3 Q) (s : Q) : Scalar3 Q :=
  make_scalar3 (x3 v * s) (y3 v * s) (z3 v * s).

(** A wall through (2,3,4) with its normal along [z]. *)
Definition example_wall : PlaneWall Q :=
  make_plane_wall (make_scalar3 0 0 1) (make_scalar3 2 3 4) true.

End Examples.

(** * Properties *)

(** ** Machine integers *)

Lemma int_incr_in_range (i : Z) :
  (INT_MIN <= i < INT_MAX)%Z -> int_incr i = (i + 1)%Z.
Proof.
  unfold INT_MIN, INT_MAX, int_incr, wrap_int. intros Hi.
  rewrite Z.mod_small; lia.
Qed.

Lemma int_decr_in_range (i : Z) :
  (INT_MIN < i <= INT_MAX)%Z -> int_decr i = (i - 1)%Z.
Proof.
  unfold INT_MIN, INT_MAX, int_decr, wrap_int. intros Hi.
  rewrite Z.mod_small; lia.
Qed.

(** ** Loops *)

Section Loops.

Context {A K : Type}.

(** A property kept by every iteration is kept by the loop. *)
Lemma fold_left_preserves (f : K -> A -> A) (P : A -> Prop) (l : list K) (a : A) :
  (forall k a', k ∈ l -> P a' -> P (f k a')) ->
  P a -> P (fold_left (fun acc k => f k acc) l a).
Proof.
  revert a. induction l as [|k l IH]; intros a Hstep Ha; simpl; [done|].
  apply IH.
  - intros k' a' Hk'. apply Hstep. by right.
  - apply Hstep; [by left | done].
Qed.

(** A loop over the indices of a list is a loop over its elements. *)
Lemma fold_left_seq_lookup `{Inhabited K} (g : list K) (f : K -> A -> A) (a : A) :
  fold_left (fun acc i => f (g !!! i) acc) (seq 0 (length g)) a
  = fold_left (fun acc k => f k acc) g a.
Proof.
  revert a. induction g as [|k g IH] using rev_ind; intros a; [done|].
  rewrite length_app, Nat.add_comm. simpl length.
  rewrite seq_S, !fold_left_app. simpl.
  rewrite <- IH.
  assert (Hk : (g ++ [k]) !!! length g = k).
  { rewrite lookup_total_app_r by lia. by rewrite Nat.sub_diag. }
  rewrite Hk. f_equal.
  assert (Hext : forall l a0, (forall i, i ∈ l -> i < length g) ->
             fold_left (fun acc i => f ((g ++ [k]) !!! i) acc) l a0
             = fold_left (fun acc i => f (g !!! i) acc) l a0).
  { induction l as [|i l IHl]; intros a0 Hl; simpl; [done|].
    rewrite lookup_total_app_l by (apply Hl; by left).
    apply IHl. intros i' Hi'. apply Hl. by right. }
  apply Hext. intros i Hi. apply elem_of_seq in Hi. lia.
Qed.

(** One iteration [k] of a loop over distinct keys: what holds before the
    loop and is kept by the other iterations holds when [k] runs, and what
    [k] establishes and the other iterations keep holds after the loop. *)
Lemma fold_left_split_inv (f : K -> A -> A) (Pre Post : A -> Prop)
  (l : list K) (k : K) (a : A) :
  NoDup l -> k ∈ l ->
  (forall k' a', k' ∈ l -> k' <> k -> Pre a' -> Pre (f k' a')) ->
  (forall a', Pre a' -> Post (f k a')) ->
  (forall k' a', k' ∈ l -> k' <> k -> Post a' -> Post (f k' a')) ->
  Pre a -> Post (fold_left (fun acc k' => f k' acc) l a).
Proof.
  intros Hnd Hk Hpre Hrun Hpost Ha.
  apply list_elem_of_split in Hk as (l1 & l2 & ->).
  apply NoDup_app in Hnd as (Hnd1 & Hnot1 & Hnd2).
  apply NoDup_cons in Hnd2 as (Hnot2 & _).
  rewrite fold_left_app. simpl.
  apply fold_left_preserves.
  - intros k' a' Hk' Ha'. apply Hpost; [| |done].
    + apply elem_of_app. right. by right.
    + intros ->. done.
  - apply Hrun. apply fold_left_preserves; [|done].
    intros k' a' Hk' Ha'. apply Hpre; [| |done].
    + apply elem_of_app. by left.
    + intros ->. apply (Hnot1 k); [done | by left].
Qed.

End Loops.

(** ** What the projections leave alone *)

Section Frames.

Context {Scalar : Type} `{ScalarOps Scalar} `{QuaternionMath Scalar}.

Lemma for_each_j_preserves {A : Type} (P : A -> Prop) (len : nat)
  (f : nat -> A -> A) (a : A) :
  (forall j a', j < len -> P a' -> P (f j a')) ->
  P a -> P (for_each_j len f a).
Proof.
  intros Hstep Ha. unfold for_each_j.
  apply (fold_left_preserves f P); [|done].
  intros j a' Hj. apply Hstep. apply elem_of_seq in Hj. lia.
Qed.

Lemma for_each_body_preserves {A : Type} (P : A -> Prop) (n : nat)
  (group : list nat) (f : nat -> A -> A) (a : A) :
  (forall body a', P a' -> P (f body a')) ->
  P a -> P (for_each_body n group f a).
Proof.
  intros Hstep Ha. unfold for_each_body.
  apply (fold_left_preserves (fun gi acc => f (getMemberIndex group gi) acc) P);
    [|done].
  intros gi a' _. apply Hstep.
Qed.

(** When the integrator is ready the loop over the group visits its
    members, in order. *)
Lemma for_each_body_members {A : Type} (group : list nat) (f : nat -> A -> A)
  (a : A) :
  for_each_body (length group) group f a
  = fold_left (fun acc body => f body acc) group a.
Proof. unfold for_each_body, getMemberIndex. apply fold_left_seq_lookup. Qed.

Lemma set_v_particle_erase (body j : nat) (a : State Scalar) :
  erase_velocities (set_v_particle body j a) = erase_velocities a.
Proof. reflexivity. Qed.

Lemma set_v_body_erase (body : nat) (a : State Scalar) :
  erase_velocities (set_v_body body a) = erase_velocities a.
Proof.
  unfold set_v_body.
  apply (for_each_j_preserves (fun a' => erase_velocities a' = erase_velocities a));
    [|done].
  intros j a' _ <-. apply set_v_particle_erase.
Qed.

Lemma set_v_erase (st : State Scalar) :
  erase_velocities (set_v st) = erase_velocities st.
Proof.
  unfold set_v.
  apply (for_each_body_preserves
           (fun a' => erase_velocities a' = erase_velocities st)); [|done].
  intros body a' <-. apply set_v_body_erase.
Qed.

(** *** The double loop of a projection as one loop over the constituents *)

Lemma elem_of_constituents (st : State Scalar) (body j : nat) :
  (body, j) ∈ constituents st <->
  body ∈ m_body_group st /\
  j < body_size (rconst (m_rigid_data st)) !!! body.
Proof.
  unfold constituents. rewrite list_elem_of_In, in_flat_map. split.
  - intros (b & Hb & Hin). apply in_map_iff in Hin as (j' & Heq & Hj').
    inversion Heq; subst. apply in_seq in Hj'.
    split; [by apply list_elem_of_In | lia].
  - intros (Hb & Hj). exists body. split; [by apply list_elem_of_In|].
    apply in_map_iff. exists j. split; [done|]. apply in_seq. lia.
Qed.

Lemma NoDup_constituents (st : State Scalar) :
  NoDup (m_body_group st) -> NoDup (constituents st).
Proof.
  unfold constituents. generalize (body_size (rconst (m_rigid_data st))).
  intros sizes. induction (m_body_group st) as [|b g IH]; intros Hnd; simpl.
  - constructor.
  - apply NoDup_cons in Hnd as (Hb & Hg). apply NoDup_app. split; [|split].
    + apply NoDup_fmap_2; [|apply NoDup_seq]. intros j1 j2 Heq. by inversion Heq.
    + intros k Hk1 Hk2. apply list_elem_of_In, in_map_iff in Hk1 as (j & <- & _).
      apply list_elem_of_In, in_flat_map in Hk2 as (b' & Hb' & Hin).
      apply in_map_iff in Hin as (j' & Heq & _). inversion Heq; subst.
      apply Hb. by apply list_elem_of_In.
    + by apply IH.
Qed.

Lemma projection_flatten_from (F : nat -> nat -> State Scalar -> State Scalar)
  (rc : RigidConst Scalar) (g : list nat) (a : State Scalar) :
  (forall body j a',
      rconst (m_rigid_data (F body j a')) = rconst (m_rigid_data a')) ->
  rconst (m_rigid_data a) = rc ->
  fold_left
    (fun acc body =>
       for_each_j (body_size (rconst (m_rigid_data acc)) !!! body) (F body) acc)
    g a
  = fold_left (fun acc k => F (fst k) (snd k) acc)
      (flat_map (fun body => map (pair body) (seq 0 (body_size rc !!! body))) g) a.
Proof.
  intros Hconst. revert a. induction g as [|b g IH]; intros a Hrc; simpl; [done|].
  rewrite fold_left_app, Hrc.
  assert (Hin : for_each_j (body_size rc !!! b) (F b) a
                = fold_left (fun acc k => F (fst k) (snd k) acc)
                    (map (pair b) (seq 0 (body_size rc !!! b))) a).
  { unfold for_each_j. generalize (seq 0 (body_size rc !!! b)) as l.
    intros l. clear Hrc. revert a. induction l as [|j l IHl]; intros a; simpl; [done|].
    apply IHl. }
  rewrite <- Hin. apply IH.
  apply (for_each_j_preserves (fun a' => rconst (m_rigid_data a') = rc)); [|done].
  intros j a' _ <-. apply Hconst.
Qed.

Lemma projection_flatten (F : nat -> nat -> State Scalar -> State Scalar)
  (st : State Scalar) :
  group_ready st ->
  (forall body j a,
      rconst (m_rigid_data (F body j a)) = rconst (m_rigid_data a)) ->
  for_each_body (m_n_bodies st) (m_body_group st)
    (fun body a =>
       for_each_j (body_size (rconst (m_rigid_data a)) !!! body) (F body) a) st
  = fold_left (fun acc k => F (fst k) (snd k) acc) (constituents st) st.
Proof.
  intros Hready Hconst. rewrite Hready, for_each_body_members.
  by apply projection_flatten_from.
Qed.

Lemma set_v_flatten (st : State Scalar) :
  group_ready st ->
  set_v st
  = fold_left (fun acc k => set_v_particle (fst k) (snd k) acc) (constituents st) st.
Proof. intros Hready. by apply (projection_flatten set_v_particle). Qed.

Lemma set_xv_flatten (st : State Scalar) :
  group_ready st ->
  set_xv st
  = fold_left (fun acc k => set_xv_particle (fst k) (snd k) acc) (constituents st) st.
Proof. intros Hready. by apply (projection_flatten set_xv_particle). Qed.

(** *** What [set_v] writes *)

Lemma set_v_particle_other (body j p : nat) (a : State Scalar) :
  pidx_of a body j <> p ->
  (forall ax, velocity ax (arrays (m_pdata (set_v_particle body j a))) !!! p
              = velocity ax (arrays (m_pdata a)) !!! p) /\
  net_virial (m_pdata (set_v_particle body j a)) !!! p
  = net_virial (m_pdata a) !!! p.
Proof.
  intros Hp. split.
  - intros []; simpl; by rewrite list_lookup_total_insert_ne.
  - simpl. by rewrite !list_lookup_total_insert_ne.
Qed.

Lemma set_v_particle_other_slot (body j q : nat) (a : State Scalar) :
  localidx_of a body j <> q ->
  particle_oldvel (cache (m_rigid_data (set_v_particle body j a))) !!! q
  = particle_oldvel (cache (m_rigid_data a)) !!! q.
Proof. intros Hq. simpl. by rewrite list_lookup_total_insert_ne. Qed.

Lemma pidx_of_rconst (a b : State Scalar) (body j : nat) :
  rconst (m_rigid_data a) = rconst (m_rigid_data b) ->
  pidx_of a body j = pidx_of b body j.
Proof. unfold pidx_of. by intros ->. Qed.

Lemma localidx_of_rconst (a b : State Scalar) (body j : nat) :
  rconst (m_rigid_data a) = rconst (m_rigid_data b) ->
  localidx_of a body j = localidx_of b body j.
Proof. unfold localidx_of. by intros ->. Qed.

(** C10.  The velocity-only projection [set_v] writes the velocity arrays
    of the particles, the cached old velocities and the net virial, and
    nothing else: positions, image counters and orientations of all
    particles and every per-body array are as before.  When the integrator
    is ready, the entries of a particle that is not a constituent of a body
    of the group, and the cache slots of no constituent, are as before
    too. *)
Theorem set_v_writes_only_velocities (st : State Scalar) :
  let st' := set_v st in
  erase_velocities st' = erase_velocities st /\
  (forall ax,
      position ax (arrays (m_pdata st')) = position ax (arrays (m_pdata st)) /\
      image ax (arrays (m_pdata st')) = image ax (arrays (m_pdata st))) /\
  pd_orientation (m_pdata st') = pd_orientation (m_pdata st) /\
  bodies (m_rigid_data st') = bodies (m_rigid_data st) /\
  (group_ready st ->
   (forall p,
       (forall k, k ∈ constituents st -> pidx_of st (fst k) (snd k) <> p) ->
       (forall ax, velocity ax (arrays (m_pdata st')) !!! p
                   = velocity ax (arrays (m_pdata st)) !!! p) /\
       net_virial (m_pdata st') !!! p = net_virial (m_pdata st) !!! p) /\
   (forall q,
       (forall k, k ∈ constituents st -> localidx_of st (fst k) (snd k) <> q) ->
       particle_oldvel (cache (m_rigid_data st')) !!! q
       = particle_oldvel (cache (m_rigid_data st)) !!! q)).
Proof.
  intros st'. pose proof (set_v_erase st) as He. fold st' in He.
  split; [exact He|]. split; [|split; [|split]].
  - intros []; split;
      [ exact (f_equal (fun s => x (arrays (m_pdata s))) He)
      | exact (f_equal (fun s => ix (arrays (m_pdata s))) He)
      | exact (f_equal (fun s => y (arrays (m_pdata s))) He)
      | exact (f_equal (fun s => iy (arrays (m_pdata s))) He)
      | exact (f_equal (fun s => z (arrays (m_pdata s))) He)
      | exact (f_equal (fun s => iz (arrays (m_pdata s))) He) ].
  - exact (f_equal (fun s => pd_orientation (m_pdata s)) He).
  - exact (f_equal (fun s => bodies (m_rigid_data s)) He).
  - intros Hready. subst st'. rewrite (set_v_flatten st Hready). split.
    + intros p Hp.
      apply (fold_left_preserves
               (fun k acc => set_v_particle (fst k) (snd k) acc)
               (fun a =>
                  rconst (m_rigid_data a) = rconst (m_rigid_data st) /\
                  (forall ax, velocity ax (arrays (m_pdata a)) !!! p
                              = velocity ax (arrays (m_pdata st)) !!! p) /\
                  net_virial (m_pdata a) !!! p = net_virial (m_pdata st) !!! p));
        [|done].
      intros k a Hk (Hrc & Hv & Hnv).
      assert (Hne : pidx_of a (fst k) (snd k) <> p).
      { rewrite (pidx_of_rconst a st) by done. by apply Hp. }
      destruct (set_v_particle_other (fst k) (snd k) p a Hne) as (Hv' & Hnv').
      split; [done|]. split.
      * intros ax. by rewrite Hv'.
      * by rewrite Hnv'.
    + intros q Hq.
      apply (fold_left_preserves
               (fun k acc => set_v_particle (fst k) (snd k) acc)
               (fun a =>
                  rconst (m_rigid_data a) = rconst (m_rigid_data st) /\
                  particle_oldvel (cache (m_rigid_data a)) !!! q
                  = particle_oldvel (cache (m_rigid_data st)) !!! q));
        [|done].
      intros k a Hk (Hrc & Hv).
      split; [done|].
      rewrite set_v_particle_other_slot; [done|].
      rewrite (localidx_of_rconst a st) by done. by apply Hq.
Qed.

(** *** What [set_xv] writes *)

Lemma set_xv_erase (st : State Scalar) :
  erase_projection (set_xv st) = erase_projection st.
Proof.
  unfold set_xv.
  apply (for_each_body_preserves
           (fun a' => erase_projection a' = erase_projection st)); [|done].
  intros body a' <-. unfold set_xv_body.
  apply (for_each_j_preserves
           (fun a'' => erase_projection a'' = erase_projection a')); [|done].
  by intros j a'' _ <-.
Qed.

Lemma set_xv_bodies (st : State Scalar) :
  bodies (m_rigid_data (set_xv st)) = bodies (m_rigid_data st).
Proof. exact (f_equal (fun s => bodies (m_rigid_data s)) (set_xv_erase st)). Qed.

Lemma set_xv_net_virial (st : State Scalar) :
  net_virial (m_pdata (set_xv st)) = net_virial (m_pdata st).
Proof. exact (f_equal (fun s => net_virial (m_pdata s)) (set_xv_erase st)). Qed.

(** *** What [integrateStepTwo] writes *)

Lemma force_accumulate_body_erase (rc : RigidConst Scalar)
  (nf nt : list (Scalar4 Scalar)) (body : nat) (b : RigidBodies Scalar) :
  erase_momenta (force_accumulate_body rc nf nt body b) = erase_momenta b.
Proof.
  unfold force_accumulate_body.
  apply (for_each_j_preserves (fun b' => erase_momenta b' = erase_momenta b));
    [|done].
  by intros j b' _ <-.
Qed.

Lemma computeForceAndTorque_erase (st : State Scalar) :
  erase_step_two (computeForceAndTorque st) = erase_step_two st.
Proof.
  unfold computeForceAndTorque, erase_step_two, with_bodies. simpl. f_equal. f_equal.
  set (b1 := for_each_body _ _ force_reset_body _).
  assert (H1 : erase_momenta b1 = erase_momenta (bodies (m_rigid_data st))).
  { apply (for_each_body_preserves
             (fun b' => erase_momenta b' = erase_momenta (bodies (m_rigid_data st))));
      [|done].
    by intros body b' <-. }
  rewrite <- H1.
  apply (for_each_body_preserves (fun b' => erase_momenta b' = erase_momenta b1));
    [|done].
  intros body b' <-. apply force_accumulate_body_erase.
Qed.

Lemma integrateStepTwo_loop_erase (rc : RigidConst Scalar) (deltaT : Scalar)
  (n : nat) (group : list nat) (b : RigidBodies Scalar) :
  erase_momenta (for_each_body n group (integrateStepTwo_body rc deltaT) b)
  = erase_momenta b.
Proof.
  apply (for_each_body_preserves (fun b' => erase_momenta b' = erase_momenta b));
    [|done].
  by intros body b' <-.
Qed.

Lemma erase_step_two_velocities (a b : State Scalar) :
  erase_velocities a = erase_velocities b -> erase_step_two a = erase_step_two b.
Proof. unfold erase_step_two. by intros ->. Qed.

Lemma integrateStepTwo_erase (st : State Scalar) :
  erase_step_two (integrateStepTwo st) = erase_step_two st.
Proof.
  unfold integrateStepTwo. destruct (m_n_bodies st <=? 0)%nat; [done|].
  rewrite (erase_step_two_velocities _ _ (set_v_erase _)).
  rewrite <- (computeForceAndTorque_erase st).
  set (st1 := computeForceAndTorque st).
  unfold erase_step_two, with_bodies. simpl.
  by rewrite integrateStepTwo_loop_erase.
Qed.

(** C5, as the code has it.  [integrateStepTwo] leaves alone the centre of
    mass, the orientation, the basis vectors and the image counters of
    every body, and the position, the image counters and the orientation of
    every particle.  It writes force, torque, velocity, angular momentum
    and angular velocity of the bodies, the velocities of the particles,
    their cached copies and the net virial, and nothing else. *)
Theorem integrateStepTwo_frame (st : State Scalar) :
  let st' := integrateStepTwo st in
  let b := bodies (m_rigid_data st) in
  let b' := bodies (m_rigid_data st') in
  (com b' = com b /\ orientation b' = orientation b /\
   ex_space b' = ex_space b /\ ey_space b' = ey_space b /\
   ez_space b' = ez_space b /\
   forall ax, body_image ax b' = body_image ax b) /\
  ((forall ax,
       position ax (arrays (m_pdata st')) = position ax (arrays (m_pdata st)) /\
       image ax (arrays (m_pdata st')) = image ax (arrays (m_pdata st))) /\
   pd_orientation (m_pdata st') = pd_orientation (m_pdata st)) /\
  erase_step_two st' = erase_step_two st.
Proof.
  intros st' b b'. pose proof (integrateStepTwo_erase st) as He. fold st' in He.
  split; [|split; [split|exact He]].
  - subst b b'. repeat split;
      [ exact (f_equal (fun s => com (bodies (m_rigid_data s))) He)
      | exact (f_equal (fun s => orientation (bodies (m_rigid_data s))) He)
      | exact (f_equal (fun s => ex_space (bodies (m_rigid_data s))) He)
      | exact (f_equal (fun s => ey_space (bodies (m_rigid_data s))) He)
      | exact (f_equal (fun s => ez_space (bodies (m_rigid_data s))) He)
      | ].
    intros [];
      [ exact (f_equal (fun s => body_imagex (bodies (m_rigid_data s))) He)
      | exact (f_equal (fun s => body_imagey (bodies (m_rigid_data s))) He)
      | exact (f_equal (fun s => body_imagez (bodies (m_rigid_data s))) He) ].
  - intros []; split;
      [ exact (f_equal (fun s => x (arrays (m_pdata s))) He)
      | exact (f_equal (fun s => ix (arrays (m_pdata s))) He)
      | exact (f_equal (fun s => y (arrays (m_pdata s))) He)
      | exact (f_equal (fun s => iy (arrays (m_pdata s))) He)
      | exact (f_equal (fun s => z (arrays (m_pdata s))) He)
      | exact (f_equal (fun s => iz (arrays (m_pdata s))) He) ].
  - exact (f_equal (fun s => pd_orientation (m_pdata s)) He).
Qed.

(** *** An empty body group *)

(** C7.  With no body in the group, and [m_n_bodies] as [setup] leaves it
    once the first step is over, [integrateStepOne] returns with the rigid
    data and the particle data as they were, and so does
    [integrateStepTwo], alone or after it. *)
Theorem empty_group_no_op (st : State Scalar) :
  m_body_group st = [] ->
  protocol st ->
  (m_rigid_data (integrateStepOne st) = m_rigid_data st /\
   m_pdata (integrateStepOne st) = m_pdata st) /\
  (m_first_step st = false -> integrateStepTwo st = st) /\
  (m_rigid_data (integrateStepTwo (integrateStepOne st)) = m_rigid_data st /\
   m_pdata (integrateStepTwo (integrateStepOne st)) = m_pdata st).
Proof.
  intros Hg Hp.
  assert (Hone : m_rigid_data (integrateStepOne st) = m_rigid_data st /\
                 m_pdata (integrateStepOne st) = m_pdata st /\
                 m_n_bodies (integrateStepOne st) = 0).
  { unfold integrateStepOne. destruct (m_first_step st) eqn:Hfs.
    - unfold setup. rewrite Hg. simpl. done.
    - specialize (Hp Hfs). unfold group_ready in Hp. rewrite Hg in Hp.
      simpl in Hp. rewrite Hp. simpl. done. }
  destruct Hone as (Hrd & Hpd & Hn).
  split; [done|]. split.
  - intros Hfs. specialize (Hp Hfs). unfold group_ready in Hp.
    rewrite Hg in Hp. simpl in Hp. unfold integrateStepTwo. by rewrite Hp.
  - unfold integrateStepTwo. rewrite Hn. simpl. done.
Qed.

(** *** Degrees of freedom *)

Section DegreesOfFreedomProofs.

Variable groupIntersection : list nat -> list nat -> list nat.
Variable RigidBodyGroup : list nat -> list nat.

Lemma dof_one_3d (moment : Scalar4 Scalar) :
  dof_one 3 moment = (6 - zero_moments moment)%Z.
Proof.
  unfold dof_one, zero_moments. simpl.
  by destruct (x4 moment =? s_zero)%S, (y4 moment =? s_zero)%S,
       (z4 moment =? s_zero)%S.
Qed.

Lemma dof_one_2d (moment : Scalar4 Scalar) :
  dof_one 2 moment
  = (3 - (if (z4 moment =? s_zero)%S then 1 else 0))%Z.
Proof. unfold dof_one. simpl. by destruct (z4 moment =? s_zero)%S. Qed.

Lemma dof_one_bounds (dimension : nat) (moment : Scalar4 Scalar) :
  (0 <= dof_one dimension moment <= 6)%Z.
Proof.
  unfold dof_one.
  destruct (dimension =? 3)%nat, (x4 moment =? s_zero)%S,
    (y4 moment =? s_zero)%S, (z4 moment =? s_zero)%S; vm_compute; split; congruence.
Qed.

Lemma sum_over_ext (f g : nat -> Z) (l : list nat) :
  (forall body, f body = g body) -> sum_over f l = sum_over g l.
Proof. intros Hfg. induction l as [|b l IH]; simpl; [done|]. by rewrite Hfg, IH. Qed.

(** The counting loop does not wrap as long as six times the number of
    counted bodies fits an [unsigned int]. *)
Lemma count_loop_sum (group : list nat) (d : nat -> Z) (l : list nat) (acc : Z) :
  (forall body, 0 <= d body <= 6)%Z ->
  (0 <= acc)%Z ->
  (acc + 6 * Z.of_nat (length (filter (fun body => body ∈ group) l)) < 2 ^ 32)%Z ->
  fold_left
    (fun query_group_dof body =>
       if isMember group body then wrap_uint (query_group_dof + d body)
       else query_group_dof) l acc
  = (acc + sum_over d (filter (fun body => body ∈ group) l))%Z.
Proof.
  intros Hd. revert acc. induction l as [|body l IH]; intros acc Hacc Hlt; simpl.
  - lia.
  - unfold isMember. rewrite filter_cons in *.
    destruct (decide (body ∈ group)) as [Hin|Hin].
    + rewrite bool_decide_eq_true_2 by done. simpl in Hlt. simpl sum_over.
      pose proof (Hd body) as Hb.
      assert (Hw : wrap_uint (acc + d body) = (acc + d body)%Z).
      { unfold wrap_uint. apply Z.mod_small. lia. }
      rewrite Hw, IH; lia.
    + rewrite bool_decide_eq_false_2 by done. by apply IH.
Qed.

(** C6.  [getNDOF] returns the sum over the qualifying bodies of six minus
    the number of zero principal moments in three dimensions, and of three
    minus one when the [z] moment is zero in two dimensions; the state is
    as before.  The count is an [unsigned int]: six times the number of
    qualifying bodies is taken to fit it. *)
Theorem getNDOF_counts (st : State Scalar) (query_group : list nat) :
  let q := qualifying_bodies groupIntersection RigidBodyGroup st query_group in
  let moments := moment_inertia (rconst (m_rigid_data st)) in
  let r := getNDOF groupIntersection RigidBodyGroup st query_group in
  (6 * Z.of_nat (length q) < 2 ^ 32)%Z ->
  fst r = st /\
  (n_dimensions st = 3 ->
   snd r = sum_over (fun body => 6 - zero_moments (moments !!! body))%Z q) /\
  (n_dimensions st = 2 ->
   snd r = sum_over
             (fun body =>
                3 - (if (z4 (moments !!! body) =? s_zero)%S then 1 else 0))%Z q).
Proof.
  intros q moments r Hfit. split; [done|].
  assert (Hsum : snd r
                 = sum_over (fun body => dof_one (n_dimensions st) (moments !!! body)) q).
  { subst r. unfold getNDOF. simpl. unfold getMemberIndex.
    rewrite (fold_left_seq_lookup
               (RigidBodyGroup (groupIntersection (m_group st) query_group))
               (fun body acc =>
                  if isMember (m_body_group st) body
                  then wrap_uint (acc + dof_one (n_dimensions st)
                                          (moment_inertia (rconst (m_rigid_data st))
                                             !!! body))
                  else acc)).
    rewrite count_loop_sum; [done| |done|done].
    intros body. apply dof_one_bounds. }
  rewrite Hsum. split; intros ->; apply sum_over_ext; intros body.
  - apply dof_one_3d.
  - apply dof_one_2d.
Qed.

End DegreesOfFreedomProofs.

(** *** setup and the angular momentum *)

Lemma set_v_bodies (st : State Scalar) :
  bodies (m_rigid_data (set_v st)) = bodies (m_rigid_data st).
Proof. exact (f_equal (fun s => bodies (m_rigid_data s)) (set_v_erase st)). Qed.

(** The per-body arrays when [setup] returns. *)
Lemma setup_bodies (st : State Scalar) :
  m_body_group st <> [] ->
  bodies (m_rigid_data (setup st))
  = let rc := rconst (m_rigid_data st) in
    let group := m_body_group st in
    fold_left (fun b body => setup_finalize_body rc body b) group
      (fold_left
         (fun b body =>
            setup_accumulate_body rc (arrays (m_pdata st)) (net_force (m_pdata st))
                                  body b) group
         (fold_left (fun b body => setup_reset_body rc body b) group
                    (bodies (m_rigid_data st)))).
Proof.
  intros Hne.
  assert (Hn : (length (m_body_group st) <=? 0)%nat = false).
  { by destruct (m_body_group st). }
  unfold setup. rewrite Hn, set_v_bodies. cbn [bodies m_rigid_data].
  by rewrite !for_each_body_members.
Qed.

Lemma setup_reset_body_angmom_init (rc : RigidConst Scalar) (body' body : nat)
  (b : RigidBodies Scalar) :
  angmom_init rc !!! body = true ->
  angmom (setup_reset_body rc body' b) !!! body = angmom b !!! body.
Proof.
  intros Hinit. simpl. destruct (decide (body' = body)) as [->|Hne].
  - by rewrite Hinit.
  - destruct (angmom_init rc !!! body'); [done|].
    by rewrite list_lookup_total_insert_ne.
Qed.

Lemma setup_accumulate_particle_angmom_init (rc : RigidConst Scalar)
  (arr : ParticleDataArrays Scalar) (nf : list (Scalar4 Scalar))
  (body' j body : nat) (b : RigidBodies Scalar) :
  angmom_init rc !!! body = true ->
  angmom (setup_accumulate_particle rc arr nf body' j b) !!! body
  = angmom b !!! body.
Proof.
  intros Hinit. simpl. destruct (decide (body' = body)) as [->|Hne].
  - by rewrite Hinit.
  - destruct (angmom_init rc !!! body'); [done|].
    by rewrite list_lookup_total_insert_ne.
Qed.

Lemma setup_keeps_initialised_angmom (st : State Scalar) (body : nat) :
  angmom_init (rconst (m_rigid_data st)) !!! body = true ->
  angmom (bodies (m_rigid_data (setup st))) !!! body
  = angmom (bodies (m_rigid_data st)) !!! body.
Proof.
  intros Hinit. destruct (decide (m_body_group st = [])) as [Hg|Hg].
  - unfold setup. by rewrite Hg.
  - rewrite setup_bodies by done. cbv zeta.
    set (P := fun b : RigidBodies Scalar =>
                angmom b !!! body = angmom (bodies (m_rigid_data st)) !!! body).
    apply (fold_left_preserves
             (setup_finalize_body (rconst (m_rigid_data st))) P).
    { by intros body' b _ Hb. }
    apply (fold_left_preserves
             (setup_accumulate_body (rconst (m_rigid_data st))
                (arrays (m_pdata st)) (net_force (m_pdata st))) P).
    { intros body' b _ Hb. unfold setup_accumulate_body.
      apply (for_each_j_preserves P); [|done].
      intros j b' _ Hb'. unfold P.
      by rewrite setup_accumulate_particle_angmom_init. }
    apply (fold_left_preserves (setup_reset_body (rconst (m_rigid_data st))) P);
      [|done].
    intros body' b _ Hb. unfold P. by rewrite setup_reset_body_angmom_init.
Qed.

Lemma setup_accumulate_angmom (st : State Scalar) (body : nat) (l : list nat)
  (b : RigidBodies Scalar) :
  angmom_init (rconst (m_rigid_data st)) !!! body = false ->
  ex_space b = ex_space (bodies (m_rigid_data st)) ->
  ey_space b = ey_space (bodies (m_rigid_data st)) ->
  ez_space b = ez_space (bodies (m_rigid_data st)) ->
  body < length (angmom b) ->
  let b' := fold_left
              (fun acc j =>
                 setup_accumulate_particle (rconst (m_rigid_data st))
                   (arrays (m_pdata st)) (net_force (m_pdata st)) body j acc) l b in
  let S := fold_left (fun acc j => angmom_term st body j acc) l
                     (xyz_of (angmom b !!! body)) in
  angmom b' !!! body
  = make_scalar4 (x3 S) (y3 S) (z3 S) (w4 (angmom b !!! body)) /\
  ex_space b' = ex_space b /\ ey_space b' = ey_space b /\
  ez_space b' = ez_space b /\ length (angmom b') = length (angmom b).
Proof.
  intros Hinit. revert b. induction l as [|j l IH]; intros b Hex Hey Hez Hlt.
  - simpl. by destruct (angmom b !!! body).
  - cbn [fold_left].
    set (b1 := setup_accumulate_particle _ _ _ body j b).
    assert (H1 : angmom b1 !!! body
                 = make_scalar4
                     (x3 (angmom_term st body j (xyz_of (angmom b !!! body))))
                     (y3 (angmom_term st body j (xyz_of (angmom b !!! body))))
                     (z3 (angmom_term st body j (xyz_of (angmom b !!! body))))
                     (w4 (angmom b !!! body))).
    { subst b1. cbn [angmom setup_accumulate_particle]. rewrite Hinit.
      rewrite list_lookup_total_insert_eq by done.
      unfold angmom_term, offset_of, pidx_of, localidx_of, set_xyz.
      by rewrite Hex, Hey, Hez. }
    assert (Hl1 : length (angmom b1) = length (angmom b)).
    { subst b1. cbn [angmom setup_accumulate_particle]. rewrite Hinit.
      apply length_insert. }
    destruct (IH b1) as (Ha & Hex' & Hey' & Hez' & Hlen); try done.
    { by rewrite Hl1. }
    rewrite Ha, H1. cbn [w4 xyz_of x4 y4 z4].
    repeat split; try done.
    by rewrite Hlen.
Qed.

Lemma setup_reset_body_other (rc : RigidConst Scalar) (body' body : nat)
  (b : RigidBodies Scalar) :
  body' <> body ->
  angmom (setup_reset_body rc body' b) !!! body = angmom b !!! body /\
  vel (setup_reset_body rc body' b) !!! body = vel b !!! body /\
  force (setup_reset_body rc body' b) !!! body = force b !!! body /\
  torque (setup_reset_body rc body' b) !!! body = torque b !!! body.
Proof.
  intros Hne. cbn [angmom vel force torque setup_reset_body].
  rewrite !list_lookup_total_insert_ne by done.
  destruct (angmom_init rc !!! body'); [done|].
  by rewrite list_lookup_total_insert_ne.
Qed.

Lemma setup_reset_body_length (rc : RigidConst Scalar) (body' : nat)
  (b : RigidBodies Scalar) :
  length (angmom (setup_reset_body rc body' b)) = length (angmom b) /\
  length (vel (setup_reset_body rc body' b)) = length (vel b) /\
  length (force (setup_reset_body rc body' b)) = length (force b) /\
  length (torque (setup_reset_body rc body' b)) = length (torque b).
Proof.
  cbn [angmom vel force torque setup_reset_body].
  rewrite !length_insert.
  destruct (angmom_init rc !!! body'); [done|]. by rewrite length_insert.
Qed.

Lemma setup_accumulate_body_other (rc : RigidConst Scalar)
  (arr : ParticleDataArrays Scalar) (nf : list (Scalar4 Scalar))
  (body' body : nat) (b : RigidBodies Scalar) :
  body' <> body ->
  let b' := setup_accumulate_body rc arr nf body' b in
  angmom b' !!! body = angmom b !!! body /\
  length (angmom b') = length (angmom b) /\
  ex_space b' = ex_space b /\ ey_space b' = ey_space b /\
  ez_space b' = ez_space b.
Proof.
  intros Hne b'. subst b'. unfold setup_accumulate_body.
  apply (for_each_j_preserves
           (fun b' =>
              angmom b' !!! body = angmom b !!! body /\
              length (angmom b') = length (angmom b) /\
              ex_space b' = ex_space b /\ ey_space b' = ey_space b /\
              ez_space b' = ez_space b)); [|done].
  intros j b' _ (Ha & Hl & Hex & Hey & Hez).
  cbn [angmom ex_space ey_space ez_space setup_accumulate_particle].
  repeat split; try done.
  - destruct (angmom_init rc !!! body'); [done|].
    by rewrite list_lookup_total_insert_ne.
  - destruct (angmom_init rc !!! body'); [done|]. by rewrite length_insert.
Qed.

Lemma setup_zeroes_and_accumulates (st : State Scalar) (body : nat) :
  NoDup (m_body_group st) ->
  body ∈ m_body_group st ->
  angmom_init (rconst (m_rigid_data st)) !!! body = false ->
  body < length (angmom (bodies (m_rigid_data st))) ->
  angmom (bodies (m_rigid_data (setup st))) !!! body
  = set_xyz (angmom (bodies (m_rigid_data st)) !!! body)
      (x3 (angmom_sum st body)) (y3 (angmom_sum st body))
      (z3 (angmom_sum st body)).
Proof.
  intros Hnd Hin Hinit Hlt.
  assert (Hne : m_body_group st <> []).
  { intros Hg. rewrite Hg in Hin. by apply elem_of_nil in Hin. }
  rewrite setup_bodies by done. cbv zeta.
  set (rc := rconst (m_rigid_data st)).
  set (b0 := bodies (m_rigid_data st)).
  set (l0 := angmom b0 !!! body).
  set (Frame := fun b : RigidBodies Scalar =>
                  ex_space b = ex_space b0 /\ ey_space b = ey_space b0 /\
                  ez_space b = ez_space b0 /\
                  length (angmom b) = length (angmom b0)).
  set (Zeroed := fun b : RigidBodies Scalar =>
                   Frame b /\ angmom b !!! body = set_xyz l0 s_zero s_zero s_zero).
  set (Summed := fun b : RigidBodies Scalar =>
                   angmom b !!! body
                   = set_xyz l0 (x3 (angmom_sum st body)) (y3 (angmom_sum st body))
                             (z3 (angmom_sum st body))).
  (* third loop *)
  apply (fold_left_preserves (setup_finalize_body rc) Summed).
  { by intros body' b _ Hb. }
  (* second loop *)
  apply (fold_left_split_inv
           (setup_accumulate_body rc (arrays (m_pdata st)) (net_force (m_pdata st)))
           Zeroed Summed (m_body_group st) body); try done.
  - intros body' b _ Hne' ((Hex & Hey & Hez & Hl) & Ha).
    destruct (setup_accumulate_body_other rc (arrays (m_pdata st))
                (net_force (m_pdata st)) body' body b Hne')
      as (Ha' & Hl' & Hex' & Hey' & Hez').
    unfold Zeroed, Frame. rewrite Ha', Hl', Hex', Hey', Hez'. done.
  - intros b ((Hex & Hey & Hez & Hl) & Ha).
    unfold Summed, setup_accumulate_body, for_each_j.
    destruct (setup_accumulate_angmom st body
                (seq 0 (body_size rc !!! body)) b) as (Hsum & _); try done.
    { by rewrite Hl. }
    fold rc in Hsum. rewrite Hsum, Ha. done.
  - intros body' b _ Hne' Hb.
    destruct (setup_accumulate_body_other rc (arrays (m_pdata st))
                (net_force (m_pdata st)) body' body b Hne') as (Ha' & _).
    unfold Summed. by rewrite Ha'.
  - (* first loop *)
    apply (fold_left_split_inv (setup_reset_body rc)
             (fun b => Frame b /\ angmom b !!! body = l0)
             Zeroed (m_body_group st) body); try done.
    + intros body' b _ Hne' ((Hex & Hey & Hez & Hl) & Ha).
      destruct (setup_reset_body_other rc body' body b Hne') as (Ha' & _).
      destruct (setup_reset_body_length rc body' b) as (Hl' & _).
      unfold Frame. rewrite Ha', Hl'. done.
    + intros b ((Hex & Hey & Hez & Hl) & Ha).
      destruct (setup_reset_body_length rc body b) as (Hl' & _).
      unfold Zeroed, Frame. rewrite Hl'. repeat split; try done.
      cbn [angmom setup_reset_body]. fold rc in Hinit. rewrite Hinit.
      rewrite list_lookup_total_insert_eq by (by rewrite Hl). by rewrite Ha.
    + intros body' b _ Hne' ((Hex & Hey & Hez & Hl) & Ha).
      destruct (setup_reset_body_other rc body' body b Hne') as (Ha' & _).
      destruct (setup_reset_body_length rc body' b) as (Hl' & _).
      unfold Zeroed, Frame. rewrite Ha', Hl'. done.
Qed.

(** *** What [setup] keeps *)

Lemma setup_reset_body_lengths (rc : RigidConst Scalar) (body : nat)
  (b : RigidBodies Scalar) :
  body_lengths (setup_reset_body rc body b) = body_lengths b.
Proof.
  unfold body_lengths.
  cbn [com vel angmom angvel orientation ex_space ey_space ez_space force torque
       body_imagex body_imagey body_imagez setup_reset_body].
  rewrite !length_insert.
  destruct (angmom_init rc !!! body); [done|]. by rewrite length_insert.
Qed.

Lemma setup_accumulate_particle_lengths (rc : RigidConst Scalar)
  (arr : ParticleDataArrays Scalar) (nf : list (Scalar4 Scalar)) (body j : nat)
  (b : RigidBodies Scalar) :
  body_lengths (setup_accumulate_particle rc arr nf body j b) = body_lengths b.
Proof.
  unfold body_lengths.
  cbn [com vel angmom angvel orientation ex_space ey_space ez_space force torque
       body_imagex body_imagey body_imagez setup_accumulate_particle].
  rewrite !length_insert.
  destruct (angmom_init rc !!! body); [done|]. by rewrite length_insert.
Qed.

Lemma setup_finalize_body_lengths (rc : RigidConst Scalar) (body : nat)
  (b : RigidBodies Scalar) :
  body_lengths (setup_finalize_body rc body b) = body_lengths b.
Proof.
  unfold body_lengths.
  cbn [com vel angmom angvel orientation ex_space ey_space ez_space force torque
       body_imagex body_imagey body_imagez setup_finalize_body].
  by rewrite !length_insert.
Qed.

Lemma setup_lengths (st : State Scalar) :
  body_lengths (bodies (m_rigid_data (setup st)))
  = body_lengths (bodies (m_rigid_data st)).
Proof.
  destruct (decide (m_body_group st = [])) as [Hg|Hg].
  - unfold setup. by rewrite Hg.
  - rewrite setup_bodies by done. cbv zeta.
    set (P := fun b : RigidBodies Scalar =>
                body_lengths b = body_lengths (bodies (m_rigid_data st))).
    apply (fold_left_preserves (setup_finalize_body (rconst (m_rigid_data st))) P).
    { intros body b _ Hb. unfold P in *.
      by rewrite setup_finalize_body_lengths. }
    apply (fold_left_preserves
             (setup_accumulate_body (rconst (m_rigid_data st))
                (arrays (m_pdata st)) (net_force (m_pdata st))) P).
    { intros body b _ Hb. unfold setup_accumulate_body.
      apply (for_each_j_preserves P); [|done].
      intros j b' _ Hb'. unfold P in *.
      by rewrite setup_accumulate_particle_lengths. }
    apply (fold_left_preserves (setup_reset_body (rconst (m_rigid_data st))) P);
      [|done].
    intros body b _ Hb. unfold P in *. by rewrite setup_reset_body_lengths.
Qed.

Lemma setup_frame (st : State Scalar) :
  rconst (m_rigid_data (setup st)) = rconst (m_rigid_data st) /\
  box (m_pdata (setup st)) = box (m_pdata st) /\
  m_deltaT (setup st) = m_deltaT st /\
  m_body_group (setup st) = m_body_group st /\
  m_first_step (setup st) = m_first_step st /\
  m_n_bodies (setup st) = length (m_body_group st) /\
  erase_momenta (bodies (m_rigid_data (setup st)))
  = erase_momenta (bodies (m_rigid_data st)).
Proof.
  destruct (decide (m_body_group st = [])) as [Hg|Hg].
  - unfold setup. rewrite Hg. simpl. done.
  - rewrite setup_bodies by done.
    assert (Hn : (length (m_body_group st) <=? 0)%nat = false).
    { by destruct (m_body_group st). }
    unfold setup. rewrite Hn.
    set (s := make_state _ _ _ _ _ _ _ _ _ _).
    pose proof (set_v_erase s) as He.
    repeat split;
      [ exact (f_equal (fun a => rconst (m_rigid_data a)) He)
      | exact (f_equal (fun a => box (m_pdata a)) He)
      | exact (f_equal (fun a => m_deltaT a) He)
      | exact (f_equal (fun a => m_body_group a) He)
      | exact (f_equal (fun a => m_first_step a) He)
      | exact (f_equal (fun a => m_n_bodies a) He)
      | ].
    cbv zeta.
    set (P := fun b : RigidBodies Scalar =>
                erase_momenta b = erase_momenta (bodies (m_rigid_data st))).
    apply (fold_left_preserves (setup_finalize_body (rconst (m_rigid_data st))) P).
    { intros body b _ Hb. unfold P in *. by rewrite <- Hb. }
    apply (fold_left_preserves
             (setup_accumulate_body (rconst (m_rigid_data st))
                (arrays (m_pdata st)) (net_force (m_pdata st))) P).
    { intros body b _ Hb. unfold setup_accumulate_body.
      apply (for_each_j_preserves P); [|done].
      intros j b' _ Hb'. unfold P in *. by rewrite <- Hb'. }
    apply (fold_left_preserves (setup_reset_body (rconst (m_rigid_data st))) P);
      [|done].
    intros body b _ Hb. unfold P in *. by rewrite <- Hb.
Qed.

(** *** integrateStepOne and the periodic box *)

Lemma prepared_frame (st : State Scalar) :
  protocol st ->
  let st1 := prepared st in
  rconst (m_rigid_data st1) = rconst (m_rigid_data st) /\
  box (m_pdata st1) = box (m_pdata st) /\
  m_deltaT st1 = m_deltaT st /\
  m_body_group st1 = m_body_group st /\
  m_n_bodies st1 = length (m_body_group st) /\
  erase_momenta (bodies (m_rigid_data st1))
  = erase_momenta (bodies (m_rigid_data st)) /\
  body_lengths (bodies (m_rigid_data st1))
  = body_lengths (bodies (m_rigid_data st)).
Proof.
  intros Hp st1. subst st1. unfold prepared.
  destruct (m_first_step st) eqn:Hfs.
  - destruct (setup_frame st) as (H1 & H2 & H3 & H4 & _ & H5 & H6).
    pose proof (setup_lengths st). done.
  - specialize (Hp Hfs). done.
Qed.

Lemma integrateStepOne_bodies (st : State Scalar) :
  protocol st ->
  m_body_group st <> [] ->
  let st1 := prepared st in
  bodies (m_rigid_data (integrateStepOne st))
  = fold_left
      (fun b body =>
         integrateStepOne_body (rconst (m_rigid_data st)) (box (m_pdata st))
                               (m_deltaT st) body b)
      (m_body_group st) (bodies (m_rigid_data st1)).
Proof.
  intros Hp Hne st1.
  destruct (prepared_frame st Hp) as (Hrc & Hbox & Hdt & Hg & Hn & _ & _).
  fold st1 in Hrc, Hbox, Hdt, Hg, Hn.
  unfold integrateStepOne. fold (prepared st). fold st1.
  assert (Hpos : (m_n_bodies st1 <=? 0)%nat = false).
  { rewrite Hn. by destruct (m_body_group st). }
  rewrite Hpos, set_xv_bodies. cbn [with_bodies bodies m_rigid_data].
  by rewrite Hn, Hg, for_each_body_members, Hrc, Hbox, Hdt.
Qed.

Lemma integrateStepOne_body_lengths (rc : RigidConst Scalar) (bx : BoxDim Scalar)
  (deltaT : Scalar) (body : nat) (b : RigidBodies Scalar) :
  com_lengths (integrateStepOne_body rc bx deltaT body b) = com_lengths b.
Proof.
  unfold com_lengths. cbn [com vel body_imagex body_imagey body_imagez
                           integrateStepOne_body].
  by rewrite !length_insert.
Qed.

Lemma integrateStepOne_body_other (rc : RigidConst Scalar) (bx : BoxDim Scalar)
  (deltaT : Scalar) (body' body : nat) (b : RigidBodies Scalar) :
  body' <> body ->
  let b' := integrateStepOne_body rc bx deltaT body' b in
  com b' !!! body = com b !!! body /\
  vel b' !!! body = vel b !!! body /\
  forall ax, body_image ax b' !!! body = body_image ax b !!! body.
Proof.
  intros Hne b'. subst b'. repeat split.
  - cbn [com integrateStepOne_body]. by rewrite list_lookup_total_insert_ne.
  - cbn [vel integrateStepOne_body]. by rewrite list_lookup_total_insert_ne.
  - intros []; cbn [body_image body_imagex body_imagey body_imagez
                    integrateStepOne_body];
      by rewrite list_lookup_total_insert_ne.
Qed.

Lemma integrateStepOne_body_run (rc : RigidConst Scalar) (bx : BoxDim Scalar)
  (deltaT : Scalar) (body : nat) (b : RigidBodies Scalar) (ax : Axis) :
  Forall (fun n => body < n) (com_lengths b) ->
  let b' := integrateStepOne_body rc bx deltaT body b in
  let w := wrapped ax bx (drifted ax (com b !!! body) (vel b' !!! body) deltaT)
                   (body_image ax b !!! body) in
  coord ax (com b' !!! body) = fst w /\ body_image ax b' !!! body = snd w.
Proof.
  intros Hl b' w. subst w b'. unfold com_lengths in Hl.
  apply Forall_cons in Hl as (Hc & Hl). apply Forall_cons in Hl as (Hv & Hl).
  apply Forall_cons in Hl as (Hx & Hl). apply Forall_cons in Hl as (Hy & Hl).
  apply Forall_cons in Hl as (Hz & _).
  unfold wrapped, drifted.
  destruct ax;
    cbn [com vel body_image body_imagex body_imagey body_imagez coord box_lo
         box_hi integrateStepOne_body];
    rewrite !list_lookup_total_insert_eq by done; done.
Qed.

Lemma integrateStepOne_wrap (st : State Scalar) (body : nat) (ax : Axis) :
  protocol st ->
  NoDup (m_body_group st) ->
  body ∈ m_body_group st ->
  let b := bodies (m_rigid_data st) in
  let b' := bodies (m_rigid_data (integrateStepOne st)) in
  Forall (fun n => body < n) (com_lengths b) ->
  let w := wrapped ax (box (m_pdata st))
             (drifted ax (com b !!! body) (vel b' !!! body) (m_deltaT st))
             (body_image ax b !!! body) in
  coord ax (com b' !!! body) = fst w /\ body_image ax b' !!! body = snd w.
Proof.
  intros Hp Hnd Hin b b' Hl w.
  assert (Hne : m_body_group st <> []).
  { intros Hg. rewrite Hg in Hin. by apply elem_of_nil in Hin. }
  subst w b'. rewrite (integrateStepOne_bodies st Hp Hne). cbv zeta.
  destruct (prepared_frame st Hp) as (_ & _ & _ & _ & _ & He & Hbl).
  set (b1 := bodies (m_rigid_data (prepared st))) in *.
  assert (Hcom : com b1 = com b) by exact (f_equal com He).
  assert (Himg : forall a, body_image a b1 = body_image a b).
  { intros []; [ exact (f_equal body_imagex He) | exact (f_equal body_imagey He)
               | exact (f_equal body_imagez He) ]. }
  assert (Hcl : com_lengths b1 = com_lengths b).
  { unfold body_lengths in Hbl. unfold com_lengths. fold b in Hbl.
    by inversion Hbl. }
  set (rc := rconst (m_rigid_data st)). set (bx := box (m_pdata st)).
  set (dt := m_deltaT st).
  set (Len := fun a : RigidBodies Scalar =>
                Forall (fun n => body < n) (com_lengths a)).
  apply (fold_left_split_inv (integrateStepOne_body rc bx dt)
           (fun a => Len a /\ com a !!! body = com b !!! body /\
                     body_image ax a !!! body = body_image ax b !!! body)
           (fun a =>
              let w := wrapped ax bx (drifted ax (com b !!! body) (vel a !!! body) dt)
                               (body_image ax b !!! body) in
              coord ax (com a !!! body) = fst w /\
              body_image ax a !!! body = snd w)
           (m_body_group st) body); try done.
  - intros body' a _ Hne' (Hlen & Hc & Hi).
    destruct (integrateStepOne_body_other rc bx dt body' body a Hne')
      as (Hc' & _ & Hi').
    unfold Len. rewrite integrateStepOne_body_lengths, Hc', Hi'. done.
  - intros a (Hlen & Hc & Hi). cbv zeta. rewrite <- Hc, <- Hi.
    by apply integrateStepOne_body_run.
  - intros body' a _ Hne' Ha. cbv zeta in *.
    destruct (integrateStepOne_body_other rc bx dt body' body a Hne')
      as (Hc' & Hv' & Hi').
    by rewrite Hc', Hv', Hi'.
  - unfold Len. by rewrite Hcl, Hcom, Himg.
Qed.

(** *** What the projections compute for a constituent *)

Lemma localidx_distinct (st : State Scalar) (k k' : nat * nat) :
  constituents_wf st ->
  k ∈ constituents st -> k' ∈ constituents st -> k' <> k ->
  localidx_of st (fst k') (snd k') <> localidx_of st (fst k) (snd k).
Proof.
  intros (_ & _ & _ & Hfit) Hk Hk' Hne Heq.
  destruct k as [body j], k' as [body' j'].
  apply elem_of_constituents in Hk as (Hb & Hj).
  apply elem_of_constituents in Hk' as (Hb' & Hj').
  pose proof (Hfit body Hb) as Hs. pose proof (Hfit body' Hb') as Hs'.
  unfold localidx_of in Heq. cbn [fst snd] in Heq.
  set (p := particle_pos_pitch (rconst (m_rigid_data st))) in *.
  assert (body = body') by nia. subst body'.
  assert (j = j') by lia. subst j'. done.
Qed.

Lemma pidx_distinct (st : State Scalar) (k k' : nat * nat) :
  constituents_wf st ->
  k ∈ constituents st -> k' ∈ constituents st -> k' <> k ->
  pidx_of st (fst k') (snd k') <> pidx_of st (fst k) (snd k).
Proof.
  intros (_ & _ & Hinj & _) Hk Hk' Hne Heq. apply Hne. by apply Hinj.
Qed.

Lemma set_xv_particle_lengths (body j : nat) (a : State Scalar) :
  projection_lengths (set_xv_particle body j a) = projection_lengths a.
Proof.
  unfold projection_lengths.
  cbn [arrays m_pdata x y z vx vy vz ix iy iz net_virial particle_oldpos
       particle_oldvel cache m_rigid_data m_virial set_xv_particle].
  by rewrite !length_insert.
Qed.

Lemma set_v_particle_lengths (body j : nat) (a : State Scalar) :
  projection_lengths (set_v_particle body j a) = projection_lengths a.
Proof.
  unfold projection_lengths.
  cbn [arrays m_pdata x y z vx vy vz ix iy iz net_virial particle_oldpos
       particle_oldvel cache m_rigid_data m_virial set_v_particle].
  by rewrite !length_insert.
Qed.

(** What an iteration reads outside the slots of its constituent is in the
    part of the state that the projection never writes. *)
Lemma erase_projection_reads (a st : State Scalar) (body j : nat) :
  erase_projection a = erase_projection st ->
  pidx_of a body j = pidx_of st body j /\
  localidx_of a body j = localidx_of st body j /\
  offset_of a body j = offset_of st body j /\
  velocity_of a body j = velocity_of st body j.
Proof.
  intros He.
  assert (Hrc : rconst (m_rigid_data a) = rconst (m_rigid_data st))
    by exact (f_equal (fun s => rconst (m_rigid_data s)) He).
  assert (Hb : bodies (m_rigid_data a) = bodies (m_rigid_data st))
    by exact (f_equal (fun s => bodies (m_rigid_data s)) He).
  unfold velocity_of, offset_of, pidx_of, localidx_of. by rewrite Hrc, Hb.
Qed.

Lemma erase_velocities_reads (a st : State Scalar) (body j : nat) :
  erase_velocities a = erase_velocities st ->
  pidx_of a body j = pidx_of st body j /\
  localidx_of a body j = localidx_of st body j /\
  offset_of a body j = offset_of st body j /\
  velocity_of a body j = velocity_of st body j.
Proof.
  intros He.
  assert (Hrc : rconst (m_rigid_data a) = rconst (m_rigid_data st))
    by exact (f_equal (fun s => rconst (m_rigid_data s)) He).
  assert (Hb : bodies (m_rigid_data a) = bodies (m_rigid_data st))
    by exact (f_equal (fun s => bodies (m_rigid_data s)) He).
  unfold velocity_of, offset_of, pidx_of, localidx_of. by rewrite Hrc, Hb.
Qed.

Lemma virial_of_reads (a st : State Scalar) (body j : nat) :
  rconst (m_rigid_data a) = rconst (m_rigid_data st) ->
  bodies (m_rigid_data a) = bodies (m_rigid_data st) ->
  mass (arrays (m_pdata a)) = mass (arrays (m_pdata st)) ->
  net_force (m_pdata a) = net_force (m_pdata st) ->
  m_deltaT a = m_deltaT st ->
  particle_oldpos (cache (m_rigid_data a)) !!! localidx_of st body j
  = particle_oldpos (cache (m_rigid_data st)) !!! localidx_of st body j ->
  particle_oldvel (cache (m_rigid_data a)) !!! localidx_of st body j
  = particle_oldvel (cache (m_rigid_data st)) !!! localidx_of st body j ->
  virial_of a body j = virial_of st body j.
Proof.
  intros Hrc Hb Hm Hf Hdt Hop Hov.
  unfold virial_of, fc_of, velocity_of, offset_of, pidx_of.
  assert (Hl : localidx_of a body j = localidx_of st body j).
  { unfold localidx_of. by rewrite Hrc. }
  by rewrite Hl, Hrc, Hb, Hm, Hf, Hdt, Hop, Hov.
Qed.

(** The bounds of [constituent_in_range], one by one. *)
Ltac in_range_bounds H :=
  unfold constituent_in_range, projection_lengths in H;
  cbn [replicate app] in H;
  repeat match type of H with
         | Forall2 _ (_ :: _) (_ :: _) =>
             let Hb := fresh "Hb" in
             apply Forall2_cons in H as (Hb & H)
         end;
  clear H.

Lemma set_xv_particle_other (body' j' pidx localidx : nat) (a : State Scalar) :
  pidx_of a body' j' <> pidx ->
  localidx_of a body' j' <> localidx ->
  let a' := set_xv_particle body' j' a in
  (forall ax,
      position ax (arrays (m_pdata a')) !!! pidx
      = position ax (arrays (m_pdata a)) !!! pidx /\
      image ax (arrays (m_pdata a')) !!! pidx
      = image ax (arrays (m_pdata a)) !!! pidx) /\
  velocity3 (arrays (m_pdata a')) pidx = velocity3 (arrays (m_pdata a)) pidx /\
  m_virial a' !!! localidx = m_virial a !!! localidx /\
  particle_oldpos (cache (m_rigid_data a')) !!! localidx
  = particle_oldpos (cache (m_rigid_data a)) !!! localidx /\
  particle_oldvel (cache (m_rigid_data a')) !!! localidx
  = particle_oldvel (cache (m_rigid_data a)) !!! localidx.
Proof.
  intros Hp Hl a'. subst a'. repeat split.
  - destruct ax; cbn [position arrays m_pdata x y z set_xv_particle];
      by rewrite list_lookup_total_insert_ne.
  - destruct ax; cbn [image arrays m_pdata ix iy iz set_xv_particle];
      by rewrite list_lookup_total_insert_ne.
  - unfold velocity3. cbn [arrays m_pdata vx vy vz set_xv_particle].
    by rewrite !list_lookup_total_insert_ne.
  - cbn [m_virial set_xv_particle]. by rewrite list_lookup_total_insert_ne.
  - cbn [particle_oldpos cache m_rigid_data set_xv_particle].
    by rewrite list_lookup_total_insert_ne.
  - cbn [particle_oldvel cache m_rigid_data set_xv_particle].
    by rewrite list_lookup_total_insert_ne.
Qed.

Lemma set_xv_particle_run (body j : nat) (a : State Scalar) :
  constituent_in_range a body j ->
  let a' := set_xv_particle body j a in
  let pidx := pidx_of a body j in
  (forall ax,
      let w := wrapped ax (box (m_pdata a)) (computed_coordinate ax a body j)
                 (body_image ax (bodies (m_rigid_data a)) !!! body) in
      position ax (arrays (m_pdata a')) !!! pidx = fst w /\
      image ax (arrays (m_pdata a')) !!! pidx = snd w) /\
  velocity3 (arrays (m_pdata a')) pidx = velocity_of a body j /\
  m_virial a' !!! localidx_of a body j = virial_of a body j.
Proof.
  intros Hr a' pidx. subst a' pidx. in_range_bounds Hr.
  repeat split.
  - destruct ax; cbn [position arrays m_pdata x y z set_xv_particle];
      by rewrite list_lookup_total_insert_eq.
  - destruct ax; cbn [image arrays m_pdata ix iy iz set_xv_particle];
      by rewrite list_lookup_total_insert_eq.
  - unfold velocity3. cbn [arrays m_pdata vx vy vz set_xv_particle].
    rewrite !list_lookup_total_insert_eq by done.
    by destruct (velocity_of a body j).
  - cbn [m_virial set_xv_particle]. by rewrite list_lookup_total_insert_eq.
Qed.

Lemma constituent_in_range_reads (a st : State Scalar) (body j : nat) :
  pidx_of a body j = pidx_of st body j ->
  localidx_of a body j = localidx_of st body j ->
  projection_lengths a = projection_lengths st ->
  constituent_in_range st body j -> constituent_in_range a body j.
Proof. unfold constituent_in_range. by intros -> -> ->. Qed.

(** What [set_xv] leaves in the slots of a constituent. *)
Lemma set_xv_constituent (st : State Scalar) (body j : nat) :
  constituents_wf st ->
  (body, j) ∈ constituents st ->
  constituent_in_range st body j ->
  let st' := set_xv st in
  let pidx := pidx_of st body j in
  (forall ax,
      let w := wrapped ax (box (m_pdata st)) (computed_coordinate ax st body j)
                 (body_image ax (bodies (m_rigid_data st)) !!! body) in
      position ax (arrays (m_pdata st')) !!! pidx = fst w /\
      image ax (arrays (m_pdata st')) !!! pidx = snd w) /\
  velocity3 (arrays (m_pdata st')) pidx = velocity_of st body j /\
  m_virial st' !!! localidx_of st body j = virial_of st body j.
Proof.
  intros Hwf Hk Hr st' pidx. subst st'.
  pose proof Hwf as (Hready & Hnd & _ & _).
  rewrite (set_xv_flatten st Hready).
  set (localidx := localidx_of st body j).
  set (Kept := fun a : State Scalar =>
                 erase_projection a = erase_projection st /\
                 projection_lengths a = projection_lengths st).
  apply (fold_left_split_inv
           (fun k a => set_xv_particle (fst k) (snd k) a)
           (fun a =>
              Kept a /\
              particle_oldpos (cache (m_rigid_data a)) !!! localidx
              = particle_oldpos (cache (m_rigid_data st)) !!! localidx /\
              particle_oldvel (cache (m_rigid_data a)) !!! localidx
              = particle_oldvel (cache (m_rigid_data st)) !!! localidx)
           (fun a =>
              Kept a /\
              (forall ax,
                  let w := wrapped ax (box (m_pdata st))
                             (computed_coordinate ax st body j)
                             (body_image ax (bodies (m_rigid_data st)) !!! body) in
                  position ax (arrays (m_pdata a)) !!! pidx = fst w /\
                  image ax (arrays (m_pdata a)) !!! pidx = snd w) /\
              velocity3 (arrays (m_pdata a)) pidx = velocity_of st body j /\
              m_virial a !!! localidx = virial_of st body j)
           (constituents st) (body, j)); try done.
  - by apply NoDup_constituents.
  - (* the iterations before *)
    intros k' a Hk' Hne ((He & Hlen) & Hop & Hov).
    destruct (erase_projection_reads a st (fst k') (snd k') He) as (Hp' & Hl' & _).
    destruct (set_xv_particle_other (fst k') (snd k') pidx localidx a)
      as (_ & _ & _ & Hop' & Hov').
    { rewrite Hp'. by apply (pidx_distinct st (body, j) k'). }
    { rewrite Hl'. by apply (localidx_distinct st (body, j) k'). }
    unfold Kept. rewrite set_xv_particle_lengths, Hop', Hov'. done.
  - (* the iteration of the constituent *)
    intros a ((He & Hlen) & Hop & Hov). cbn [fst snd].
    destruct (erase_projection_reads a st body j He) as (Hp' & Hl' & Ho' & Hv').
    destruct (set_xv_particle_run body j a) as (Hpos & Hvel & Hvir).
    { by apply (constituent_in_range_reads a st). }
    unfold Kept. rewrite set_xv_particle_lengths.
    split; [done|]. rewrite Hp' in Hpos, Hvel. rewrite Hl' in Hvir.
    fold pidx in Hpos, Hvel. fold localidx in Hvir.
    split; [|split].
    + intros ax. specialize (Hpos ax). cbv zeta in Hpos.
      assert (Hb : bodies (m_rigid_data a) = bodies (m_rigid_data st))
        by exact (f_equal (fun s => bodies (m_rigid_data s)) He).
      assert (Hbox : box (m_pdata a) = box (m_pdata st))
        by exact (f_equal (fun s => box (m_pdata s)) He).
      unfold computed_coordinate in *. by rewrite Ho', Hb, Hbox in Hpos.
    + by rewrite Hvel, Hv'.
    + rewrite Hvir. apply virial_of_reads; try done.
      * exact (f_equal (fun s => rconst (m_rigid_data s)) He).
      * exact (f_equal (fun s => bodies (m_rigid_data s)) He).
      * exact (f_equal (fun s => mass (arrays (m_pdata s))) He).
      * exact (f_equal (fun s => net_force (m_pdata s)) He).
      * exact (f_equal (fun s => m_deltaT s) He).
  - (* the iterations after *)
    intros k' a Hk' Hne ((He & Hlen) & Hpos & Hvel & Hvir).
    destruct (erase_projection_reads a st (fst k') (snd k') He) as (Hp' & Hl' & _).
    destruct (set_xv_particle_other (fst k') (snd k') pidx localidx a)
      as (Hpos' & Hvel' & Hvir' & _).
    { rewrite Hp'. by apply (pidx_distinct st (body, j) k'). }
    { rewrite Hl'. by apply (localidx_distinct st (body, j) k'). }
    unfold Kept. rewrite set_xv_particle_lengths, Hvel', Hvir'.
    split; [done|]. split; [|done].
    intros ax. destruct (Hpos' ax) as (-> & ->). apply Hpos.
Qed.

Lemma set_v_particle_run (body j : nat) (a : State Scalar) :
  constituent_in_range a body j ->
  let a' := set_v_particle body j a in
  let pidx := pidx_of a body j in
  velocity3 (arrays (m_pdata a')) pidx = velocity_of a body j /\
  net_virial (m_pdata a') !!! pidx
  = (net_virial (m_pdata a) !!! pidx + m_virial a !!! localidx_of a body j
     + virial_of a body j)%S.
Proof.
  intros Hr a' pidx. subst a' pidx. in_range_bounds Hr. split.
  - unfold velocity3. cbn [arrays m_pdata vx vy vz set_v_particle].
    rewrite !list_lookup_total_insert_eq by done.
    by destruct (velocity_of a body j).
  - cbn [net_virial m_pdata set_v_particle].
    rewrite !list_lookup_total_insert_eq; try done.
    by rewrite length_insert.
Qed.

(** What [set_v] leaves in the slots of a constituent. *)
Lemma set_v_constituent (st : State Scalar) (body j : nat) :
  constituents_wf st ->
  (body, j) ∈ constituents st ->
  constituent_in_range st body j ->
  let st' := set_v st in
  let pidx := pidx_of st body j in
  velocity3 (arrays (m_pdata st')) pidx = velocity_of st body j /\
  net_virial (m_pdata st') !!! pidx
  = (net_virial (m_pdata st) !!! pidx + m_virial st !!! localidx_of st body j
     + virial_of st body j)%S.
Proof.
  intros Hwf Hk Hr st' pidx. subst st'.
  pose proof Hwf as (Hready & Hnd & _ & _).
  rewrite (set_v_flatten st Hready).
  set (localidx := localidx_of st body j).
  set (Kept := fun a : State Scalar =>
                 erase_velocities a = erase_velocities st /\
                 projection_lengths a = projection_lengths st).
  apply (fold_left_split_inv
           (fun k a => set_v_particle (fst k) (snd k) a)
           (fun a =>
              Kept a /\
              net_virial (m_pdata a) !!! pidx = net_virial (m_pdata st) !!! pidx /\
              particle_oldvel (cache (m_rigid_data a)) !!! localidx
              = particle_oldvel (cache (m_rigid_data st)) !!! localidx)
           (fun a =>
              Kept a /\
              velocity3 (arrays (m_pdata a)) pidx = velocity_of st body j /\
              net_virial (m_pdata a) !!! pidx
              = (net_virial (m_pdata st) !!! pidx + m_virial st !!! localidx
                 + virial_of st body j)%S)
           (constituents st) (body, j)); try done.
  - by apply NoDup_constituents.
  - (* the iterations before *)
    intros k' a Hk' Hne ((He & Hlen) & Hnv & Hov).
    destruct (erase_velocities_reads a st (fst k') (snd k') He) as (Hp' & Hl' & _).
    destruct (set_v_particle_other (fst k') (snd k') pidx a) as (_ & Hnv').
    { rewrite Hp'. by apply (pidx_distinct st (body, j) k'). }
    unfold Kept.
    rewrite set_v_particle_lengths, Hnv', set_v_particle_other_slot; [done|].
    rewrite Hl'. by apply (localidx_distinct st (body, j) k').
  - (* the iteration of the constituent *)
    intros a ((He & Hlen) & Hnv & Hov). cbn [fst snd].
    destruct (erase_velocities_reads a st body j He) as (Hp' & Hl' & Ho' & Hv').
    destruct (set_v_particle_run body j a) as (Hvel & Hvir).
    { by apply (constituent_in_range_reads a st). }
    unfold Kept. rewrite set_v_particle_lengths.
    split; [done|]. rewrite Hp' in Hvel, Hvir. rewrite Hl' in Hvir.
    fold pidx in Hvel, Hvir. fold localidx in Hvir.
    split; [by rewrite Hvel, Hv'|].
    rewrite Hvir, Hnv.
    assert (Hmv : m_virial a = m_virial st)
      by exact (f_equal (fun s => m_virial s) He).
    rewrite Hmv. f_equal. apply virial_of_reads; try done.
    + exact (f_equal (fun s => rconst (m_rigid_data s)) He).
    + exact (f_equal (fun s => bodies (m_rigid_data s)) He).
    + exact (f_equal (fun s => mass (arrays (m_pdata s))) He).
    + exact (f_equal (fun s => net_force (m_pdata s)) He).
    + exact (f_equal (fun s => m_deltaT s) He).
    + assert (Hop : particle_oldpos (cache (m_rigid_data a))
                    = particle_oldpos (cache (m_rigid_data st)))
        by exact (f_equal (fun s => particle_oldpos (cache (m_rigid_data s))) He).
      by rewrite Hop.
  - (* the iterations after *)
    intros k' a Hk' Hne ((He & Hlen) & Hvel & Hvir).
    destruct (erase_velocities_reads a st (fst k') (snd k') He) as (Hp' & Hl' & _).
    destruct (set_v_particle_other (fst k') (snd k') pidx a) as (Hvel' & Hnv').
    { rewrite Hp'. by apply (pidx_distinct st (body, j) k'). }
    unfold Kept. rewrite set_v_particle_lengths, Hnv'.
    split; [done|]. split; [|done].
    unfold velocity3 in *.
    pose proof (Hvel' AxisX) as Hx. pose proof (Hvel' AxisY) as Hy.
    pose proof (Hvel' AxisZ) as Hz. cbn [velocity] in Hx, Hy, Hz.
    by rewrite Hx, Hy, Hz.
Qed.

(** C9.  In the full projection [set_xv] the coordinate of a constituent
    particle is computed as the centre of mass of its body plus its local
    position rotated by the basis, [ex p.x + ey p.y + ez p.z], with the
    image counter of the body; at or beyond the high bound one box length
    is taken off and the counter is the body's plus one, below the low
    bound one box length is added and the counter is the body's minus one,
    and otherwise the coordinate is the computed one and the counter is the
    body's.  Image counters are [int]: the body's is taken away from the
    ends of the range.  The slots of the constituent are inside the arrays
    that [set_xv] writes for it, the row of [m_virial] among them. *)
Theorem set_xv_positions (st : State Scalar) (body j : nat) (ax : Axis) :
  constituents_wf st ->
  (body, j) ∈ constituents st ->
  constituent_in_range st body j ->
  let st' := set_xv st in
  let b := bodies (m_rigid_data st) in
  let rc := rconst (m_rigid_data st) in
  let pidx := particle_indices rc !!! (body * indices_pitch rc + j)%nat in
  let lo := box_lo ax (box (m_pdata st)) in
  let hi := box_hi ax (box (m_pdata st)) in
  let p := particle_pos rc !!! (body * particle_pos_pitch rc + j)%nat in
  let ex := ex_space b !!! body in
  let ey := ey_space b !!! body in
  let ez := ez_space b !!! body in
  let r := make_scalar3 (x4 ex * x4 p + x4 ey * y4 p + x4 ez * z4 p)%S
                        (y4 ex * x4 p + y4 ey * y4 p + y4 ez * z4 p)%S
                        (z4 ex * x4 p + z4 ey * y4 p + z4 ez * z4 p)%S in
  let c := (coord ax (com b !!! body) + coord3 ax r)%S in
  let img := body_image ax b !!! body in
  let c' := position ax (arrays (m_pdata st')) !!! pidx in
  let img' := image ax (arrays (m_pdata st')) !!! pidx in
  (INT_MIN < img < INT_MAX)%Z ->
  ((c >=? hi)%S = true -> c' = (c - (hi - lo))%S /\ img' = (img + 1)%Z) /\
  ((c >=? hi)%S = false -> (c <? lo)%S = true ->
   c' = (c + (hi - lo))%S /\ img' = (img - 1)%Z) /\
  ((c >=? hi)%S = false -> (c <? lo)%S = false -> c' = c /\ img' = img).
Proof.
  intros Hwf Hk Hr st' b rc pidx lo hi p ex ey ez r c img c' img' Hi.
  destruct (set_xv_constituent st body j Hwf Hk Hr) as (Hpos & _).
  destruct (Hpos ax) as (Hc & Himg). clear Hpos.
  change (pidx_of st body j) with pidx in Hc, Himg.
  fold st' in Hc, Himg. fold c' in Hc. fold img' in Himg.
  change (computed_coordinate ax st body j) with c in Hc, Himg.
  fold b img in Hc, Himg.
  unfold wrapped, wrap_coord in Hc, Himg. fold lo hi in Hc, Himg.
  split; [|split].
  - intros Hge. rewrite Hc, Himg, Hge. simpl. split; [done|].
    apply int_incr_in_range. lia.
  - intros Hge Hlt. rewrite Hc, Himg, Hge, Hlt. simpl. split; [done|].
    apply int_decr_in_range. lia.
  - intros Hge Hlt. by rewrite Hc, Himg, Hge, Hlt.
Qed.

(** C2, as the code has it.  For a constituent particle whose slots are
    inside the arrays, the constraint force is in both projections its
    mass times the difference of its new and its cached old velocity over
    half the time step, minus its net force, and the virial term is half
    the product of the cached old position with it, over three.  The full
    projection [set_xv] stores the term in the integrator's own array
    [m_virial] and leaves the net virial of the particles as it was; the
    velocity-only projection [set_v] adds to the net virial of the particle
    the stored term and then its own. *)
Theorem virial_two_passes (st : State Scalar) (body j : nat) :
  constituents_wf st ->
  (body, j) ∈ constituents st ->
  constituent_in_range st body j ->
  let rc := rconst (m_rigid_data st) in
  let pidx := particle_indices rc !!! (body * indices_pitch rc + j)%nat in
  let localidx := (body * particle_pos_pitch rc + j)%nat in
  let massone := mass (arrays (m_pdata st)) !!! pidx in
  let old_vel := particle_oldvel (cache (m_rigid_data st)) !!! localidx in
  let old_pos := particle_oldpos (cache (m_rigid_data st)) !!! localidx in
  let dt_half := (s_half * m_deltaT st)%S in
  let f := net_force (m_pdata st) !!! pidx in
  let term := fun st' : State Scalar =>
    let arr' := arrays (m_pdata st') in
    let fcx := (massone * (vx arr' !!! pidx - x4 old_vel) / dt_half - x4 f)%S in
    let fcy := (massone * (vy arr' !!! pidx - y4 old_vel) / dt_half - y4 f)%S in
    let fcz := (massone * (vz arr' !!! pidx - z4 old_vel) / dt_half - z4 f)%S in
    (s_half * (x4 old_pos * fcx + y4 old_pos * fcy + z4 old_pos * fcz)
     / s_three)%S in
  (m_virial (set_xv st) !!! localidx = term (set_xv st) /\
   net_virial (m_pdata (set_xv st)) = net_virial (m_pdata st)) /\
  net_virial (m_pdata (set_v st)) !!! pidx
  = (net_virial (m_pdata st) !!! pidx + m_virial st !!! localidx
     + term (set_v st))%S.
Proof.
  intros Hwf Hk Hr rc pidx localidx massone old_vel old_pos dt_half f term.
  split.
  - destruct (set_xv_constituent st body j Hwf Hk Hr) as (_ & Hvel & Hvir).
    split; [|apply set_xv_net_virial].
    change (m_virial (set_xv st) !!! localidx = virial_of st body j) in Hvir.
    rewrite Hvir. unfold virial_of, fc_of. rewrite <- Hvel. reflexivity.
  - destruct (set_v_constituent st body j Hwf Hk Hr) as (Hvel & Hvir).
    change (net_virial (m_pdata (set_v st)) !!! pidx
            = (net_virial (m_pdata st) !!! pidx + m_virial st !!! localidx
               + virial_of st body j)%S) in Hvir.
    rewrite Hvir. unfold virial_of, fc_of. rewrite <- Hvel. reflexivity.
Qed.

(** *** A full step for the bodies *)

Lemma integrateStepOne_fields (st : State Scalar) :
  protocol st ->
  let st' := integrateStepOne st in
  rconst (m_rigid_data st') = rconst (m_rigid_data st) /\
  m_deltaT st' = m_deltaT st /\
  m_body_group st' = m_body_group st /\
  m_n_bodies st' = length (m_body_group st).
Proof.
  intros Hp st'. subst st'.
  destruct (prepared_frame st Hp) as (Hrc & _ & Hdt & Hg & Hn & _).
  unfold integrateStepOne. fold (prepared st).
  destruct (m_n_bodies (prepared st) <=? 0)%nat; [done|].
  set (s := with_bodies _ _).
  pose proof (set_xv_erase s) as He.
  repeat split.
  - rewrite <- Hrc. exact (f_equal (fun a => rconst (m_rigid_data a)) He).
  - rewrite <- Hdt. exact (f_equal (fun a => m_deltaT a) He).
  - rewrite <- Hg. exact (f_equal (fun a => m_body_group a) He).
  - rewrite <- Hn. exact (f_equal (fun a => m_n_bodies a) He).
Qed.

Lemma computeForceAndTorque_vel (st : State Scalar) :
  vel (bodies (m_rigid_data (computeForceAndTorque st)))
  = vel (bodies (m_rigid_data st)).
Proof.
  unfold computeForceAndTorque. cbn [with_bodies bodies m_rigid_data].
  set (P := fun b : RigidBodies Scalar => vel b = vel (bodies (m_rigid_data st))).
  apply (for_each_body_preserves P).
  { intros body b Hb. unfold force_accumulate_body.
    apply (for_each_j_preserves P); [|done]. by intros j b' _ Hb'. }
  apply (for_each_body_preserves P); [|done]. by intros body b Hb.
Qed.

Lemma integrateStepTwo_bodies (st : State Scalar) :
  group_ready st ->
  m_body_group st <> [] ->
  bodies (m_rigid_data (integrateStepTwo st))
  = fold_left
      (fun b body =>
         integrateStepTwo_body (rconst (m_rigid_data st)) (m_deltaT st) body b)
      (m_body_group st) (bodies (m_rigid_data (computeForceAndTorque st))).
Proof.
  intros Hready Hne. unfold integrateStepTwo.
  assert (Hpos : (m_n_bodies st <=? 0)%nat = false).
  { rewrite Hready. by destruct (m_body_group st). }
  rewrite Hpos, set_v_bodies. cbn [with_bodies bodies m_rigid_data].
  change (m_n_bodies (computeForceAndTorque st)) with (m_n_bodies st).
  change (m_body_group (computeForceAndTorque st)) with (m_body_group st).
  change (m_deltaT (computeForceAndTorque st)) with (m_deltaT st).
  change (rconst (m_rigid_data (computeForceAndTorque st)))
    with (rconst (m_rigid_data st)).
  by rewrite Hready, for_each_body_members.
Qed.

End Frames.

(** ** Exact arithmetic *)

Import Exact Examples.

Lemma exact_geb_iff (a b : Q) : (a >=? b)%S = true <-> (b <= a)%Q.
Proof. apply Qle_bool_iff. Qed.

Lemma exact_add_eq (a b : Q) : ((a + b)%S == a + b)%Q.
Proof. apply Qred_correct. Qed.

Lemma exact_mul_eq (a b : Q) : ((a * b)%S == a * b)%Q.
Proof. apply Qred_correct. Qed.

(** C3, as the code has it.  For a body of the group and an axis, one
    [integrateStepOne] maps the drifted coordinate [d] of the centre of
    mass into the box once: at or beyond the high bound it takes one box
    length off and adds one to the image counter, below the low bound it
    adds one box length and takes one off the counter, and otherwise it
    changes neither, however far [d] is from the box; this holds for every
    arithmetic.  In exact arithmetic, a body at the high bound minus [eps]
    that moves outward by twice [eps], with [eps] positive and less than
    the box length, ends inside the box with its counter one up.  Image
    counters are [int]: they are taken away from the ends of the range. *)
Theorem stepOne_wraps_once :
  (forall (Scalar : Type) (ops : ScalarOps Scalar) (qm : QuaternionMath Scalar)
          (st : State Scalar) (body : nat) (ax : Axis),
      protocol st ->
      NoDup (m_body_group st) ->
      body ∈ m_body_group st ->
      let b := bodies (m_rigid_data st) in
      let b' := bodies (m_rigid_data (integrateStepOne st)) in
      let lo := box_lo ax (box (m_pdata st)) in
      let hi := box_hi ax (box (m_pdata st)) in
      let img := body_image ax b !!! body in
      let img' := body_image ax b' !!! body in
      let c' := coord ax (com b' !!! body) in
      let d := drifted ax (com b !!! body) (vel b' !!! body) (m_deltaT st) in
      Forall (fun n => body < n) (com_lengths b) ->
      (INT_MIN < img < INT_MAX)%Z ->
      ((d >=? hi)%S = true -> c' = (d - (hi - lo))%S /\ img' = (img + 1)%Z) /\
      ((d >=? hi)%S = false -> (d <? lo)%S = true ->
       c' = (d + (hi - lo))%S /\ img' = (img - 1)%Z) /\
      ((d >=? hi)%S = false -> (d <? lo)%S = false -> c' = d /\ img' = img)) /\
  (forall (qm : QuaternionMath Q) (st : State Q) (body : nat) (ax : Axis)
          (eps : Q),
      protocol st ->
      NoDup (m_body_group st) ->
      body ∈ m_body_group st ->
      let b := bodies (m_rigid_data st) in
      let b' := bodies (m_rigid_data (integrateStepOne st)) in
      let lo := box_lo ax (box (m_pdata st)) in
      let hi := box_hi ax (box (m_pdata st)) in
      let img := body_image ax b !!! body in
      Forall (fun n => body < n) (com_lengths b) ->
      (INT_MIN < img < INT_MAX)%Z ->
      (0 < eps)%Q -> (eps < hi - lo)%Q ->
      (coord ax (com b !!! body) == hi - eps)%Q ->
      (coord ax (vel b' !!! body) * m_deltaT st == 2 * eps)%Q ->
      (lo <= coord ax (com b' !!! body))%Q /\
      (coord ax (com b' !!! body) < hi)%Q /\
      body_image ax b' !!! body = (img + 1)%Z).
Proof.
  split.
  - intros Scalar ops qm st body ax Hp Hnd Hin b b' lo hi img img' c' d Hl Hi.
    destruct (integrateStepOne_wrap st body ax Hp Hnd Hin Hl) as (Hc & Himg).
    fold b b' in Hc, Himg. fold d in Hc, Himg. fold c' in Hc. fold img' img in Himg.
    unfold wrapped, wrap_coord in Hc, Himg. fold lo hi in Hc, Himg.
    split; [|split].
    + intros Hge. rewrite Hc, Himg, Hge. simpl. split; [done|].
      apply int_incr_in_range. lia.
    + intros Hge Hlt. rewrite Hc, Himg, Hge, Hlt. simpl. split; [done|].
      apply int_decr_in_range. lia.
    + intros Hge Hlt. by rewrite Hc, Himg, Hge, Hlt.
  - intros qm st body ax eps Hp Hnd Hin b b' lo hi img Hl Hi Heps HepsL Hc0 Hv.
    destruct (integrateStepOne_wrap st body ax Hp Hnd Hin Hl) as (Hc & Himg).
    fold b b' in Hc, Himg. fold img in Himg.
    set (d := drifted ax (com b !!! body) (vel b' !!! body) (m_deltaT st)) in *.
    assert (Hd : (d == hi + eps)%Q).
    { unfold d, drifted. rewrite exact_add_eq, exact_mul_eq, Hc0, Hv. ring. }
    unfold wrapped, wrap_coord in Hc, Himg. fold lo hi in Hc, Himg.
    assert (Hge : (d >=? hi)%S = true).
    { apply exact_geb_iff. rewrite Hd. lra. }
    rewrite Hge in Hc, Himg. simpl in Hc, Himg.
    rewrite Hc, Himg.
    assert (Hc' : (Exact.sub d (Exact.sub hi lo) == lo + eps)%Q).
    { unfold Exact.sub. rewrite !Qred_correct, Hd. ring. }
    rewrite Hc'. repeat split; try lra.
    apply int_incr_in_range. lia.
Qed.

(** C1, as the code has it.  A single body of mass 2 whose velocity,
    torque and angular momentum are zero and whose force is (1,0,0) when
    the first half step starts, with a time step of 1/100: one
    [integrateStepOne] gives it the velocity (1/400,0,0) and moves its
    centre of mass by 1/40000 in [x] (the box is not left), and its
    orientation is the one the advance of the orientation returns, which is
    taken to be the orientation it was given since the angular momentum is
    zero.  With the force summed to (1,0,0) again, [integrateStepTwo] gives
    the velocity (1/200,0,0). *)
Theorem unit_force_step (qm : QuaternionMath Q) (st : State Q) (body : nat) :
  protocol st ->
  m_body_group st = [body] ->
  let rc := rconst (m_rigid_data st) in
  let b := bodies (m_rigid_data (prepared st)) in
  Forall (fun n => body < n) (body_lengths b) ->
  body_mass rc !!! body = 2%Q ->
  m_deltaT st = (1 # 100)%Q ->
  xyz_of (vel b !!! body) = make_scalar3 0%Q 0%Q 0%Q ->
  xyz_of (force b !!! body) = make_scalar3 1%Q 0%Q 0%Q ->
  xyz_of (torque b !!! body) = make_scalar3 0%Q 0%Q 0%Q ->
  xyz_of (angmom b !!! body) = make_scalar3 0%Q 0%Q 0%Q ->
  (forall l,
      xyz_of l = make_scalar3 0%Q 0%Q 0%Q ->
      adv_quat (advanceQuaternion l (moment_inertia rc !!! body)
                  (angvel b !!! body) (ex_space b !!! body)
                  (ey_space b !!! body) (ez_space b !!! body) (1 # 100)%Q
                  (orientation b !!! body))
      = orientation b !!! body) ->
  let cx := (x4 (com b !!! body) + (1 # 40000)%Q)%S in
  (cx >=? xhi (box (m_pdata st)))%S = false ->
  (cx <? xlo (box (m_pdata st)))%S = false ->
  let st1 := integrateStepOne st in
  let b1 := bodies (m_rigid_data st1) in
  xyz_of (vel b1 !!! body) = make_scalar3 (1 # 400)%Q 0%Q 0%Q /\
  x4 (com b1 !!! body) = cx /\
  orientation b1 !!! body = orientation b !!! body /\
  forall nf nt nv,
    let st2 := with_net_forces nf nt nv st1 in
    xyz_of (force (bodies (m_rigid_data (computeForceAndTorque st2))) !!! body)
    = make_scalar3 1%Q 0%Q 0%Q ->
    xyz_of (vel (bodies (m_rigid_data (integrateStepTwo st2))) !!! body)
    = make_scalar3 (1 # 200)%Q 0%Q 0%Q.
Proof.
  intros Hp Hg rc b Hl Hm Hdt Hv Hf Ht Ha Hrest cx Hge Hlt st1 b1.
  assert (Hne : m_body_group st <> []) by (by rewrite Hg).
  assert (Hb1 : b1 = integrateStepOne_body rc (box (m_pdata st)) (m_deltaT st)
                       body b).
  { subst b1 st1. rewrite (integrateStepOne_bodies st Hp Hne). by rewrite Hg. }
  unfold body_lengths in Hl.
  repeat match type of Hl with
         | Forall _ (_ :: _) =>
             let Hb := fresh "Hb" in apply Forall_cons in Hl as (Hb & Hl)
         end.
  clear Hl.
  injection Hv as Hvx Hvy Hvz. injection Hf as Hfx Hfy Hfz.
  injection Ht as Htx Hty Htz. injection Ha as Hax Hay Haz.
  assert (Hvel : xyz_of (vel b1 !!! body) = make_scalar3 (1 # 400)%Q 0%Q 0%Q).
  { rewrite Hb1. cbn [vel integrateStepOne_body].
    rewrite list_lookup_total_insert_eq by done.
    unfold xyz_of, set_xyz. cbn [x4 y4 z4].
    rewrite Hm, Hdt, Hvx, Hvy, Hvz, Hfx, Hfy, Hfz. reflexivity. }
  split; [exact Hvel|]. split; [|split].
  - rewrite Hb1. cbn [com integrateStepOne_body].
    rewrite list_lookup_total_insert_eq by done.
    unfold set_xyz. cbn [x4].
    rewrite Hm, Hdt, Hvx, Hfx.
    change (x4 (com b !!! body)
            + (0%Q + (s_half * (1 # 100)%Q / 2%Q * 1%Q)) * (1 # 100)%Q)%S with cx.
    unfold wrap_coord. by rewrite Hge, Hlt.
  - rewrite Hb1. cbn [orientation integrateStepOne_body].
    rewrite list_lookup_total_insert_eq by done.
    rewrite Hdt. apply Hrest.
    unfold xyz_of, set_xyz. cbn [x4 y4 z4].
    rewrite Hax, Hay, Haz, Htx, Hty, Htz. reflexivity.
  - intros nf nt nv st2 Hforce.
    destruct (integrateStepOne_fields st Hp) as (Hrc1 & Hdt1 & Hg1 & Hn1).
    fold st1 in Hrc1, Hdt1, Hg1, Hn1.
    assert (Hready2 : group_ready st2).
    { unfold group_ready. subst st2. cbn [with_net_forces m_n_bodies m_body_group].
      by rewrite Hn1, Hg1. }
    assert (Hg2 : m_body_group st2 = [body]).
    { subst st2. cbn [with_net_forces m_body_group]. by rewrite Hg1. }
    rewrite (integrateStepTwo_bodies st2 Hready2) by (by rewrite Hg2).
    rewrite Hg2. cbn [fold_left].
    pose proof (f_equal x3 Hforce) as Hfx2.
    pose proof (f_equal y3 Hforce) as Hfy2.
    pose proof (f_equal z3 Hforce) as Hfz2.
    cbn [xyz_of x3 y3 z3] in Hfx2, Hfy2, Hfz2.
    cbn [vel integrateStepTwo_body].
    assert (Hvel2 : vel (bodies (m_rigid_data (computeForceAndTorque st2))) = vel b1).
    { by rewrite computeForceAndTorque_vel. }
    rewrite list_lookup_total_insert_eq.
    2:{ rewrite Hvel2, Hb1. cbn [vel integrateStepOne_body].
        by rewrite length_insert. }
    rewrite Hvel2. injection Hvel as Hx1 Hy1 Hz1.
    unfold xyz_of, set_xyz. cbn [x4 y4 z4].
    rewrite Hx1, Hy1, Hz1, Hfx2, Hfy2, Hfz2.
    change (rconst (m_rigid_data st2)) with (rconst (m_rigid_data st1)).
    change (m_deltaT st2) with (m_deltaT st1).
    rewrite Hrc1, Hdt1. fold rc. rewrite Hm, Hdt. reflexivity.
Qed.

(** ** The properties at concrete states *)

(** A claim about every constituent, at a concrete list of constituents. *)
Ltac each_constituent :=
  let k := fresh "k" in
  let Hk := fresh "Hk" in
  intros k Hk; vm_compute in Hk;
  repeat (apply elem_of_cons in Hk as [-> | Hk];
          [vm_compute; try discriminate; try lia |]);
  try (by apply elem_of_nil in Hk).

(** Bounds at a concrete state. *)
Ltac concrete_bounds :=
  vm_compute;
  repeat first [ apply Forall_nil | apply Forall2_nil
               | apply Forall_cons; split | apply Forall2_cons; split
               | lia ].

(** The example states are well formed. *)
Lemma dumbbell_wf (c : Scalar4 Q) (img : Z) (pv bv bf f : Scalar4 Q)
  (init : bool) :
  constituents_wf (dumbbell c img pv bv bf f init false).
Proof.
  split; [reflexivity|]. split; [apply NoDup_singleton|]. split.
  - intros k k' Hk Hk' Heq. vm_compute in Hk, Hk'.
    apply elem_of_cons in Hk as [-> | Hk];
      [|apply elem_of_cons in Hk as [-> | Hk]; [|by apply elem_of_nil in Hk]];
      (apply elem_of_cons in Hk' as [-> | Hk'];
       [|apply elem_of_cons in Hk' as [-> | Hk']; [|by apply elem_of_nil in Hk']]);
      vm_compute in Heq; done.
  - intros body Hb. apply list_elem_of_singleton in Hb as ->. vm_compute. lia.
Qed.

Lemma dumbbell_constituent (c : Scalar4 Q) (img : Z) (pv bv bf f : Scalar4 Q)
  (init first : bool) (j : nat) :
  j < 2 -> (0%nat, j) ∈ constituents (dumbbell c img pv bv bf f init first).
Proof.
  intros Hj. apply elem_of_constituents. split.
  - by apply list_elem_of_singleton.
  - exact Hj.
Qed.

Lemma dumbbell_in_range (c : Scalar4 Q) (img : Z) (pv bv bf f : Scalar4 Q)
  (init : bool) (j : nat) :
  j < 2 -> constituent_in_range (dumbbell c img pv bv bf f init false) 0 j.
Proof.
  intros Hj. destruct j as [|[|j]]; [| |lia]; concrete_bounds.
Qed.

Lemma fleet_nodup : NoDup [1%nat; 0%nat].
Proof. by apply (bool_decide_unpack _). Qed.

Lemma fleet_member (first : bool) (body : nat) :
  body < 2 -> body ∈ m_body_group (fleet first).
Proof.
  intros Hb. destruct body as [|[|body]]; [| |lia];
    by apply (bool_decide_unpack _).
Qed.

Lemma fleet_outside (first : bool) : 2%nat ∉ m_body_group (fleet first).
Proof. by apply (bool_decide_unpack _). Qed.

Lemma fleet_in_range (first : bool) (body : nat) :
  body < 3 -> body_in_range (bodies (m_rigid_data (fleet first))) body.
Proof. intros Hb. destruct body as [|[|[|body]]]; [| | |lia]; concrete_bounds. Qed.

Lemma fleet_protocol (first : bool) : protocol (fleet first).
Proof. destruct first; [intros Hfs; discriminate Hfs | intros _; reflexivity]. Qed.

Lemma fleet_constituents (first : bool) :
  constituents (fleet first) = [(1, 0); (1, 1); (0, 0); (0, 1)]%nat.
Proof. reflexivity. Qed.

Lemma fleet_constituent (first : bool) (body j : nat) :
  body < 2 -> j < 2 -> (body, j) ∈ constituents (fleet first).
Proof.
  intros Hb Hj. apply elem_of_constituents. split.
  - by apply fleet_member.
  - destruct body as [|[|body]]; [exact Hj|exact Hj|lia].
Qed.

Lemma fleet_wf : constituents_wf ready_fleet.
Proof.
  split; [reflexivity|]. split; [apply fleet_nodup|]. split.
  - intros k k' Hk Hk' Heq. unfold ready_fleet in Hk, Hk'.
    rewrite fleet_constituents in Hk, Hk'.
    repeat (apply elem_of_cons in Hk as [-> | Hk]);
      try (by apply elem_of_nil in Hk);
      repeat (apply elem_of_cons in Hk' as [-> | Hk']);
      try (by apply elem_of_nil in Hk');
      vm_compute in Heq; done.
  - intros body Hb. vm_compute in Hb.
    repeat (apply elem_of_cons in Hb as [-> | Hb]);
      try (by apply elem_of_nil in Hb); vm_compute; lia.
Qed.

Lemma fleet_constituent_in_range (body j : nat) :
  body < 2 -> j < 2 -> constituent_in_range ready_fleet body j.
Proof.
  intros Hb Hj.
  destruct body as [|[|body]]; [| |lia];
    (destruct j as [|[|j]]; [| |lia]); concrete_bounds.
Qed.

Lemma fleet_in_bounds (first : bool) : in_bounds (fleet first).
Proof. destruct first; (split; [reflexivity|concrete_bounds]). Qed.

Lemma set_v_writes_only_velocities_witness :
  group_ready ready_dumbbell /\
  velocity AxisX (arrays (m_pdata (set_v ready_dumbbell))) !!! 2%nat = 7%Q /\
  velocity AxisX (arrays (m_pdata (set_v ready_dumbbell))) !!! 0%nat = (1 # 400)%Q.
Proof.
  split; [reflexivity|]. split; [|reflexivity].
  destruct (set_v_writes_only_velocities ready_dumbbell) as (_ & _ & _ & _ & Hc).
  destruct (Hc eq_refl) as (Hp & _).
  destruct (Hp 2%nat) as (Hv & _); [each_constituent|].
  rewrite Hv. reflexivity.
Defined.

(** C1 fails as stated: from rest, with mass 2, a force of (1,0,0) and a
    time step of 1/100, the velocity after [integrateStepOne] is 1/400 and
    not 0.005, the centre of mass has moved by 1/40000 and not by 5e-5, and
    the velocity after [integrateStepTwo] is 1/200 and not 0.01. *)
Lemma unit_force_step_counterexample :
  let st := resting_dumbbell in
  let st1 := integrateStepOne st in
  let st2 := integrateStepTwo st1 in
  let v1 := vel (bodies (m_rigid_data st1)) !!! 0%nat in
  let v2 := vel (bodies (m_rigid_data st2)) !!! 0%nat in
  let c0 := com (bodies (m_rigid_data st)) !!! 0%nat in
  let c1 := com (bodies (m_rigid_data st1)) !!! 0%nat in
  body_mass (rconst (m_rigid_data st)) !!! 0%nat = 2%Q /\
  m_deltaT st = (1 # 100)%Q /\
  xyz_of (vel (bodies (m_rigid_data (prepared st))) !!! 0%nat)
  = make_scalar3 0%Q 0%Q 0%Q /\
  xyz_of (force (bodies (m_rigid_data st1)) !!! 0%nat)
  = make_scalar3 1%Q 0%Q 0%Q /\
  xyz_of (force (bodies (m_rigid_data st2)) !!! 0%nat)
  = make_scalar3 1%Q 0%Q 0%Q /\
  ~ (x4 v1 == 5 # 1000)%Q /\
  ~ (x4 c1 - x4 c0 == 5 # 100000)%Q /\
  ~ (x4 v2 == 1 # 100)%Q.
Proof.
  vm_compute. repeat split; try reflexivity; intros Heq; discriminate Heq.
Qed.

Lemma unit_force_step_witness :
  let st := resting_dumbbell in
  let st1 := integrateStepOne st in
  let st2 :=
    with_net_forces (net_force (m_pdata st1)) (net_torque (m_pdata st1))
                    (net_virial (m_pdata st1)) st1 in
  xyz_of (vel (bodies (m_rigid_data st1)) !!! 0%nat)
  = make_scalar3 (1 # 400)%Q 0%Q 0%Q /\
  x4 (com (bodies (m_rigid_data st1)) !!! 0%nat) = (1 # 40000)%Q /\
  orientation (bodies (m_rigid_data st1)) !!! 0%nat = identity_quat /\
  xyz_of (vel (bodies (m_rigid_data (integrateStepTwo st2))) !!! 0%nat)
  = make_scalar3 (1 # 200)%Q 0%Q 0%Q.
Proof.
  intros st st1 st2.
  assert (Hp : protocol st) by (intros Hfs; discriminate Hfs).
  assert (Hl : Forall (fun n => 0 < n)
                 (body_lengths (bodies (m_rigid_data (prepared st)))))
    by concrete_bounds.
  destruct (unit_force_step quaternion_math st 0%nat Hp eq_refl Hl eq_refl
              eq_refl eq_refl eq_refl eq_refl eq_refl)
    as (Hv & Hc & Ho & Htwo).
  - intros [lx ly lz lw] Hz. injection Hz as -> -> ->. reflexivity.
  - reflexivity.
  - reflexivity.
  - split; [exact Hv|]. split; [exact Hc|]. split; [exact Ho|].
    apply (Htwo (net_force (m_pdata st1)) (net_torque (m_pdata st1))
                (net_virial (m_pdata st1))).
    reflexivity.
Defined.

(** C2 fails as stated: in the full projection the virial term of the
    second constituent of body 1, particle 5, is 56137/1260 and the net
    virial of the particle is 2/5 as before, not increased by it. *)
Lemma virial_accumulation_counterexample :
  let st := ready_fleet in
  let st' := set_xv st in
  let massone := mass (arrays (m_pdata st)) !!! 5%nat in
  let old_vel := particle_oldvel (cache (m_rigid_data st)) !!! 3%nat in
  let old_pos := particle_oldpos (cache (m_rigid_data st)) !!! 3%nat in
  let dt_half := (s_half * m_deltaT st)%S in
  let f := net_force (m_pdata st) !!! 5%nat in
  let arr' := arrays (m_pdata st') in
  let fcx := (massone * (vx arr' !!! 5%nat - x4 old_vel) / dt_half - x4 f)%S in
  let fcy := (massone * (vy arr' !!! 5%nat - y4 old_vel) / dt_half - y4 f)%S in
  let fcz := (massone * (vz arr' !!! 5%nat - z4 old_vel) / dt_half - z4 f)%S in
  let term := (s_half * (x4 old_pos * fcx + y4 old_pos * fcy + z4 old_pos * fcz)
               / s_three)%S in
  pidx_of st 1 1 = 5%nat /\ localidx_of st 1 1 = 3%nat /\
  (term == 56137 # 1260)%Q /\
  (net_virial (m_pdata st') !!! 5%nat == 2 # 5)%Q /\
  (net_virial (m_pdata st) !!! 5%nat == 2 # 5)%Q /\
  ~ (net_virial (m_pdata st') !!! 5%nat
     == net_virial (m_pdata st) !!! 5%nat + term)%Q.
Proof.
  vm_compute. repeat split; try reflexivity; intros Heq; discriminate Heq.
Qed.

Lemma virial_two_passes_witness :
  let st := ready_fleet in
  (m_virial (set_xv st) !!! 3%nat = (56137 # 1260)%Q /\
   net_virial (m_pdata (set_xv st)) = net_virial (m_pdata st)) /\
  net_virial (m_pdata (set_v st)) !!! 5%nat = (283457 # 6300)%Q.
Proof.
  intros st.
  destruct (virial_two_passes st 1 1) as ((Hm & Hn) & Hv).
  - apply fleet_wf.
  - apply (fleet_constituent false); lia.
  - apply fleet_constituent_in_range; lia.
  - split; [split|].
    + refine (eq_trans Hm _). vm_compute. reflexivity.
    + exact Hn.
    + refine (eq_trans Hv _). vm_compute. reflexivity.
Defined.

(** C5 fails as stated: [integrateStepTwo] also writes the cached old
    velocities of the particles. *)
Lemma integrateStepTwo_counterexample :
  let st := kicked_dumbbell in
  let st' := integrateStepTwo st in
  ~ (x4 (particle_oldvel (cache (m_rigid_data st')) !!! 0%nat)
     == x4 (particle_oldvel (cache (m_rigid_data st)) !!! 0%nat))%Q.
Proof. vm_compute. intros Heq. discriminate Heq. Qed.

Lemma stepOne_wraps_once_witness :
  let st := edge_dumbbell in
  let b := bodies (m_rigid_data st) in
  let b' := bodies (m_rigid_data (integrateStepOne st)) in
  let lo := box_lo AxisX (box (m_pdata st)) in
  let hi := box_hi AxisX (box (m_pdata st)) in
  let d := drifted AxisX (com b !!! 0%nat) (vel b' !!! 0%nat) (m_deltaT st) in
  (d >=? hi)%S = true /\
  (coord AxisX (com b' !!! 0%nat) = (d - (hi - lo))%S /\
   body_image AxisX b' !!! 0%nat = (body_image AxisX b !!! 0%nat + 1)%Z) /\
  ((lo <= coord AxisX (com b' !!! 0%nat))%Q /\
   (coord AxisX (com b' !!! 0%nat) < hi)%Q) /\
  coord AxisX (com b' !!! 0%nat) = (-399999 # 80000)%Q /\
  body_image AxisX b' !!! 0%nat = 1%Z.
Proof.
  intros st b b' lo hi d.
  assert (Hp : protocol st) by (intros Hfs; discriminate Hfs).
  assert (Hnd : NoDup (m_body_group st)) by apply NoDup_singleton.
  assert (Hin : 0%nat ∈ m_body_group st) by (by apply list_elem_of_singleton).
  assert (Hl : Forall (fun n => 0 < n) (com_lengths b)) by concrete_bounds.
  assert (Hi : (INT_MIN < body_image AxisX b !!! 0%nat < INT_MAX)%Z)
    by (vm_compute; split; reflexivity).
  assert (Hge : (d >=? hi)%S = true) by (vm_compute; reflexivity).
  pose proof stepOne_wraps_once as (Hrule & Heps).
  pose proof (Hrule Q scalar_ops quaternion_math st 0%nat AxisX Hp Hnd Hin Hl Hi)
    as (Hhi & _).
  split; [exact Hge|]. split; [exact (Hhi Hge)|]. split.
  - assert (H0 : (0 < 1 # 80000)%Q) by (vm_compute; reflexivity).
    assert (H1 : (1 # 80000 < hi - lo)%Q) by (vm_compute; reflexivity).
    assert (H2 : (coord AxisX (com b !!! 0%nat) == hi - (1 # 80000))%Q)
      by (vm_compute; reflexivity).
    assert (H3 : (coord AxisX (vel b' !!! 0%nat) * m_deltaT st
                  == 2 * (1 # 80000))%Q) by (vm_compute; reflexivity).
    pose proof (Heps quaternion_math st 0%nat AxisX (1 # 80000)%Q Hp Hnd Hin Hl Hi
                     H0 H1 H2 H3) as (Hlo & Hlt & _).
    split; [exact Hlo | exact Hlt].
  - split; vm_compute; reflexivity.
Defined.

Import Binary64.

(** C3 fails as stated in binary64.  The body of [edge_body] is at the
    high bound minus [eps], with [eps] the power -55 of two, and moves
    outward by twice [eps].  The drifted coordinate rounds to the high
    bound, the difference of the bounds rounds up, and the body ends below
    the low bound, with its counter one up. *)
Lemma stepOne_wraps_once_counterexample :
  let st := Binary64.edge_body in
  let b := bodies (m_rigid_data st) in
  let b' := bodies (m_rigid_data (integrateStepOne st)) in
  let lo := box_lo AxisX (box (m_pdata st)) in
  let hi := box_hi AxisX (box (m_pdata st)) in
  let eps := 0x1p-55%float in
  protocol st /\ 0%nat ∈ m_body_group st /\
  (s_zero <? eps)%S = true /\ (eps <? hi - lo)%S = true /\
  coord AxisX (com b !!! 0%nat) = (hi - eps)%S /\
  (coord AxisX (vel b' !!! 0%nat) * m_deltaT st)%S = (s_two * eps)%S /\
  body_image AxisX b' !!! 0%nat = (body_image AxisX b !!! 0%nat + 1)%Z /\
  coord AxisX (com b' !!! 0%nat) = (-0x1.3333333333334p-2)%float /\
  (coord AxisX (com b' !!! 0%nat) <? lo)%S = true.
Proof.
  split; [intros _; reflexivity|].
  split; [by apply list_elem_of_singleton|].
  vm_compute. repeat split.
Qed.

Lemma getNDOF_counts_witness :
  let groupIntersection := fun g q : list nat => filter (fun p => p ∈ q) g in
  let RigidBodyGroup := fun g : list nat => if decide (g = []) then [] else [0%nat] in
  snd (getNDOF groupIntersection RigidBodyGroup resting_dumbbell [0%nat; 1%nat])
  = 5%Z.
Proof.
  intros groupIntersection RigidBodyGroup.
  destruct (getNDOF_counts groupIntersection RigidBodyGroup resting_dumbbell
              [0%nat; 1%nat]) as (_ & H3 & _).
  - vm_compute. reflexivity.
  - refine (eq_trans (H3 eq_refl) _). vm_compute. reflexivity.
Defined.

Lemma empty_group_no_op_witness :
  m_rigid_data (integrateStepOne (no_body true)) = m_rigid_data (no_body true) /\
  m_pdata (integrateStepTwo (integrateStepOne (no_body true)))
  = m_pdata (no_body true) /\
  integrateStepTwo (no_body false) = no_body false.
Proof.
  destruct (empty_group_no_op (no_body true)) as ((Hrd & _) & _ & (_ & Hpd)).
  - reflexivity.
  - intros Hfs. discriminate Hfs.
  - destruct (empty_group_no_op (no_body false)) as (_ & Htwo & _).
    + reflexivity.
    + intros _. reflexivity.
    + split; [exact Hrd|]. split; [exact Hpd|]. exact (Htwo eq_refl).
Defined.

Lemma set_xv_positions_witness :
  let rc := rconst (m_rigid_data ready_fleet) in
  let pidx := particle_indices rc !!! (1 * indices_pitch rc + 1)%nat in
  let arr' := arrays (m_pdata (set_xv ready_fleet)) in
  pidx = 5%nat /\
  position AxisX arr' !!! pidx = (-49 # 10)%Q /\
  image AxisX arr' !!! pidx = 2%Z.
Proof.
  intros rc pidx arr'. subst rc pidx arr'.
  destruct (set_xv_positions ready_fleet 1 1 AxisX) as (Hhi & _).
  - apply fleet_wf.
  - apply (fleet_constituent false); lia.
  - apply fleet_constituent_in_range; lia.
  - vm_compute. split; reflexivity.
  - destruct (Hhi eq_refl) as (Hc & Himg). split; [reflexivity|]. split.
    + refine (eq_trans Hc _). vm_compute. reflexivity.
    + refine (eq_trans Himg _). vm_compute. reflexivity.
Defined.

(** * More properties *)

(** ** Bodies are updated independently *)

Section Locality.

Context {Scalar : Type} `{ScalarOps Scalar} `{QuaternionMath Scalar}.

(** The bounds of [body_in_range], one by one. *)
Ltac body_bounds H :=
  unfold body_in_range, body_lengths in H;
  repeat match type of H with
         | Forall _ (_ :: _) =>
             let Hb := fresh "Hb" in apply Forall_cons in H as (Hb & H)
         end;
  clear H.

(** The loop bodies of the integrator, unfolded. *)
Ltac unfold_step :=
  unfold force_reset_body, force_accumulate_particle, setup_reset_body,
    setup_accumulate_particle, setup_finalize_body, integrateStepOne_body,
    integrateStepTwo_body;
  cbn [com vel angmom angvel orientation ex_space ey_space ez_space force torque
       body_imagex body_imagey body_imagez].

Ltac split_flag :=
  repeat match goal with
         | |- context [if ?c then _ else _] => destruct c
         end.

Ltac local_step :=
  constructor;
  [ intros body b; unfold body_lengths; unfold_step; split_flag;
    rewrite ?length_insert; reflexivity
  | intros body' body b Hne; unfold body_at; unfold_step; split_flag;
    rewrite ?list_lookup_total_insert_ne by done; reflexivity
  | intros body b b' Hr Hr' Heq; body_bounds Hr; body_bounds Hr';
    unfold body_at in Heq; injection Heq; intros;
    unfold body_at; unfold_step; split_flag;
    rewrite ?list_lookup_total_insert_eq by done;
    repeat match goal with
           | Hq : _ !!! _ = _ !!! _ |- _ => try rewrite Hq; clear Hq
           end;
    reflexivity
  | intros body body' b Hne; unfold_step; split_flag;
    rewrite ?list_lookup_total_insert_ne by done;
    f_equal; try reflexivity; by apply list_insert_insert_ne ].

Lemma force_reset_body_local : LocalStep force_reset_body.
Proof. local_step. Qed.

Lemma integrateStepOne_body_local (rc : RigidConst Scalar) (bx : BoxDim Scalar)
  (deltaT : Scalar) : LocalStep (integrateStepOne_body rc bx deltaT).
Proof. local_step. Qed.

Lemma integrateStepTwo_body_local (rc : RigidConst Scalar) (deltaT : Scalar) :
  LocalStep (integrateStepTwo_body rc deltaT).
Proof. local_step. Qed.

Lemma setup_reset_body_local (rc : RigidConst Scalar) :
  LocalStep (setup_reset_body rc).
Proof. local_step. Qed.

Lemma setup_finalize_body_local (rc : RigidConst Scalar) :
  LocalStep (setup_finalize_body rc).
Proof. local_step. Qed.

Lemma force_accumulate_particle_local (rc : RigidConst Scalar)
  (nf nt : list (Scalar4 Scalar)) (j : nat) :
  LocalStep (fun body => force_accumulate_particle rc nf nt body j).
Proof. local_step. Qed.

Lemma force_accumulate_particle_commute (rc : RigidConst Scalar)
  (nf nt : list (Scalar4 Scalar)) (body body' j j' : nat)
  (b : RigidBodies Scalar) :
  body <> body' ->
  force_accumulate_particle rc nf nt body j
    (force_accumulate_particle rc nf nt body' j' b)
  = force_accumulate_particle rc nf nt body' j'
      (force_accumulate_particle rc nf nt body j b).
Proof.
  intros Hne. unfold_step. rewrite ?list_lookup_total_insert_ne by done.
  f_equal; try reflexivity; by apply list_insert_insert_ne.
Qed.

Lemma setup_accumulate_particle_local (rc : RigidConst Scalar)
  (arr : ParticleDataArrays Scalar) (nf : list (Scalar4 Scalar)) (j : nat) :
  LocalStep (fun body => setup_accumulate_particle rc arr nf body j).
Proof. local_step. Qed.

Lemma setup_accumulate_particle_commute (rc : RigidConst Scalar)
  (arr : ParticleDataArrays Scalar) (nf : list (Scalar4 Scalar))
  (body body' j j' : nat) (b : RigidBodies Scalar) :
  body <> body' ->
  setup_accumulate_particle rc arr nf body j
    (setup_accumulate_particle rc arr nf body' j' b)
  = setup_accumulate_particle rc arr nf body' j'
      (setup_accumulate_particle rc arr nf body j b).
Proof.
  intros Hne. unfold_step. split_flag;
    rewrite ?list_lookup_total_insert_ne by done;
    f_equal; try reflexivity; by apply list_insert_insert_ne.
Qed.

Lemma body_in_range_lengths (b b' : RigidBodies Scalar) (body : nat) :
  body_lengths b' = body_lengths b ->
  body_in_range b body -> body_in_range b' body.
Proof. unfold body_in_range. by intros ->. Qed.

(** An inner loop over the constituents of a body is local when its body
    is. *)
Lemma for_each_j_local (len : nat -> nat)
  (p : nat -> nat -> RigidBodies Scalar -> RigidBodies Scalar) :
  (forall j, LocalStep (fun body => p body j)) ->
  (forall body body' j j' b,
      body <> body' -> p body j (p body' j' b) = p body' j' (p body j b)) ->
  LocalStep (fun body b => for_each_j (len body) (p body) b).
Proof.
  intros Hp Hcomm. constructor.
  - intros body b.
    apply (for_each_j_preserves (fun b' => body_lengths b' = body_lengths b));
      [|done].
    intros j b' _ <-. apply (local_lengths _ (Hp j)).
  - intros body' body b Hne.
    apply (for_each_j_preserves (fun b' => body_at b' body = body_at b body));
      [|done].
    intros j b' _ <-. by apply (local_other _ (Hp j)).
  - intros body b b'. unfold for_each_j. generalize (seq 0 (len body)) as l.
    intros l. revert b b'. induction l as [|j l IH]; intros b b' Hr Hr' Heq;
      simpl; [done|].
    apply IH.
    + apply (body_in_range_lengths b); [|done]. apply (local_lengths _ (Hp j)).
    + apply (body_in_range_lengths b'); [|done]. apply (local_lengths _ (Hp j)).
    + by apply (local_own _ (Hp j)).
  - intros body body' b Hne. unfold for_each_j.
    generalize (seq 0 (len body)) as l. generalize (seq 0 (len body')) as l'.
    intros l' l.
    assert (Hone : forall j b0,
               p body j (fold_left (fun acc j' => p body' j' acc) l' b0)
               = fold_left (fun acc j' => p body' j' acc) l' (p body j b0)).
    { intros j. induction l' as [|j' l' IH']; intros b0; simpl; [done|].
      rewrite IH'. f_equal. by apply Hcomm. }
    revert b. induction l as [|j l IH]; intros b; simpl; [done|].
    by rewrite Hone, IH.
Qed.

Lemma force_accumulate_body_local (rc : RigidConst Scalar)
  (nf nt : list (Scalar4 Scalar)) :
  LocalStep (force_accumulate_body rc nf nt).
Proof.
  apply (for_each_j_local (fun body => body_size rc !!! body)
           (force_accumulate_particle rc nf nt)).
  - apply force_accumulate_particle_local.
  - intros. by apply force_accumulate_particle_commute.
Qed.

Lemma setup_accumulate_body_local (rc : RigidConst Scalar)
  (arr : ParticleDataArrays Scalar) (nf : list (Scalar4 Scalar)) :
  LocalStep (setup_accumulate_body rc arr nf).
Proof.
  apply (for_each_j_local (fun body => body_size rc !!! body)
           (setup_accumulate_particle rc arr nf)).
  - apply setup_accumulate_particle_local.
  - intros. by apply setup_accumulate_particle_commute.
Qed.

(** *** A loop over the group *)

Lemma loop_lengths (f : nat -> RigidBodies Scalar -> RigidBodies Scalar)
  (g : list nat) (b : RigidBodies Scalar) :
  LocalStep f ->
  body_lengths (fold_left (fun acc body => f body acc) g b) = body_lengths b.
Proof.
  intros Hf.
  apply (fold_left_preserves f (fun b' => body_lengths b' = body_lengths b));
    [|done].
  intros body b' _ <-. apply (local_lengths _ Hf).
Qed.

Lemma loop_outside (f : nat -> RigidBodies Scalar -> RigidBodies Scalar)
  (g : list nat) (body : nat) (b : RigidBodies Scalar) :
  LocalStep f ->
  body ∉ g ->
  body_at (fold_left (fun acc body' => f body' acc) g b) body = body_at b body.
Proof.
  intros Hf Hout.
  apply (fold_left_preserves f (fun b' => body_at b' body = body_at b body));
    [|done].
  intros body' b' Hin <-. apply (local_other _ Hf). by intros ->.
Qed.

Lemma loop_at (f : nat -> RigidBodies Scalar -> RigidBodies Scalar)
  (g : list nat) (body : nat) (b : RigidBodies Scalar) :
  LocalStep f ->
  NoDup g -> body ∈ g -> body_in_range b body ->
  body_at (fold_left (fun acc body' => f body' acc) g b) body
  = body_at (f body b) body.
Proof.
  intros Hf Hnd Hin Hr.
  apply (fold_left_split_inv f
           (fun b' => body_in_range b' body /\ body_at b' body = body_at b body)
           (fun b' => body_at b' body = body_at (f body b) body) g body);
    try done.
  - intros body' b' _ Hne (Hr' & Heq). split.
    + apply (body_in_range_lengths b'); [|done]. apply (local_lengths _ Hf).
    + rewrite <- Heq. by apply (local_other _ Hf).
  - intros b' (Hr' & Heq). by apply (local_own _ Hf).
  - intros body' b' _ Hne <-. by apply (local_other _ Hf).
Qed.

Lemma loop_permutation (f : nat -> RigidBodies Scalar -> RigidBodies Scalar)
  (g g' : list nat) (b : RigidBodies Scalar) :
  LocalStep f ->
  g ≡ₚ g' ->
  fold_left (fun acc body => f body acc) g b
  = fold_left (fun acc body => f body acc) g' b.
Proof.
  intros Hf Hperm. revert b.
  induction Hperm as [|x l l' _ IH|x y l|l l' l'' _ IH1 _ IH2]; intros b; simpl.
  - done.
  - apply IH.
  - destruct (decide (x = y)) as [->|Hne]; [done|].
    f_equal. by apply (local_commute _ Hf).
  - by rewrite IH1.
Qed.

(** *** The methods, body by body *)

Lemma computeForceAndTorque_bodies (st : State Scalar) :
  group_ready st ->
  bodies (m_rigid_data (computeForceAndTorque st))
  = fold_left
      (fun b body =>
         force_accumulate_body (rconst (m_rigid_data st)) (net_force (m_pdata st))
                               (net_torque (m_pdata st)) body b)
      (m_body_group st)
      (fold_left (fun b body => force_reset_body body b) (m_body_group st)
                 (bodies (m_rigid_data st))).
Proof.
  intros Hready. unfold computeForceAndTorque.
  cbn [with_bodies bodies m_rigid_data].
  by rewrite Hready, !for_each_body_members.
Qed.

(** Two loops over a group of distinct bodies act on a body of the group
    as their bodies one after the other. *)
Lemma two_loops_at (f1 f2 : nat -> RigidBodies Scalar -> RigidBodies Scalar)
  (g : list nat) (body : nat) (b : RigidBodies Scalar) :
  LocalStep f1 -> LocalStep f2 ->
  NoDup g -> body ∈ g -> body_in_range b body ->
  body_at (fold_left (fun acc body' => f2 body' acc) g
             (fold_left (fun acc body' => f1 body' acc) g b)) body
  = body_at (f2 body (f1 body b)) body.
Proof.
  intros H1 H2 Hnd Hin Hr.
  set (b1 := fold_left (fun acc body' => f1 body' acc) g b).
  assert (Hr1 : body_in_range b1 body).
  { apply (body_in_range_lengths b); [|done]. by apply loop_lengths. }
  rewrite (loop_at f2 g body b1) by done.
  apply (local_own _ H2); [done| |].
  - apply (body_in_range_lengths b); [|done]. apply (local_lengths _ H1).
  - by apply loop_at.
Qed.

Lemma computeForceAndTorque_at (st : State Scalar) (body : nat) :
  group_ready st -> NoDup (m_body_group st) -> body ∈ m_body_group st ->
  body_in_range (bodies (m_rigid_data st)) body ->
  body_at (bodies (m_rigid_data (computeForceAndTorque st))) body
  = body_at (aggregate_body st body (bodies (m_rigid_data st))) body.
Proof.
  intros Hready Hnd Hin Hr. rewrite computeForceAndTorque_bodies by done.
  apply (two_loops_at force_reset_body
           (force_accumulate_body (rconst (m_rigid_data st))
              (net_force (m_pdata st)) (net_torque (m_pdata st)))); try done.
  - apply force_reset_body_local.
  - apply force_accumulate_body_local.
Qed.

Lemma computeForceAndTorque_outside (st : State Scalar) (body : nat) :
  group_ready st -> body ∉ m_body_group st ->
  body_at (bodies (m_rigid_data (computeForceAndTorque st))) body
  = body_at (bodies (m_rigid_data st)) body.
Proof.
  intros Hready Hout. rewrite computeForceAndTorque_bodies by done.
  rewrite loop_outside; [|apply force_accumulate_body_local|done].
  apply loop_outside; [apply force_reset_body_local|done].
Qed.

Lemma setup_at (st : State Scalar) (body : nat) :
  NoDup (m_body_group st) -> body ∈ m_body_group st ->
  body_in_range (bodies (m_rigid_data st)) body ->
  body_at (bodies (m_rigid_data (setup st))) body
  = body_at (setup_body st body (bodies (m_rigid_data st))) body.
Proof.
  intros Hnd Hin Hr.
  assert (Hne : m_body_group st <> []).
  { intros Hg. rewrite Hg in Hin. by apply elem_of_nil in Hin. }
  rewrite setup_bodies by done. cbv zeta.
  set (rc := rconst (m_rigid_data st)). set (g := m_body_group st).
  set (b := bodies (m_rigid_data st)).
  set (acc := setup_accumulate_body rc (arrays (m_pdata st))
                                    (net_force (m_pdata st))).
  set (b2 := fold_left (fun b0 body0 => acc body0 b0) g
               (fold_left (fun b0 body0 => setup_reset_body rc body0 b0) g b)).
  assert (Hl2 : body_lengths b2 = body_lengths b).
  { unfold b2. rewrite loop_lengths by apply setup_accumulate_body_local.
    apply loop_lengths. apply setup_reset_body_local. }
  rewrite (loop_at (setup_finalize_body rc) g body b2);
    [|apply setup_finalize_body_local|done|done
     |by apply (body_in_range_lengths b)].
  unfold setup_body. fold rc acc.
  apply (local_own _ (setup_finalize_body_local rc)).
  - by apply (body_in_range_lengths b).
  - apply (body_in_range_lengths b); [|done].
    unfold acc.
    rewrite (local_lengths _ (setup_accumulate_body_local rc _ _)).
    apply (local_lengths _ (setup_reset_body_local rc)).
  - apply (two_loops_at (setup_reset_body rc) acc); try done.
    + apply setup_reset_body_local.
    + apply setup_accumulate_body_local.
Qed.

Lemma setup_outside (st : State Scalar) (body : nat) :
  body ∉ m_body_group st ->
  body_at (bodies (m_rigid_data (setup st))) body
  = body_at (bodies (m_rigid_data st)) body.
Proof.
  intros Hout. destruct (decide (m_body_group st = [])) as [Hg|Hg].
  - unfold setup. by rewrite Hg.
  - rewrite setup_bodies by done. cbv zeta.
    rewrite loop_outside; [|apply setup_finalize_body_local|done].
    rewrite loop_outside; [|apply setup_accumulate_body_local|done].
    apply loop_outside; [apply setup_reset_body_local|done].
Qed.

Lemma integrateStepOne_at (st : State Scalar) (body : nat) :
  protocol st -> NoDup (m_body_group st) -> body ∈ m_body_group st ->
  body_in_range (bodies (m_rigid_data (prepared st))) body ->
  body_at (bodies (m_rigid_data (integrateStepOne st))) body
  = body_at (integrateStepOne_body (rconst (m_rigid_data st)) (box (m_pdata st))
               (m_deltaT st) body (bodies (m_rigid_data (prepared st)))) body.
Proof.
  intros Hp Hnd Hin Hr.
  assert (Hne : m_body_group st <> []).
  { intros Hg. rewrite Hg in Hin. by apply elem_of_nil in Hin. }
  rewrite (integrateStepOne_bodies st Hp Hne).
  apply loop_at; try done. apply integrateStepOne_body_local.
Qed.

Lemma integrateStepOne_outside (st : State Scalar) (body : nat) :
  protocol st -> body ∉ m_body_group st ->
  body_at (bodies (m_rigid_data (integrateStepOne st))) body
  = body_at (bodies (m_rigid_data (prepared st))) body.
Proof.
  intros Hp Hout. destruct (decide (m_body_group st = [])) as [Hg|Hg].
  - destruct (prepared_frame st Hp) as (_ & _ & _ & _ & Hn & _).
    unfold integrateStepOne. fold (prepared st). rewrite Hn, Hg. done.
  - rewrite (integrateStepOne_bodies st Hp Hg).
    apply loop_outside; [apply integrateStepOne_body_local|done].
Qed.

Lemma integrateStepTwo_at (st : State Scalar) (body : nat) :
  group_ready st -> NoDup (m_body_group st) -> body ∈ m_body_group st ->
  body_in_range (bodies (m_rigid_data st)) body ->
  body_at (bodies (m_rigid_data (integrateStepTwo st))) body
  = body_at (integrateStepTwo_body (rconst (m_rigid_data st)) (m_deltaT st) body
               (aggregate_body st body (bodies (m_rigid_data st)))) body.
Proof.
  intros Hready Hnd Hin Hr.
  assert (Hne : m_body_group st <> []).
  { intros Hg. rewrite Hg in Hin. by apply elem_of_nil in Hin. }
  rewrite (integrateStepTwo_bodies st Hready Hne).
  set (two := integrateStepTwo_body (rconst (m_rigid_data st)) (m_deltaT st)).
  assert (Hl : body_lengths (bodies (m_rigid_data (computeForceAndTorque st)))
               = body_lengths (bodies (m_rigid_data st))).
  { rewrite computeForceAndTorque_bodies by done.
    rewrite loop_lengths by apply force_accumulate_body_local.
    apply loop_lengths. apply force_reset_body_local. }
  rewrite (loop_at two); [|apply integrateStepTwo_body_local|done|done
                          |by apply (body_in_range_lengths
                                       (bodies (m_rigid_data st)))].
  apply (local_own _ (integrateStepTwo_body_local _ _)).
  - by apply (body_in_range_lengths (bodies (m_rigid_data st))).
  - apply (body_in_range_lengths (bodies (m_rigid_data st))); [|done].
    unfold aggregate_body.
    rewrite (local_lengths _ (force_accumulate_body_local _ _ _)).
    apply (local_lengths _ force_reset_body_local).
  - by apply computeForceAndTorque_at.
Qed.

Lemma integrateStepTwo_outside (st : State Scalar) (body : nat) :
  group_ready st -> body ∉ m_body_group st ->
  body_at (bodies (m_rigid_data (integrateStepTwo st))) body
  = body_at (bodies (m_rigid_data st)) body.
Proof.
  intros Hready Hout. destruct (decide (m_body_group st = [])) as [Hg|Hg].
  - unfold integrateStepTwo. rewrite Hready, Hg. done.
  - rewrite (integrateStepTwo_bodies st Hready Hg).
    rewrite loop_outside; [|apply integrateStepTwo_body_local|done].
    by apply computeForceAndTorque_outside.
Qed.

(** *** Sums over the constituents *)

Lemma force_accumulate_sums (st : State Scalar) (body : nat) (l : list nat)
  (b : RigidBodies Scalar) :
  ex_space b = ex_space (bodies (m_rigid_data st)) ->
  ey_space b = ey_space (bodies (m_rigid_data st)) ->
  ez_space b = ez_space (bodies (m_rigid_data st)) ->
  body < length (force b) -> body < length (torque b) ->
  let b' := fold_left
              (fun acc j =>
                 force_accumulate_particle (rconst (m_rigid_data st))
                   (net_force (m_pdata st)) (net_torque (m_pdata st)) body j acc)
              l b in
  force b' !!! body
  = with_xyz (force b !!! body)
      (fold_left (fun acc j => force_term st body j acc) l
                 (xyz_of (force b !!! body))) /\
  torque b' !!! body
  = with_xyz (torque b !!! body)
      (fold_left (fun acc j => torque_term st body j acc) l
                 (xyz_of (torque b !!! body))).
Proof.
  revert b. induction l as [|j l IH]; intros b Hex Hey Hez Hf Ht.
  - simpl. unfold with_xyz, set_xyz, xyz_of. simpl.
    by destruct (force b !!! body), (torque b !!! body).
  - cbn [fold_left].
    set (b1 := force_accumulate_particle _ _ _ body j b).
    assert (H1 : force b1 !!! body
                 = with_xyz (force b !!! body)
                     (force_term st body j (xyz_of (force b !!! body)))).
    { subst b1. cbn [force force_accumulate_particle].
      by rewrite list_lookup_total_insert_eq. }
    assert (H2 : torque b1 !!! body
                 = with_xyz (torque b !!! body)
                     (torque_term st body j (xyz_of (torque b !!! body)))).
    { subst b1. cbn [torque force_accumulate_particle].
      rewrite list_lookup_total_insert_eq by done.
      unfold torque_term, offset_of, pidx_of, localidx_of, with_xyz, xyz_of.
      cbn [x3 y3 z3 x4 y4 z4]. by rewrite Hex, Hey, Hez. }
    destruct (IH b1) as (Hforce & Htorque); try done.
    { subst b1. cbn [force force_accumulate_particle]. by rewrite length_insert. }
    { subst b1. cbn [torque force_accumulate_particle]. by rewrite length_insert. }
    cbv zeta in Hforce, Htorque. rewrite Hforce, Htorque, H1, H2. done.
Qed.

Lemma setup_accumulate_sums (st : State Scalar) (body : nat) (l : list nat)
  (b : RigidBodies Scalar) :
  ex_space b = ex_space (bodies (m_rigid_data st)) ->
  ey_space b = ey_space (bodies (m_rigid_data st)) ->
  ez_space b = ez_space (bodies (m_rigid_data st)) ->
  body < length (vel b) -> body < length (force b) -> body < length (torque b) ->
  let b' := fold_left
              (fun acc j =>
                 setup_accumulate_particle (rconst (m_rigid_data st))
                   (arrays (m_pdata st)) (net_force (m_pdata st)) body j acc)
              l b in
  vel b' !!! body
  = with_xyz (vel b !!! body)
      (fold_left (fun acc j => momentum_term st body j acc) l
                 (xyz_of (vel b !!! body))) /\
  force b' !!! body
  = with_xyz (force b !!! body)
      (fold_left (fun acc j => force_term st body j acc) l
                 (xyz_of (force b !!! body))) /\
  torque b' !!! body
  = with_xyz (torque b !!! body)
      (fold_left (fun acc j => lever_term st body j acc) l
                 (xyz_of (torque b !!! body))).
Proof.
  revert b. induction l as [|j l IH]; intros b Hex Hey Hez Hv Hf Ht.
  - simpl. unfold with_xyz, set_xyz, xyz_of. simpl.
    by destruct (vel b !!! body), (force b !!! body), (torque b !!! body).
  - cbn [fold_left].
    set (b1 := setup_accumulate_particle _ _ _ body j b).
    assert (Hv0 : vel b1 !!! body
                 = with_xyz (vel b !!! body)
                     (momentum_term st body j (xyz_of (vel b !!! body)))).
    { subst b1. cbn [vel setup_accumulate_particle].
      by rewrite list_lookup_total_insert_eq. }
    assert (Hf1 : force b1 !!! body
                 = with_xyz (force b !!! body)
                     (force_term st body j (xyz_of (force b !!! body)))).
    { subst b1. cbn [force setup_accumulate_particle].
      by rewrite list_lookup_total_insert_eq. }
    assert (Ht2 : torque b1 !!! body
                 = with_xyz (torque b !!! body)
                     (lever_term st body j (xyz_of (torque b !!! body)))).
    { subst b1. cbn [torque setup_accumulate_particle].
      rewrite list_lookup_total_insert_eq by done.
      unfold lever_term, offset_of, pidx_of, localidx_of, with_xyz, xyz_of.
      cbn [x3 y3 z3 x4 y4 z4]. by rewrite Hex, Hey, Hez. }
    destruct (IH b1) as (Hvel & Hforce & Htorque); try done.
    { subst b1. cbn [vel setup_accumulate_particle]. by rewrite length_insert. }
    { subst b1. cbn [force setup_accumulate_particle]. by rewrite length_insert. }
    { subst b1. cbn [torque setup_accumulate_particle]. by rewrite length_insert. }
    cbv zeta in Hvel, Hforce, Htorque.
    rewrite Hvel, Hforce, Htorque, Hv0, Hf1, Ht2. done.
Qed.

Lemma body_in_range_lt (b : RigidBodies Scalar) (body n : nat) :
  body_in_range b body -> In n (body_lengths b) -> body < n.
Proof.
  intros Hr Hn. unfold body_in_range in Hr.
  rewrite Forall_forall in Hr. apply Hr. by apply list_elem_of_In.
Qed.

(** A bound of [body_in_range]. *)
Ltac in_lengths Hr :=
  apply (body_in_range_lt _ _ _ Hr); unfold body_lengths; simpl; tauto.

Lemma body_at_force (b b' : RigidBodies Scalar) (body : nat) :
  body_at b body = body_at b' body ->
  force b !!! body = force b' !!! body /\ torque b !!! body = torque b' !!! body.
Proof.
  intros Hat. split.
  - pose proof (f_equal (fun r => force r) Hat) as E.
    cbn [force body_at] in E. by injection E.
  - pose proof (f_equal (fun r => torque r) Hat) as E.
    cbn [torque body_at] in E. by injection E.
Qed.

Lemma body_at_vel (b b' : RigidBodies Scalar) (body : nat) :
  body_at b body = body_at b' body ->
  vel b !!! body = vel b' !!! body /\ angmom b !!! body = angmom b' !!! body /\
  angvel b !!! body = angvel b' !!! body.
Proof.
  intros Hat. repeat split.
  - pose proof (f_equal (fun r => vel r) Hat) as E.
    cbn [vel body_at] in E. by injection E.
  - pose proof (f_equal (fun r => angmom r) Hat) as E.
    cbn [angmom body_at] in E. by injection E.
  - pose proof (f_equal (fun r => angvel r) Hat) as E.
    cbn [angvel body_at] in E. by injection E.
Qed.

Lemma with_xyz_reset (v : Scalar4 Scalar) (a b c : Scalar) (t : Scalar3 Scalar) :
  with_xyz (set_xyz v a b c) t = with_xyz v t.
Proof. done. Qed.

Lemma aggregate_body_sums (st : State Scalar) (body : nat) (b : RigidBodies Scalar) :
  ex_space b = ex_space (bodies (m_rigid_data st)) ->
  ey_space b = ey_space (bodies (m_rigid_data st)) ->
  ez_space b = ez_space (bodies (m_rigid_data st)) ->
  body_in_range b body ->
  force (aggregate_body st body b) !!! body
  = with_xyz (force b !!! body) (force_sum st body) /\
  torque (aggregate_body st body b) !!! body
  = with_xyz (torque b !!! body) (torque_sum st body).
Proof.
  intros Hex Hey Hez Hr.
  assert (Hf : body < length (force b)) by in_lengths Hr.
  assert (Ht : body < length (torque b)) by in_lengths Hr.
  unfold aggregate_body, force_accumulate_body, for_each_j.
  destruct (force_accumulate_sums st body
              (seq 0 (body_size (rconst (m_rigid_data st)) !!! body))
              (force_reset_body body b)) as (H1 & H2); try done.
  { cbn [force force_reset_body]. by rewrite length_insert. }
  { cbn [torque force_reset_body]. by rewrite length_insert. }
  cbv zeta in H1, H2. split.
  - etrans; [exact H1|]. cbn [force force_reset_body].
    rewrite list_lookup_total_insert_eq by done. rewrite with_xyz_reset.
    unfold force_sum, for_each_j, zero3, xyz_of, set_xyz. done.
  - etrans; [exact H2|]. cbn [torque force_reset_body].
    rewrite list_lookup_total_insert_eq by done. rewrite with_xyz_reset.
    unfold torque_sum, for_each_j, zero3, xyz_of, set_xyz. done.
Qed.

(** X1. [computeForceAndTorque] gives every body of the group, as its
    force, the sum of the net forces of its constituents, and as its torque
    the sum over its constituents of [r x f] plus the net torque of the
    particle, [r] being the position of the constituent rotated into the
    space frame.  Both sums start from zero and run in the order of the
    constituents: the force and torque the body had play no role, and the
    fourth component of each is kept. *)
Theorem computeForceAndTorque_sums (st : State Scalar) (body : nat) :
  group_ready st -> NoDup (m_body_group st) -> body ∈ m_body_group st ->
  body_in_range (bodies (m_rigid_data st)) body ->
  let b := bodies (m_rigid_data st) in
  let b' := bodies (m_rigid_data (computeForceAndTorque st)) in
  force b' !!! body = with_xyz (force b !!! body) (force_sum st body) /\
  torque b' !!! body = with_xyz (torque b !!! body) (torque_sum st body).
Proof.
  intros Hready Hnd Hin Hr b b'.
  destruct (body_at_force _ _ _ (computeForceAndTorque_at st body Hready Hnd Hin Hr))
    as (Hf & Ht).
  subst b b'. rewrite Hf, Ht. by apply aggregate_body_sums.
Qed.

Lemma computeForceAndTorque_erase_forces (st : State Scalar) :
  erase_forces (bodies (m_rigid_data (computeForceAndTorque st)))
  = erase_forces (bodies (m_rigid_data st)).
Proof.
  unfold computeForceAndTorque. cbn [with_bodies bodies m_rigid_data].
  set (P := fun b : RigidBodies Scalar =>
              erase_forces b = erase_forces (bodies (m_rigid_data st))).
  apply (for_each_body_preserves P).
  { intros body b Hb. unfold force_accumulate_body.
    apply (for_each_j_preserves P); [|done].
    intros j b' _ Hb'. unfold P in *. by rewrite <- Hb'. }
  apply (for_each_body_preserves P); [|done].
  intros body b Hb. unfold P in *. by rewrite <- Hb.
Qed.

(** X2. [computeForceAndTorque] writes the force and the torque of the
    bodies and nothing else: the rest of the state, and every other
    per-body array, come back as they were.  The two arrays keep their
    lengths, and a body that is not in the group of the integrator keeps
    its force and its torque. *)
Theorem computeForceAndTorque_frame (st : State Scalar) :
  group_ready st ->
  let b := bodies (m_rigid_data st) in
  let st' := computeForceAndTorque st in
  let b' := bodies (m_rigid_data st') in
  st' = with_bodies b' st /\
  erase_forces b' = erase_forces b /\
  length (force b') = length (force b) /\
  length (torque b') = length (torque b) /\
  forall body,
    body ∉ m_body_group st ->
    force b' !!! body = force b !!! body /\ torque b' !!! body = torque b !!! body.
Proof.
  intros Hready b st' b'. split; [done|]. split.
  { apply computeForceAndTorque_erase_forces. }
  assert (Hl : body_lengths b' = body_lengths b).
  { subst b b' st'. rewrite computeForceAndTorque_bodies by done.
    rewrite loop_lengths by apply force_accumulate_body_local.
    apply loop_lengths. apply force_reset_body_local. }
  unfold body_lengths in Hl.
  split; [by injection Hl|]. split; [by injection Hl|].
  intros body Hout. apply body_at_force.
  by apply computeForceAndTorque_outside.
Qed.

Lemma setup_accumulate_body_reads (st : State Scalar) (body : nat)
  (b : RigidBodies Scalar) :
  let b' := setup_accumulate_body (rconst (m_rigid_data st)) (arrays (m_pdata st))
              (net_force (m_pdata st)) body b in
  ex_space b' = ex_space b /\ ey_space b' = ey_space b /\
  ez_space b' = ez_space b /\ angvel b' = angvel b.
Proof.
  unfold setup_accumulate_body.
  apply (for_each_j_preserves
           (fun b' => ex_space b' = ex_space b /\ ey_space b' = ey_space b /\
                      ez_space b' = ez_space b /\ angvel b' = angvel b)); [|done].
  by intros j b' _ Hb'.
Qed.

Lemma setup_body_values (st : State Scalar) (body : nat) :
  body_in_range (bodies (m_rigid_data st)) body ->
  let rc := rconst (m_rigid_data st) in
  let b := bodies (m_rigid_data st) in
  let b' := setup_body st body b in
  let P := momentum_sum st body in
  let M := body_mass rc !!! body in
  vel b' !!! body
  = set_xyz (vel b !!! body) (x3 P / M)%S (y3 P / M)%S (z3 P / M)%S /\
  force b' !!! body = with_xyz (force b !!! body) (force_sum st body) /\
  torque b' !!! body = with_xyz (torque b !!! body) (lever_sum st body) /\
  angvel b' !!! body
  = computeAngularVelocity (angmom b' !!! body) (moment_inertia rc !!! body)
      (ex_space b !!! body) (ey_space b !!! body) (ez_space b !!! body)
      (angvel b !!! body).
Proof.
  intros Hr rc b b' P M.
  assert (Hv : body < length (vel b)) by in_lengths Hr.
  assert (Hf : body < length (force b)) by in_lengths Hr.
  assert (Ht : body < length (torque b)) by in_lengths Hr.
  assert (Hw : body < length (angvel b)) by in_lengths Hr.
  set (b1 := setup_reset_body rc body b).
  set (b2 := setup_accumulate_body rc (arrays (m_pdata st))
               (net_force (m_pdata st)) body b1).
  destruct (setup_accumulate_body_reads st body b1)
    as (Hex & Hey & Hez & Hang).
  cbv zeta in Hex, Hey, Hez, Hang. fold rc b2 in Hex, Hey, Hez, Hang.
  destruct (setup_accumulate_sums st body
              (seq 0 (body_size rc !!! body)) b1) as (H1 & H2 & H3); try done.
  { subst b1. cbn [vel setup_reset_body]. by rewrite length_insert. }
  { subst b1. cbn [force setup_reset_body]. by rewrite length_insert. }
  { subst b1. cbn [torque setup_reset_body]. by rewrite length_insert. }
  cbv zeta in H1, H2, H3.
  assert (Hl2 : length (vel b2) = length (vel b)).
  { pose proof (local_lengths _ (setup_accumulate_body_local rc
                  (arrays (m_pdata st)) (net_force (m_pdata st))) body b1) as Hl.
    pose proof (local_lengths _ (setup_reset_body_local rc) body b) as Hl'.
    fold b1 in Hl'. fold b2 in Hl. rewrite Hl' in Hl.
    unfold body_lengths in Hl. by injection Hl. }
  assert (Hw2 : length (angvel b2) = length (angvel b)) by by rewrite Hang.
  assert (E1 : vel b2 !!! body = with_xyz (vel b !!! body) P).
  { etrans; [exact H1|]. subst b1. cbn [vel setup_reset_body].
    rewrite list_lookup_total_insert_eq by done. rewrite with_xyz_reset.
    unfold P, momentum_sum, for_each_j, zero3, xyz_of, set_xyz. done. }
  assert (E2 : force b2 !!! body = with_xyz (force b !!! body) (force_sum st body)).
  { etrans; [exact H2|]. subst b1. cbn [force setup_reset_body].
    rewrite list_lookup_total_insert_eq by done. rewrite with_xyz_reset.
    unfold force_sum, for_each_j, zero3, xyz_of, set_xyz. done. }
  assert (E3 : torque b2 !!! body
               = with_xyz (torque b !!! body) (lever_sum st body)).
  { etrans; [exact H3|]. subst b1. cbn [torque setup_reset_body].
    rewrite list_lookup_total_insert_eq by done. rewrite with_xyz_reset.
    unfold lever_sum, for_each_j, zero3, xyz_of, set_xyz. done. }
  change b' with (setup_finalize_body rc body b2).
  cbn [vel force torque angvel angmom setup_finalize_body].
  rewrite !list_lookup_total_insert_eq by lia.
  rewrite E1, Hex, Hey, Hez, Hang. done.
Qed.

(** C8.  [setup] leaves the angular momentum of a body whose
    initialisation flag is set as it was.  For a body of the group whose
    flag is not set, it replaces the angular momentum by the sum of
    [r x (m v)] over the constituents, started from zero, with [r] the
    position of the constituent in the body frame rotated by the basis of
    the body.  Whatever the
    flag, the velocity, the force and the torque that a body of the group
    had play no part in what [setup] leaves: they are set to zero first,
    and what is left is the momentum of the constituents over the mass of
    the body, the sum of their net forces and the sum of [r x f], each
    started from zero. *)
Theorem setup_angular_momentum (st : State Scalar) :
  let rc := rconst (m_rigid_data st) in
  let b := bodies (m_rigid_data st) in
  let b' := bodies (m_rigid_data (setup st)) in
  (forall body,
      angmom_init rc !!! body = true ->
      angmom b' !!! body = angmom b !!! body) /\
  (NoDup (m_body_group st) ->
   forall body,
     body ∈ m_body_group st ->
     body_in_range b body ->
     (angmom_init rc !!! body = false ->
      angmom b' !!! body
      = set_xyz (angmom b !!! body) (x3 (angmom_sum st body))
                (y3 (angmom_sum st body)) (z3 (angmom_sum st body))) /\
     (let P := momentum_sum st body in
      let M := body_mass rc !!! body in
      vel b' !!! body
      = set_xyz (vel b !!! body) (x3 P / M)%S (y3 P / M)%S (z3 P / M)%S) /\
     force b' !!! body
     = set_xyz (force b !!! body) (x3 (force_sum st body))
               (y3 (force_sum st body)) (z3 (force_sum st body)) /\
     torque b' !!! body
     = set_xyz (torque b !!! body) (x3 (lever_sum st body))
               (y3 (lever_sum st body)) (z3 (lever_sum st body))).
Proof.
  intros rc b b'. split.
  - intros body Hinit. by apply setup_keeps_initialised_angmom.
  - intros Hnd body Hin Hr. split.
    + intros Hinit. apply setup_zeroes_and_accumulates; try done.
      in_lengths Hr.
    + pose proof (setup_at st body Hnd Hin Hr) as Hat.
      destruct (body_at_force _ _ _ Hat) as (Hf & Ht).
      destruct (body_at_vel _ _ _ Hat) as (Hv & _ & _).
      destruct (setup_body_values st body Hr) as (E1 & E2 & E3 & _).
      cbv zeta in E1, E2, E3. subst b'. cbv zeta.
      rewrite Hf, Ht, Hv. done.
Qed.

(** X3. [setup] gives every body of the group the momentum of its
    constituents, summed from zero, divided by the mass of the body as its
    velocity; the sum of the net forces of its constituents as its force;
    the sum of [r x f] over its constituents as its torque, without the net
    torque of the particles that [computeForceAndTorque] adds; and the
    angular velocity computed from its angular momentum, its moments of
    inertia and its basis. *)
Theorem setup_aggregates (st : State Scalar) (body : nat) :
  NoDup (m_body_group st) -> body ∈ m_body_group st ->
  body_in_range (bodies (m_rigid_data st)) body ->
  let rc := rconst (m_rigid_data st) in
  let b := bodies (m_rigid_data st) in
  let b' := bodies (m_rigid_data (setup st)) in
  let P := momentum_sum st body in
  let M := body_mass rc !!! body in
  vel b' !!! body
  = set_xyz (vel b !!! body) (x3 P / M)%S (y3 P / M)%S (z3 P / M)%S /\
  force b' !!! body = with_xyz (force b !!! body) (force_sum st body) /\
  torque b' !!! body = with_xyz (torque b !!! body) (lever_sum st body) /\
  angvel b' !!! body
  = computeAngularVelocity (angmom b' !!! body) (moment_inertia rc !!! body)
      (ex_space b !!! body) (ey_space b !!! body) (ez_space b !!! body)
      (angvel b !!! body).
Proof.
  intros Hnd Hin Hr rc b b' P M.
  pose proof (setup_at st body Hnd Hin Hr) as Hat.
  destruct (body_at_force _ _ _ Hat) as (Hf & Ht).
  destruct (body_at_vel _ _ _ Hat) as (Hv & Hl & Hw).
  destruct (setup_body_values st body Hr) as (E1 & E2 & E3 & E4).
  cbv zeta in E1, E2, E3, E4. subst b'.
  rewrite Hf, Ht, Hv, Hl, Hw. done.
Qed.

Lemma setup_erase (st : State Scalar) : erase_setup (setup st) = erase_setup st.
Proof.
  destruct (decide (m_body_group st = [])) as [Hg|Hg].
  { assert (Hn : (length (m_body_group st) <=? 0)%nat = true) by by rewrite Hg.
    unfold setup. by rewrite Hn. }
  destruct (setup_frame st) as (_ & _ & _ & _ & _ & _ & Hb).
  assert (Hn : (length (m_body_group st) <=? 0)%nat = false).
  { by destruct (m_body_group st). }
  revert Hb. unfold setup. rewrite Hn.
  set (s := make_state _ _ _ _ _ _ _ _ _ _). intros Hb.
  unfold erase_setup.
  rewrite (erase_step_two_velocities _ _ (set_v_erase s)).
  rewrite set_v_bodies in Hb.
  unfold erase_step_two, with_bodies, erase_velocities.
  cbn [m_rigid_data m_pdata m_group m_body_group n_dimensions m_deltaT
       m_first_step rconst bodies cache].
  by rewrite Hb.
Qed.

(** *** Accesses stay inside the arrays *)

Lemma accesses_shape (a b : State Scalar) :
  shape a = shape b -> accesses a = accesses b.
Proof.
  unfold shape. intros Hs. injection Hs. intros.
  unfold accesses, body_accesses, constituent_accesses, body_lengths.
  repeat match goal with
         | E : _ = _ |- _ => try rewrite E; clear E
         end.
  reflexivity.
Qed.

Lemma accesses_empty (st : State Scalar) : m_body_group st = [] -> accesses st = [].
Proof. unfold accesses. by intros ->. Qed.

Lemma shape_set_xv_particle (body j : nat) (a : State Scalar) :
  shape (set_xv_particle body j a) = shape a.
Proof.
  unfold shape. rewrite set_xv_particle_lengths.
  cbn [read_only set_xv_particle m_rigid_data m_pdata rconst bodies arrays box
       mass tag net_force net_torque m_group m_body_group n_dimensions m_deltaT
       pd_orientation m_conjqm].
  by rewrite length_insert.
Qed.

Lemma shape_set_v_particle (body j : nat) (a : State Scalar) :
  shape (set_v_particle body j a) = shape a.
Proof. unfold shape. by rewrite set_v_particle_lengths. Qed.

Lemma shape_set_xv (st : State Scalar) : shape (set_xv st) = shape st.
Proof.
  unfold set_xv.
  apply (for_each_body_preserves (fun a => shape a = shape st)); [|done].
  intros body a <-. unfold set_xv_body.
  apply (for_each_j_preserves (fun a' => shape a' = shape a)); [|done].
  intros j a' _ <-. apply shape_set_xv_particle.
Qed.

Lemma shape_set_v (st : State Scalar) : shape (set_v st) = shape st.
Proof.
  unfold set_v.
  apply (for_each_body_preserves (fun a => shape a = shape st)); [|done].
  intros body a <-. unfold set_v_body.
  apply (for_each_j_preserves (fun a' => shape a' = shape a)); [|done].
  intros j a' _ <-. apply shape_set_v_particle.
Qed.

Lemma shape_with_bodies (b : RigidBodies Scalar) (st : State Scalar) :
  body_lengths b = body_lengths (bodies (m_rigid_data st)) ->
  shape (with_bodies b st) = shape st.
Proof.
  intros Hb. unfold shape. cbn [with_bodies bodies m_rigid_data]. by rewrite Hb.
Qed.

Lemma body_loop_lengths (f : nat -> RigidBodies Scalar -> RigidBodies Scalar)
  (n : nat) (group : list nat) (b : RigidBodies Scalar) :
  LocalStep f -> body_lengths (for_each_body n group f b) = body_lengths b.
Proof.
  intros Hf.
  apply (for_each_body_preserves (fun b' => body_lengths b' = body_lengths b));
    [|done].
  intros body b' <-. apply (local_lengths _ Hf).
Qed.

Lemma shape_integrateStepTwo (st : State Scalar) :
  shape (integrateStepTwo st) = shape st.
Proof.
  unfold integrateStepTwo. destruct (m_n_bodies st <=? 0)%nat; [done|].
  rewrite shape_set_v.
  assert (Hc : shape (computeForceAndTorque st) = shape st).
  { unfold computeForceAndTorque. apply shape_with_bodies.
    rewrite body_loop_lengths by apply force_accumulate_body_local.
    apply body_loop_lengths. apply force_reset_body_local. }
  rewrite <- Hc. apply shape_with_bodies.
  apply body_loop_lengths. apply integrateStepTwo_body_local.
Qed.

Lemma shape_setup (st : State Scalar) :
  m_body_group st <> [] -> shape (setup st) = shape (allocate st).
Proof.
  intros Hg.
  assert (Hn : (length (m_body_group st) <=? 0)%nat = false).
  { by destruct (m_body_group st). }
  unfold setup. rewrite Hn. rewrite shape_set_v.
  unfold shape, allocate, read_only, projection_lengths.
  cbn [m_rigid_data m_pdata rconst bodies cache arrays box mass tag net_force
       net_torque net_virial m_group m_body_group n_dimensions m_deltaT
       pd_orientation m_conjqm m_virial].
  rewrite body_loop_lengths by apply setup_finalize_body_local.
  rewrite body_loop_lengths by apply setup_accumulate_body_local.
  rewrite body_loop_lengths by apply setup_reset_body_local.
  f_equal.
  apply (for_each_body_preserves
           (fun c => length c = length (replicate (length (m_body_group st))
                                          (zero4 (Scalar := Scalar)))));
    [|done].
  intros body c <-. unfold setup_conjqm_body. by rewrite length_insert.
Qed.

Lemma shape_integrateStepOne (st : State Scalar) :
  shape (integrateStepOne st) = shape (prepared st).
Proof.
  unfold integrateStepOne. fold (prepared st).
  destruct (m_n_bodies (prepared st) <=? 0)%nat; [done|].
  rewrite shape_set_xv. apply shape_with_bodies.
  apply body_loop_lengths. apply integrateStepOne_body_local.
Qed.

Lemma in_bounds_protocol (st : State Scalar) : in_bounds st -> protocol st.
Proof. unfold in_bounds. intros Hb Hfs. rewrite Hfs in Hb. apply Hb. Qed.

Lemma setup_in_bounds (st : State Scalar) :
  ready_in_bounds (allocate st) -> ready_in_bounds (setup st).
Proof.
  intros (_ & Hb). split.
  - destruct (setup_frame st) as (_ & _ & _ & Hg & _ & Hn & _).
    unfold group_ready. by rewrite Hn, Hg.
  - destruct (decide (m_body_group st = [])) as [Hg|Hg].
    + destruct (setup_frame st) as (_ & _ & _ & Hg' & _).
      rewrite (accesses_empty (setup st)) by by rewrite Hg'.
      constructor.
    + by rewrite (accesses_shape _ _ (shape_setup st Hg)).
Qed.

(** X4. When the accesses of [setup] are inside the arrays, those it
    allocates among them, [setup] moves nothing.  The centre of mass, the
    orientation, the basis and the image counters of every body, the
    positions, images and orientations of the particles, the cached
    positions, the net forces and torques, the constants of the bodies, the
    box, the groups, the time step and the flag of the first step come back
    as they were; the bodies are counted; a body that is not in the group
    keeps all its elements; and the accesses of the integrator that
    [setup] leaves are inside the arrays. *)
Theorem setup_keeps_configuration (st : State Scalar) :
  ready_in_bounds (allocate st) ->
  erase_setup (setup st) = erase_setup st /\
  m_n_bodies (setup st) = length (m_body_group st) /\
  (forall body,
      body ∉ m_body_group st ->
      body_at (bodies (m_rigid_data (setup st))) body
      = body_at (bodies (m_rigid_data st)) body) /\
  ready_in_bounds (setup st).
Proof.
  intros Hb. split; [apply setup_erase|split; [|split]].
  - by destruct (setup_frame st) as (_ & _ & _ & _ & _ & Hn & _).
  - intros body Hout. by apply setup_outside.
  - by apply setup_in_bounds.
Qed.

(** *** The two half steps, body by body *)

Lemma prepared_ready (st : State Scalar) :
  protocol st -> group_ready (prepared st) /\ m_first_step (prepared st) = false.
Proof.
  intros Hp. unfold prepared. destruct (m_first_step st) eqn:Hfs.
  - destruct (setup_frame st) as (_ & _ & _ & Hg & _ & Hn & _).
    split; [|done]. unfold group_ready. cbn [set_first_step m_n_bodies m_body_group].
    by rewrite Hn, Hg.
  - by split; [apply Hp|].
Qed.

Lemma integrateStepOne_forces (st : State Scalar) :
  protocol st ->
  let b := bodies (m_rigid_data (prepared st)) in
  let b' := bodies (m_rigid_data (integrateStepOne st)) in
  force b' = force b /\ torque b' = torque b.
Proof.
  intros Hp b b'. subst b b'.
  destruct (decide (m_body_group st = [])) as [Hg|Hg].
  - destruct (prepared_frame st Hp) as (_ & _ & _ & _ & Hn & _).
    unfold integrateStepOne. fold (prepared st). rewrite Hn, Hg. done.
  - rewrite (integrateStepOne_bodies st Hp Hg). cbv zeta.
    set (b := bodies (m_rigid_data (prepared st))).
    apply (fold_left_preserves
             (integrateStepOne_body (rconst (m_rigid_data st)) (box (m_pdata st))
                                    (m_deltaT st))
             (fun b' => force b' = force b /\ torque b' = torque b)); [|done].
    by intros body b' _ Hb.
Qed.

(** X5. The first half step gives a body of the group the velocity
    [v + (deltaT/2)/M f] and the angular momentum [l + (deltaT/2) t], from
    the force [f] and the torque [t] that the body has when the loop starts
    (those of [setup] at the first step); its orientation, its angular
    velocity and its basis are what [advanceQuaternion] returns for the new
    angular momentum.  The force and the torque of no body change. *)
Theorem integrateStepOne_half_kick (st : State Scalar) (body : nat) :
  protocol st -> NoDup (m_body_group st) -> body ∈ m_body_group st ->
  body_in_range (bodies (m_rigid_data st)) body ->
  let rc := rconst (m_rigid_data st) in
  let b := bodies (m_rigid_data (prepared st)) in
  let b' := bodies (m_rigid_data (integrateStepOne st)) in
  let dt_half := (s_half * m_deltaT st)%S in
  let dtfm := (dt_half / (body_mass rc !!! body))%S in
  let f := force b !!! body in
  let t := torque b !!! body in
  let v := vel b !!! body in
  let l := angmom b !!! body in
  let adv := advanceQuaternion (angmom b' !!! body) (moment_inertia rc !!! body)
               (angvel b !!! body) (ex_space b !!! body) (ey_space b !!! body)
               (ez_space b !!! body) (m_deltaT st) (orientation b !!! body) in
  vel b' !!! body
  = set_xyz v (x4 v + dtfm * x4 f)%S (y4 v + dtfm * y4 f)%S (z4 v + dtfm * z4 f)%S /\
  angmom b' !!! body
  = set_xyz l (x4 l + dt_half * x4 t)%S (y4 l + dt_half * y4 t)%S
              (z4 l + dt_half * z4 t)%S /\
  orientation b' !!! body = adv_quat adv /\
  angvel b' !!! body = adv_angvel adv /\
  ex_space b' !!! body = adv_ex adv /\
  ey_space b' !!! body = adv_ey adv /\
  ez_space b' !!! body = adv_ez adv /\
  force b' = force b /\ torque b' = torque b.
Proof.
  intros Hp Hnd Hin Hr rc b b' dt_half dtfm f t v l.
  destruct (prepared_frame st Hp) as (_ & _ & _ & _ & _ & _ & Hbl).
  cbv zeta in Hbl. fold b in Hbl.
  assert (Hr' : body_in_range b body).
  { by apply (body_in_range_lengths (bodies (m_rigid_data st))). }
  pose proof (integrateStepOne_at st body Hp Hnd Hin Hr') as Hat. fold b b' rc in Hat.
  set (b1 := integrateStepOne_body rc (box (m_pdata st)) (m_deltaT st) body b) in Hat.
  assert (Hv : body < length (vel b)) by in_lengths Hr'.
  assert (Hl : body < length (angmom b)) by in_lengths Hr'.
  assert (Hw : body < length (angvel b)) by in_lengths Hr'.
  assert (Hq : body < length (orientation b)) by in_lengths Hr'.
  assert (Hex : body < length (ex_space b)) by in_lengths Hr'.
  assert (Hey : body < length (ey_space b)) by in_lengths Hr'.
  assert (Hez : body < length (ez_space b)) by in_lengths Hr'.
  assert (E1 : vel b' !!! body = vel b1 !!! body).
  { pose proof (f_equal (fun r => vel r) Hat) as E. cbn [vel body_at] in E.
    by injection E. }
  assert (E2 : angmom b' !!! body = angmom b1 !!! body).
  { pose proof (f_equal (fun r => angmom r) Hat) as E. cbn [angmom body_at] in E.
    by injection E. }
  assert (E3 : orientation b' !!! body = orientation b1 !!! body).
  { pose proof (f_equal (fun r => orientation r) Hat) as E.
    cbn [orientation body_at] in E. by injection E. }
  assert (E4 : angvel b' !!! body = angvel b1 !!! body).
  { pose proof (f_equal (fun r => angvel r) Hat) as E. cbn [angvel body_at] in E.
    by injection E. }
  assert (E5 : ex_space b' !!! body = ex_space b1 !!! body).
  { pose proof (f_equal (fun r => ex_space r) Hat) as E.
    cbn [ex_space body_at] in E. by injection E. }
  assert (E6 : ey_space b' !!! body = ey_space b1 !!! body).
  { pose proof (f_equal (fun r => ey_space r) Hat) as E.
    cbn [ey_space body_at] in E. by injection E. }
  assert (E7 : ez_space b' !!! body = ez_space b1 !!! body).
  { pose proof (f_equal (fun r => ez_space r) Hat) as E.
    cbn [ez_space body_at] in E. by injection E. }
  cbv zeta. rewrite E1, E2, E3, E4, E5, E6, E7. subst b1.
  cbn [vel angmom orientation angvel ex_space ey_space ez_space
       integrateStepOne_body].
  rewrite !list_lookup_total_insert_eq by done.
  repeat (split; [done|]). by apply integrateStepOne_forces.
Qed.


Lemma aggregate_body_erase (st : State Scalar) (body : nat) (b : RigidBodies Scalar) :
  erase_forces (aggregate_body st body b) = erase_forces b.
Proof.
  unfold aggregate_body, force_accumulate_body.
  apply (for_each_j_preserves (fun b' => erase_forces b' = erase_forces b));
    [|done].
  by intros j b' _ <-.
Qed.

(** X6. The second half step gives a body of the group the force and the
    torque that [computeForceAndTorque] sums over its constituents, the
    velocity [v + (deltaT/2)/M F] and the angular momentum
    [l + (deltaT/2) T] for these sums [F] and [T], and the angular velocity
    computed from the new angular momentum. *)
Theorem integrateStepTwo_half_kick (st : State Scalar) (body : nat) :
  group_ready st -> NoDup (m_body_group st) -> body ∈ m_body_group st ->
  body_in_range (bodies (m_rigid_data st)) body ->
  let rc := rconst (m_rigid_data st) in
  let b := bodies (m_rigid_data st) in
  let b' := bodies (m_rigid_data (integrateStepTwo st)) in
  let dt_half := (s_half * m_deltaT st)%S in
  let dtfm := (dt_half / (body_mass rc !!! body))%S in
  let F := force_sum st body in
  let T := torque_sum st body in
  let v := vel b !!! body in
  let l := angmom b !!! body in
  force b' !!! body = with_xyz (force b !!! body) F /\
  torque b' !!! body = with_xyz (torque b !!! body) T /\
  vel b' !!! body
  = set_xyz v (x4 v + dtfm * x3 F)%S (y4 v + dtfm * y3 F)%S (z4 v + dtfm * z3 F)%S /\
  angmom b' !!! body
  = set_xyz l (x4 l + dt_half * x3 T)%S (y4 l + dt_half * y3 T)%S
              (z4 l + dt_half * z3 T)%S /\
  angvel b' !!! body
  = computeAngularVelocity (angmom b' !!! body) (moment_inertia rc !!! body)
      (ex_space b !!! body) (ey_space b !!! body) (ez_space b !!! body)
      (angvel b !!! body).
Proof.
  intros Hready Hnd Hin Hr rc b b' dt_half dtfm F T v l.
  pose proof (integrateStepTwo_at st body Hready Hnd Hin Hr) as Hat.
  fold b b' rc in Hat.
  set (b1 := aggregate_body st body b) in Hat.
  destruct (body_at_force _ _ _ Hat) as (Hf & Ht).
  destruct (body_at_vel _ _ _ Hat) as (Hv & Hl & Hw).
  destruct (aggregate_body_sums st body b) as (Hforce & Htorque); try done.
  fold b1 F T in Hforce, Htorque.
  pose proof (aggregate_body_erase st body b) as He. fold b1 in He.
  assert (Hvel : vel b1 = vel b) by exact (f_equal (fun r => vel r) He).
  assert (Hang : angmom b1 = angmom b) by exact (f_equal (fun r => angmom r) He).
  assert (Hangvel : angvel b1 = angvel b) by exact (f_equal (fun r => angvel r) He).
  assert (Hex : ex_space b1 = ex_space b) by exact (f_equal (fun r => ex_space r) He).
  assert (Hey : ey_space b1 = ey_space b) by exact (f_equal (fun r => ey_space r) He).
  assert (Hez : ez_space b1 = ez_space b) by exact (f_equal (fun r => ez_space r) He).
  assert (Bv : body < length (vel b)) by in_lengths Hr.
  assert (Bl : body < length (angmom b)) by in_lengths Hr.
  assert (Bw : body < length (angvel b)) by in_lengths Hr.
  rewrite Hf, Ht, Hv, Hl, Hw.
  cbn [force torque vel angmom angvel integrateStepTwo_body].
  rewrite Hvel, Hang, Hangvel, Hex, Hey, Hez.
  rewrite !list_lookup_total_insert_eq by done.
  rewrite Hforce, Htorque. done.
Qed.

(** *** Zero principal moments *)

Lemma integrateStepOne_advance (st : State Scalar) (body : nat) :
  protocol st -> NoDup (m_body_group st) -> body ∈ m_body_group st ->
  body_in_range (bodies (m_rigid_data st)) body ->
  let rc := rconst (m_rigid_data st) in
  let b := bodies (m_rigid_data (prepared st)) in
  let b' := bodies (m_rigid_data (integrateStepOne st)) in
  let adv := advanceQuaternion (angmom b' !!! body) (moment_inertia rc !!! body)
               (angvel b !!! body) (ex_space b !!! body) (ey_space b !!! body)
               (ez_space b !!! body) (m_deltaT st) (orientation b !!! body) in
  angvel b' !!! body = adv_angvel adv /\
  ex_space b' !!! body = adv_ex adv /\
  ey_space b' !!! body = adv_ey adv /\
  ez_space b' !!! body = adv_ez adv.
Proof.
  intros Hp Hnd Hin Hr rc b b'.
  destruct (prepared_frame st Hp) as (_ & _ & _ & _ & _ & _ & Hbl).
  cbv zeta in Hbl. fold b in Hbl.
  assert (Hr' : body_in_range b body).
  { by apply (body_in_range_lengths (bodies (m_rigid_data st))). }
  pose proof (integrateStepOne_at st body Hp Hnd Hin Hr') as Hat. fold b b' rc in Hat.
  set (b1 := integrateStepOne_body rc (box (m_pdata st)) (m_deltaT st) body b) in Hat.
  assert (Hl : body < length (angmom b)) by in_lengths Hr'.
  assert (Hw : body < length (angvel b)) by in_lengths Hr'.
  assert (Hex : body < length (ex_space b)) by in_lengths Hr'.
  assert (Hey : body < length (ey_space b)) by in_lengths Hr'.
  assert (Hez : body < length (ez_space b)) by in_lengths Hr'.
  assert (E2 : angmom b' !!! body = angmom b1 !!! body).
  { pose proof (f_equal (fun r => angmom r) Hat) as E. cbn [angmom body_at] in E.
    by injection E. }
  assert (E4 : angvel b' !!! body = angvel b1 !!! body).
  { pose proof (f_equal (fun r => angvel r) Hat) as E. cbn [angvel body_at] in E.
    by injection E. }
  assert (E5 : ex_space b' !!! body = ex_space b1 !!! body).
  { pose proof (f_equal (fun r => ex_space r) Hat) as E.
    cbn [ex_space body_at] in E. by injection E. }
  assert (E6 : ey_space b' !!! body = ey_space b1 !!! body).
  { pose proof (f_equal (fun r => ey_space r) Hat) as E.
    cbn [ey_space body_at] in E. by injection E. }
  assert (E7 : ez_space b' !!! body = ez_space b1 !!! body).
  { pose proof (f_equal (fun r => ez_space r) Hat) as E.
    cbn [ez_space body_at] in E. by injection E. }
  cbv zeta. rewrite E2, E4, E5, E6, E7. subst b1.
  cbn [angmom angvel ex_space ey_space ez_space integrateStepOne_body].
  rewrite !list_lookup_total_insert_eq by done. done.
Qed.

Lemma integrateStepTwo_angvel (st : State Scalar) (body : nat) :
  group_ready st -> NoDup (m_body_group st) -> body ∈ m_body_group st ->
  body_in_range (bodies (m_rigid_data st)) body ->
  let rc := rconst (m_rigid_data st) in
  let b := bodies (m_rigid_data st) in
  let b' := bodies (m_rigid_data (integrateStepTwo st)) in
  angvel b' !!! body
  = computeAngularVelocity (angmom b' !!! body) (moment_inertia rc !!! body)
      (ex_space b !!! body) (ey_space b !!! body) (ez_space b !!! body)
      (angvel b !!! body).
Proof.
  intros Hready Hnd Hin Hr rc b b'.
  pose proof (integrateStepTwo_at st body Hready Hnd Hin Hr) as Hat.
  fold b b' rc in Hat.
  set (b1 := aggregate_body st body b) in Hat.
  destruct (body_at_vel _ _ _ Hat) as (_ & Hl & Hw).
  pose proof (aggregate_body_erase st body b) as He. fold b1 in He.
  assert (Hang : angmom b1 = angmom b) by exact (f_equal (fun r => angmom r) He).
  assert (Hangvel : angvel b1 = angvel b) by exact (f_equal (fun r => angvel r) He).
  assert (Hex : ex_space b1 = ex_space b) by exact (f_equal (fun r => ex_space r) He).
  assert (Hey : ey_space b1 = ey_space b) by exact (f_equal (fun r => ey_space r) He).
  assert (Hez : ez_space b1 = ez_space b) by exact (f_equal (fun r => ez_space r) He).
  assert (Bl : body < length (angmom b)) by in_lengths Hr.
  assert (Bw : body < length (angvel b)) by in_lengths Hr.
  rewrite Hl, Hw.
  cbn [angmom angvel integrateStepTwo_body].
  rewrite Hang, Hangvel, Hex, Hey, Hez.
  rewrite !list_lookup_total_insert_eq by done. done.
Qed.

(** C4.  [computeAngularVelocity] takes the angular momentum into the body
    frame through the basis, gives each component over its principal
    moment, or zero when the moment compares equal to zero, and takes the
    result back into the space frame; with its divisions checked it
    returns the same value, so no division has a divisor that compares
    equal to zero, whatever the moments are.  [setup] and
    [integrateStepTwo] give a body of the group the angular velocity of
    this rule for the angular momentum they leave.  [integrateStepOne]
    gives it the angular velocity that [advanceQuaternion] returns: that
    of the rule, for the basis that the advance leaves, when
    [advanceQuaternion] re-derives the angular velocity by the rule. *)
Theorem zero_moment_no_division :
  (forall l moment ex ey ez w : Scalar4 Scalar,
      let wx := if (x4 moment =? s_zero)%S then s_zero
                else ((x4 ex * x4 l + y4 ex * y4 l + z4 ex * z4 l) / x4 moment)%S in
      let wy := if (y4 moment =? s_zero)%S then s_zero
                else ((x4 ey * x4 l + y4 ey * y4 l + z4 ey * z4 l) / y4 moment)%S in
      let wz := if (z4 moment =? s_zero)%S then s_zero
                else ((x4 ez * x4 l + y4 ez * y4 l + z4 ez * z4 l) / z4 moment)%S in
      computeAngularVelocity l moment ex ey ez w
      = make_scalar4 (wx * x4 ex + wy * x4 ey + wz * x4 ez)%S
                     (wx * y4 ex + wy * y4 ey + wz * y4 ez)%S
                     (wx * z4 ex + wy * z4 ey + wz * z4 ez)%S (w4 w) /\
      computeAngularVelocity_checked l moment ex ey ez w
      = Some (computeAngularVelocity l moment ex ey ez w)) /\
  (forall (st : State Scalar) (body : nat),
      NoDup (m_body_group st) -> body ∈ m_body_group st ->
      body_in_range (bodies (m_rigid_data st)) body ->
      let rc := rconst (m_rigid_data st) in
      let b := bodies (m_rigid_data st) in
      (let b' := bodies (m_rigid_data (setup st)) in
       angvel b' !!! body
       = computeAngularVelocity (angmom b' !!! body) (moment_inertia rc !!! body)
           (ex_space b !!! body) (ey_space b !!! body) (ez_space b !!! body)
           (angvel b !!! body)) /\
      (group_ready st ->
       let b' := bodies (m_rigid_data (integrateStepTwo st)) in
       angvel b' !!! body
       = computeAngularVelocity (angmom b' !!! body) (moment_inertia rc !!! body)
           (ex_space b !!! body) (ey_space b !!! body) (ez_space b !!! body)
           (angvel b !!! body)) /\
      (protocol st -> advance_by_rule ->
       let b' := bodies (m_rigid_data (integrateStepOne st)) in
       exists w0,
         angvel b' !!! body
         = computeAngularVelocity (angmom b' !!! body) (moment_inertia rc !!! body)
             (ex_space b' !!! body) (ey_space b' !!! body) (ez_space b' !!! body)
             w0)).
Proof.
  split.
  - intros l moment ex ey ez w wx wy wz. subst wx wy wz.
    unfold computeAngularVelocity_checked, computeAngularVelocity, angbody_checked,
      angbody, angbody_component_checked, angbody_component, checked_div, dot3,
      set_xyz.
    cbn [x3 y3 z3].
    by destruct (x4 moment =? s_zero)%S, (y4 moment =? s_zero)%S,
         (z4 moment =? s_zero)%S.
  - intros st body Hnd Hin Hr rc b. split; [|split].
    + intros b'.
      pose proof (setup_at st body Hnd Hin Hr) as Hat.
      destruct (body_at_vel _ _ _ Hat) as (_ & Hl & Hw).
      destruct (setup_body_values st body Hr) as (_ & _ & _ & E4).
      cbv zeta in E4. subst b'. rewrite Hl, Hw. done.
    + intros Hready b'. by apply integrateStepTwo_angvel.
    + intros Hp Hrule b'.
      destruct (integrateStepOne_advance st body Hp Hnd Hin Hr)
        as (Hw & Hex & Hey & Hez).
      cbv zeta in Hw, Hex, Hey, Hez. fold b' in Hw, Hex, Hey, Hez.
      set (bp := bodies (m_rigid_data (prepared st))) in *.
      destruct (Hrule (angmom b' !!! body)
                  (moment_inertia (rconst (m_rigid_data st)) !!! body)
                  (angvel bp !!! body) (ex_space bp !!! body)
                  (ey_space bp !!! body) (ez_space bp !!! body) (m_deltaT st)
                  (orientation bp !!! body)) as (w0 & Hw0).
      exists w0. rewrite Hw, Hex, Hey, Hez. exact Hw0.
Qed.

(** *** The order of the bodies in the group *)

Lemma with_group_self (st : State Scalar) : with_group (m_body_group st) st = st.
Proof. by destruct st. Qed.

Lemma setup_bodies_permutation (st : State Scalar) (g : list nat) :
  g ≡ₚ m_body_group st ->
  bodies (m_rigid_data (setup (with_group g st)))
  = bodies (m_rigid_data (setup st)).
Proof.
  intros Hperm. destruct (decide (m_body_group st = [])) as [Hg|Hg].
  { rewrite Hg in Hperm. apply Permutation_nil_r in Hperm. subst g.
    by rewrite <- Hg, with_group_self. }
  assert (Hg' : g <> []).
  { intros ->. symmetry in Hperm. by apply Permutation_nil_r in Hperm. }
  rewrite (setup_bodies st Hg), (setup_bodies (with_group g st)) by done.
  cbn [with_group m_rigid_data m_pdata m_body_group]. cbv zeta.
  rewrite (loop_permutation (setup_reset_body _) g (m_body_group st))
    by (done || apply setup_reset_body_local).
  rewrite (loop_permutation (setup_accumulate_body _ _ _) g (m_body_group st))
    by (done || apply setup_accumulate_body_local).
  by rewrite (loop_permutation (setup_finalize_body _) g (m_body_group st))
    by (done || apply setup_finalize_body_local).
Qed.

Lemma computeForceAndTorque_permutation (st : State Scalar) (g : list nat) :
  group_ready st -> g ≡ₚ m_body_group st ->
  bodies (m_rigid_data (computeForceAndTorque (with_group g st)))
  = bodies (m_rigid_data (computeForceAndTorque st)).
Proof.
  intros Hready Hperm.
  assert (Hready' : group_ready (with_group g st)).
  { unfold group_ready. cbn [with_group m_n_bodies m_body_group].
    rewrite Hready. symmetry. by apply Permutation_length. }
  rewrite !computeForceAndTorque_bodies by done.
  cbn [with_group m_rigid_data m_pdata m_body_group].
  rewrite (loop_permutation force_reset_body g (m_body_group st))
    by (done || apply force_reset_body_local).
  by rewrite (loop_permutation (force_accumulate_body _ _ _) g (m_body_group st))
    by (done || apply force_accumulate_body_local).
Qed.

(** X7. The order of the bodies in the group does not matter to the
    per-body arrays: with the same bodies listed in another order, [setup],
    the first half step, [computeForceAndTorque] and the second half step
    leave the same per-body arrays. *)
Theorem group_order_irrelevant (st : State Scalar) (g : list nat) :
  protocol st -> g ≡ₚ m_body_group st ->
  let result (method : State Scalar -> State Scalar) (s : State Scalar) :=
    bodies (m_rigid_data (method s)) in
  result setup (with_group g st) = result setup st /\
  result integrateStepOne (with_group g st) = result integrateStepOne st /\
  (group_ready st ->
   result computeForceAndTorque (with_group g st) = result computeForceAndTorque st /\
   result integrateStepTwo (with_group g st) = result integrateStepTwo st).
Proof.
  intros Hp Hperm result. subst result. cbv beta.
  assert (Hlen : length g = length (m_body_group st)) by by apply Permutation_length.
  split; [by apply setup_bodies_permutation|].
  destruct (decide (m_body_group st = [])) as [Hg|Hg].
  { rewrite Hg in Hperm. apply Permutation_nil_r in Hperm. subst g.
    rewrite <- Hg, with_group_self. done. }
  assert (Hg' : g <> []).
  { intros ->. symmetry in Hperm. by apply Permutation_nil_r in Hperm. }
  split.
  - assert (Hp' : protocol (with_group g st)).
    { intros Hfs. unfold group_ready. cbn [with_group m_n_bodies m_body_group].
      rewrite Hlen. by apply Hp. }
    rewrite (integrateStepOne_bodies st Hp Hg).
    rewrite (integrateStepOne_bodies (with_group g st) Hp') by done.
    cbn [with_group m_rigid_data m_pdata m_body_group m_deltaT]. cbv zeta.
    assert (Hb : bodies (m_rigid_data (prepared (with_group g st)))
                 = bodies (m_rigid_data (prepared st))).
    { unfold prepared. cbn [with_group m_first_step].
      destruct (m_first_step st); [|done].
      cbn [set_first_step m_rigid_data]. by apply setup_bodies_permutation. }
    rewrite Hb.
    by apply loop_permutation; [apply integrateStepOne_body_local|].
  - intros Hready.
    split; [by apply computeForceAndTorque_permutation|].
    assert (Hready' : group_ready (with_group g st)).
    { unfold group_ready. cbn [with_group m_n_bodies m_body_group].
      by rewrite Hready. }
    rewrite (integrateStepTwo_bodies st Hready Hg).
    rewrite (integrateStepTwo_bodies (with_group g st) Hready') by done.
    cbn [with_group m_rigid_data m_body_group m_deltaT].
    rewrite computeForceAndTorque_permutation by done.
    by apply loop_permutation; [apply integrateStepTwo_body_local|].
Qed.

(** *** A run of the integrator *)

Lemma integrateStepOne_erase (st : State Scalar) :
  let st1 := prepared st in
  erase_projection (integrateStepOne st) = erase_projection st1 \/
  exists b, erase_projection (integrateStepOne st)
            = erase_projection (with_bodies b st1).
Proof.
  intros st1. unfold integrateStepOne. fold (prepared st). fold st1.
  destruct (m_n_bodies st1 <=? 0)%nat; [by left|].
  right. eexists. apply set_xv_erase.
Qed.

Lemma integrateStepOne_read_only (st : State Scalar) :
  read_only (integrateStepOne st) = read_only st /\
  m_first_step (integrateStepOne st) = false.
Proof.
  assert (Hs : read_only (prepared st) = read_only st /\
               m_first_step (prepared st) = false).
  { unfold prepared. destruct (m_first_step st) eqn:Hfs; [|done].
    split; [|done].
    exact (f_equal (fun s => read_only s) (setup_erase st)). }
  destruct Hs as (Hs & Hfs). rewrite <- Hs.
  destruct (integrateStepOne_erase st) as [He|(b & He)]; cbv zeta in He.
  - split.
    + exact (f_equal (fun s => read_only s) He).
    + rewrite <- Hfs. exact (f_equal (fun s => m_first_step s) He).
  - split.
    + exact (f_equal (fun s => read_only s) He).
    + rewrite <- Hfs. exact (f_equal (fun s => m_first_step s) He).
Qed.

Lemma step_read_only (p : Phase) (st : State Scalar) :
  read_only (step p st) = read_only st.
Proof.
  destruct p; cbn [step].
  - apply integrateStepOne_read_only.
  - exact (f_equal (fun s => read_only s) (integrateStepTwo_erase st)).
Qed.

Lemma step_ready (p : Phase) (st : State Scalar) :
  m_first_step st = false /\ group_ready st ->
  m_first_step (step p st) = false /\ group_ready (step p st).
Proof.
  intros (Hfs & Hready). destruct p; cbn [step].
  - split; [apply integrateStepOne_read_only|].
    assert (Hp : protocol st) by (intros _; exact Hready).
    destruct (integrateStepOne_fields st Hp) as (_ & _ & Hg & Hn).
    unfold group_ready. by rewrite Hn, Hg.
  - pose proof (integrateStepTwo_erase st) as He. unfold group_ready. split.
    + rewrite <- Hfs. exact (f_equal (fun s => m_first_step s) He).
    + assert (Hn : m_n_bodies (integrateStepTwo st) = m_n_bodies st)
        by exact (f_equal (fun s => m_n_bodies s) He).
      assert (Hg : m_body_group (integrateStepTwo st) = m_body_group st)
        by exact (f_equal (fun s => m_body_group s) He).
      by rewrite Hn, Hg.
Qed.

Lemma integrateStepOne_in_bounds (st : State Scalar) :
  in_bounds st -> ready_in_bounds (integrateStepOne st).
Proof.
  intros Hb. pose proof (in_bounds_protocol st Hb) as Hp.
  assert (Hprep : ready_in_bounds (prepared st)).
  { unfold in_bounds in Hb. unfold prepared.
    destruct (m_first_step st); [|done].
    apply setup_in_bounds in Hb. destruct Hb as (Hr & Hb). split; [done|].
    rewrite (accesses_shape _ (setup st)); done. }
  destruct Hprep as (_ & Hb'). split.
  - destruct (integrateStepOne_fields st Hp) as (_ & _ & Hg & Hn).
    unfold group_ready. by rewrite Hn, Hg.
  - by rewrite (accesses_shape _ _ (shape_integrateStepOne st)).
Qed.

Lemma integrateStepTwo_in_bounds (st : State Scalar) :
  ready_in_bounds st -> ready_in_bounds (integrateStepTwo st).
Proof.
  intros (Hr & Hb). split.
  - pose proof (integrateStepTwo_erase st) as He. unfold group_ready.
    assert (Hn : m_n_bodies (integrateStepTwo st) = m_n_bodies st)
      by exact (f_equal (fun s => m_n_bodies s) He).
    assert (Hg : m_body_group (integrateStepTwo st) = m_body_group st)
      by exact (f_equal (fun s => m_body_group s) He).
    by rewrite Hn, Hg.
  - by rewrite (accesses_shape _ _ (shape_integrateStepTwo st)).
Qed.

Lemma step_in_bounds (p : Phase) (st : State Scalar) :
  m_first_step st = false /\ ready_in_bounds st ->
  m_first_step (step p st) = false /\ ready_in_bounds (step p st).
Proof.
  intros (Hfs & Hb). destruct p; cbn [step].
  - split; [apply integrateStepOne_read_only|].
    apply integrateStepOne_in_bounds. unfold in_bounds. by rewrite Hfs.
  - split; [|by apply integrateStepTwo_in_bounds].
    rewrite <- Hfs.
    exact (f_equal (fun s => m_first_step s) (integrateStepTwo_erase st)).
Qed.

Lemma run_in_bounds (ps : list Phase) (st : State Scalar) :
  in_bounds st ->
  m_first_step (run (StepOne :: ps) st) = false /\
  ready_in_bounds (run (StepOne :: ps) st).
Proof.
  intros Hb. unfold run. cbn [fold_left step].
  assert (Hone : m_first_step (integrateStepOne st) = false /\
                 ready_in_bounds (integrateStepOne st)).
  { split; [apply integrateStepOne_read_only|by apply integrateStepOne_in_bounds]. }
  revert Hone. generalize (integrateStepOne st).
  induction ps as [|p ps IH]; intros s Hs; [done|].
  cbn [fold_left]. apply IH. by apply step_in_bounds.
Qed.

Lemma run_keeps_read_only (ps : list Phase) (st : State Scalar) :
  read_only (run ps st) = read_only st.
Proof.
  unfold run. revert st. induction ps as [|p ps IH]; intros st; [done|].
  cbn [fold_left]. by rewrite IH, step_read_only.
Qed.

(** X8. An integrator whose accesses are inside the arrays, those that
    [setup] allocates when it is fresh, keeps them inside whatever calls
    follow the first half step, and never writes the constants of the
    bodies, the box, the masses and tags of the particles, their net forces
    and torques, its groups, the dimension or the time step. *)
Theorem run_read_only (ps : list Phase) (st : State Scalar) :
  in_bounds st ->
  let st' := run (StepOne :: ps) st in
  read_only st' = read_only st /\ ready_in_bounds st'.
Proof.
  intros Hb st'. split.
  - apply run_keeps_read_only.
  - by apply run_in_bounds.
Qed.

(** X9. Once the first half step has run, [setup] never runs again: the
    flag of the first step stays cleared and the number of bodies stays the
    size of the body group, whatever calls follow. *)
Theorem run_ready (ps : list Phase) (st : State Scalar) :
  protocol st ->
  let st' := run (StepOne :: ps) st in
  m_first_step st' = false /\ group_ready st' /\
  prepared st' = st'.
Proof.
  intros Hp st'.
  assert (Hinv : m_first_step st' = false /\ group_ready st').
  { subst st'. unfold run. cbn [fold_left step].
    assert (Hone : m_first_step (integrateStepOne st) = false /\
                 group_ready (integrateStepOne st)).
    { split; [apply integrateStepOne_read_only|].
      destruct (integrateStepOne_fields st Hp) as (_ & _ & Hg & Hn).
      unfold group_ready. by rewrite Hn, Hg. }
    revert Hone. generalize (integrateStepOne st).
    induction ps as [|p ps IH]; intros s Hs; [done|].
    cbn [fold_left]. apply IH. by apply step_ready. }
  destruct Hinv as (Hfs & Hready). repeat split; [done|done|].
  unfold prepared. by rewrite Hfs.
Qed.

(** X10. The constructor leaves the number of bodies uninitialised, and the
    first half step never reads it: whatever it holds, the step gives the
    same state, in which it is the size of the body group.  The warning is
    printed exactly when the body group is empty. *)
Theorem constructor_first_step (RigidBodyGroup : list nat -> list nat)
  (sysdef : SystemDefinition) (group : list nat) (deltaT : Scalar)
  (garbage : nat) :
  let new n := TwoStepNVERigid_new RigidBodyGroup sysdef group deltaT n in
  (snd (new garbage) = true <-> RigidBodyGroup group = []) /\
  integrateStepOne (fst (new garbage)) = integrateStepOne (fst (new 0)) /\
  m_n_bodies (integrateStepOne (fst (new garbage)))
  = length (RigidBodyGroup group).
Proof.
  intros new. subst new. cbv beta. split; [|split].
  - unfold TwoStepNVERigid_new. cbn [snd]. rewrite Nat.eqb_eq.
    by destruct (RigidBodyGroup group).
  - unfold TwoStepNVERigid_new, integrateStepOne. cbn [fst m_first_step]. done.
  - assert (Hp : protocol (fst (TwoStepNVERigid_new RigidBodyGroup sysdef group
                                  deltaT garbage))).
    { intros Hfs. discriminate Hfs. }
    by destruct (integrateStepOne_fields _ Hp) as (_ & _ & _ & Hn).
Qed.

End Locality.

(** ** The projections on the particles *)

Section Projections.

Context {Scalar : Type} `{ScalarOps Scalar} `{QuaternionMath Scalar}.

Lemma set_xv_particle_other_particle (body' j' p : nat) (a : State Scalar) :
  pidx_of a body' j' <> p ->
  let a' := set_xv_particle body' j' a in
  forall ax,
    position ax (arrays (m_pdata a')) !!! p = position ax (arrays (m_pdata a)) !!! p /\
    velocity ax (arrays (m_pdata a')) !!! p = velocity ax (arrays (m_pdata a)) !!! p /\
    image ax (arrays (m_pdata a')) !!! p = image ax (arrays (m_pdata a)) !!! p.
Proof.
  intros Hp a' ax. subst a'. repeat split.
  - destruct ax; cbn [position arrays m_pdata x y z set_xv_particle];
      by rewrite list_lookup_total_insert_ne.
  - destruct ax; cbn [velocity arrays m_pdata vx vy vz set_xv_particle];
      by rewrite list_lookup_total_insert_ne.
  - destruct ax; cbn [image arrays m_pdata ix iy iz set_xv_particle];
      by rewrite list_lookup_total_insert_ne.
Qed.

Lemma set_xv_particle_other_slot (body' j' q : nat) (a : State Scalar) :
  localidx_of a body' j' <> q ->
  let a' := set_xv_particle body' j' a in
  particle_oldpos (cache (m_rigid_data a')) !!! q
  = particle_oldpos (cache (m_rigid_data a)) !!! q /\
  particle_oldvel (cache (m_rigid_data a')) !!! q
  = particle_oldvel (cache (m_rigid_data a)) !!! q /\
  m_virial a' !!! q = m_virial a !!! q.
Proof.
  intros Hq a'. subst a'. repeat split.
  - cbn [particle_oldpos cache m_rigid_data set_xv_particle].
    by rewrite list_lookup_total_insert_ne.
  - cbn [particle_oldvel cache m_rigid_data set_xv_particle].
    by rewrite list_lookup_total_insert_ne.
  - cbn [m_virial set_xv_particle]. by rewrite list_lookup_total_insert_ne.
Qed.

Lemma set_xv_particle_other_tag (body' j' t : nat) (a : State Scalar) :
  tag (arrays (m_pdata a)) !!! pidx_of a body' j' <> t ->
  pd_orientation (m_pdata (set_xv_particle body' j' a)) !!! t
  = pd_orientation (m_pdata a) !!! t.
Proof.
  intros Ht. cbn [pd_orientation m_pdata set_xv_particle].
  by rewrite list_lookup_total_insert_ne.
Qed.

(** X11. The full projection [set_xv] writes the positions, velocities and
    image counters of the particles, their orientations, the two caches and
    the integrator's own virial array, and nothing else: every per-body
    array, the constants, the masses, tags, net forces, torques and virials
    of the particles and the box are as before.  A particle that is a
    constituent of no body of the group keeps its position, velocity and
    image, a slot of no constituent keeps its cached values, and a tag of
    no constituent keeps its orientation.  The integrator is ready and its
    accesses are inside the arrays. *)
Theorem set_xv_writes_only_particles (st : State Scalar) :
  ready_in_bounds st ->
  let st' := set_xv st in
  erase_projection st' = erase_projection st /\
  ((forall p,
       (forall k, k ∈ constituents st -> pidx_of st (fst k) (snd k) <> p) ->
       forall ax,
         position ax (arrays (m_pdata st')) !!! p
         = position ax (arrays (m_pdata st)) !!! p /\
         velocity ax (arrays (m_pdata st')) !!! p
         = velocity ax (arrays (m_pdata st)) !!! p /\
         image ax (arrays (m_pdata st')) !!! p
         = image ax (arrays (m_pdata st)) !!! p) /\
   (forall q,
       (forall k, k ∈ constituents st -> localidx_of st (fst k) (snd k) <> q) ->
       particle_oldpos (cache (m_rigid_data st')) !!! q
       = particle_oldpos (cache (m_rigid_data st)) !!! q /\
       particle_oldvel (cache (m_rigid_data st')) !!! q
       = particle_oldvel (cache (m_rigid_data st)) !!! q /\
       m_virial st' !!! q = m_virial st !!! q) /\
   (forall t,
       (forall k, k ∈ constituents st ->
                  tag (arrays (m_pdata st)) !!! pidx_of st (fst k) (snd k) <> t) ->
       pd_orientation (m_pdata st') !!! t = pd_orientation (m_pdata st) !!! t)).
Proof.
  intros (Hready & _) st'. split; [apply set_xv_erase|].
  subst st'. rewrite (set_xv_flatten st Hready).
  split; [|split].
  - intros p Hp ax.
    apply (fold_left_preserves
             (fun k acc => set_xv_particle (fst k) (snd k) acc)
             (fun a =>
                erase_projection a = erase_projection st /\
                (position ax (arrays (m_pdata a)) !!! p
                 = position ax (arrays (m_pdata st)) !!! p /\
                 velocity ax (arrays (m_pdata a)) !!! p
                 = velocity ax (arrays (m_pdata st)) !!! p /\
                 image ax (arrays (m_pdata a)) !!! p
                 = image ax (arrays (m_pdata st)) !!! p))); [|done].
    intros k a Hk (He & Hx & Hv & Hi).
    destruct (erase_projection_reads a st (fst k) (snd k) He) as (Hp' & _).
    destruct (set_xv_particle_other_particle (fst k) (snd k) p a) with (ax := ax)
      as (Hx' & Hv' & Hi').
    { rewrite Hp'. by apply Hp. }
    split; [by rewrite <- He|]. by rewrite Hx', Hv', Hi'.
  - intros q Hq.
    apply (fold_left_preserves
             (fun k acc => set_xv_particle (fst k) (snd k) acc)
             (fun a =>
                erase_projection a = erase_projection st /\
                (particle_oldpos (cache (m_rigid_data a)) !!! q
                 = particle_oldpos (cache (m_rigid_data st)) !!! q /\
                 particle_oldvel (cache (m_rigid_data a)) !!! q
                 = particle_oldvel (cache (m_rigid_data st)) !!! q /\
                 m_virial a !!! q = m_virial st !!! q))); [|done].
    intros k a Hk (He & Hop & Hov & Hmv).
    destruct (erase_projection_reads a st (fst k) (snd k) He) as (_ & Hl' & _).
    destruct (set_xv_particle_other_slot (fst k) (snd k) q a)
      as (Hop' & Hov' & Hmv').
    { rewrite Hl'. by apply Hq. }
    split; [by rewrite <- He|]. by rewrite Hop', Hov', Hmv'.
  - intros t Ht.
    apply (fold_left_preserves
             (fun k acc => set_xv_particle (fst k) (snd k) acc)
             (fun a =>
                erase_projection a = erase_projection st /\
                pd_orientation (m_pdata a) !!! t
                = pd_orientation (m_pdata st) !!! t)); [|done].
    intros k a Hk (He & Ho).
    destruct (erase_projection_reads a st (fst k) (snd k) He) as (Hp' & _).
    assert (Htag : tag (arrays (m_pdata a)) = tag (arrays (m_pdata st)))
      by exact (f_equal (fun s => tag (arrays (m_pdata s))) He).
    split; [by rewrite <- He|].
    rewrite set_xv_particle_other_tag; [done|].
    rewrite Htag, Hp'. by apply Ht.
Qed.

(** The bounds of [constituent_in_range], one by one. *)
Ltac in_range_bounds H :=
  unfold constituent_in_range, projection_lengths in H;
  cbn [replicate app] in H;
  repeat match type of H with
         | Forall2 _ (_ :: _) (_ :: _) =>
             let Hb := fresh "Hb" in
             apply Forall2_cons in H as (Hb & H)
         end;
  clear H.





(** X20. After the full projection [set_xv] the orientation of a
    constituent of a body of the group, stored under the tag of the
    particle, is the product of the orientation of the body with the
    orientation of the constituent in the body frame, normalised; no two
    constituents having the same tag. *)
Theorem set_xv_orientation (st : State Scalar) (body j : nat) :
  group_ready st -> NoDup (m_body_group st) ->
  (body, j) ∈ constituents st ->
  let b := bodies (m_rigid_data st) in
  let rc := rconst (m_rigid_data st) in
  let arr := arrays (m_pdata st) in
  let t := tag arr !!! pidx_of st body j in
  (forall k, k ∈ constituents st ->
             tag arr !!! pidx_of st (fst k) (snd k) = t -> k = (body, j)) ->
  t < length (pd_orientation (m_pdata st)) ->
  pd_orientation (m_pdata (set_xv st)) !!! t
  = normalize (quatquat (orientation b !!! body)
                        (particle_orientation rc !!! localidx_of st body j)).
Proof.
  intros Hready Hnd Hk b rc arr t Htags Ht.
  rewrite (set_xv_flatten st Hready).
  set (Kept := fun a : State Scalar =>
                 erase_projection a = erase_projection st /\
                 length (pd_orientation (m_pdata a))
                 = length (pd_orientation (m_pdata st))).
  set (q := normalize (quatquat (orientation b !!! body)
                         (particle_orientation rc !!! localidx_of st body j))).
  cut (Kept (fold_left (fun acc k => set_xv_particle (fst k) (snd k) acc)
                       (constituents st) st) /\
       pd_orientation
         (m_pdata (fold_left (fun acc k => set_xv_particle (fst k) (snd k) acc)
                             (constituents st) st)) !!! t = q).
  { by intros (_ & HP). }
  apply (fold_left_split_inv
           (fun k a => set_xv_particle (fst k) (snd k) a)
           Kept (fun a => Kept a /\ pd_orientation (m_pdata a) !!! t = q)
           (constituents st) (body, j)); try done.
  - by apply NoDup_constituents.
  - intros k' a Hk' Hne (He & Hlen). unfold Kept.
    cbn [pd_orientation m_pdata set_xv_particle].
    rewrite length_insert. by rewrite <- He.
  - intros a (He & Hlen). cbn [fst snd].
    destruct (erase_projection_reads a st body j He) as (Hp' & Hl' & _).
    assert (Htag : tag (arrays (m_pdata a)) = tag arr)
      by exact (f_equal (fun s => tag (arrays (m_pdata s))) He).
    assert (Hb : bodies (m_rigid_data a) = b)
      by exact (f_equal (fun s => bodies (m_rigid_data s)) He).
    assert (Hrc : rconst (m_rigid_data a) = rc)
      by exact (f_equal (fun s => rconst (m_rigid_data s)) He).
    split.
    { unfold Kept. cbn [pd_orientation m_pdata set_xv_particle].
      rewrite length_insert. by rewrite <- He. }
    cbn [pd_orientation m_pdata set_xv_particle].
    rewrite Htag, Hp', Hb, Hrc, Hl'. fold t.
    rewrite list_lookup_total_insert_eq; [done|]. by rewrite Hlen.
  - intros k' a Hk' Hne ((He & Hlen) & Hq).
    destruct (erase_projection_reads a st (fst k') (snd k') He) as (Hp' & _).
    assert (Htag : tag (arrays (m_pdata a)) = tag arr)
      by exact (f_equal (fun s => tag (arrays (m_pdata s))) He).
    split.
    { unfold Kept. cbn [pd_orientation m_pdata set_xv_particle].
      rewrite length_insert. by rewrite <- He. }
    rewrite set_xv_particle_other_tag; [done|].
    rewrite Htag, Hp'. intros Heq. apply Hne. by apply Htags.
Qed.

End Projections.

(** ** A full step *)

Section FullStep.

Context {Scalar : Type} `{ScalarOps Scalar} `{QuaternionMath Scalar}.

Lemma integrateStepOne_lengths (st : State Scalar) :
  protocol st ->
  body_lengths (bodies (m_rigid_data (integrateStepOne st)))
  = body_lengths (bodies (m_rigid_data st)).
Proof.
  intros Hp.
  destruct (prepared_frame st Hp) as (_ & _ & _ & _ & Hn & _ & Hbl).
  cbv zeta in Hn, Hbl. rewrite <- Hbl.
  destruct (decide (m_body_group st = [])) as [Hg|Hg].
  - unfold integrateStepOne. fold (prepared st). rewrite Hn, Hg. done.
  - rewrite (integrateStepOne_bodies st Hp Hg). cbv zeta.
    apply loop_lengths. apply integrateStepOne_body_local.
Qed.

Lemma integrateStepOne_momenta (st : State Scalar) (body : nat) :
  protocol st -> NoDup (m_body_group st) -> body ∈ m_body_group st ->
  body_in_range (bodies (m_rigid_data st)) body ->
  let b := bodies (m_rigid_data (prepared st)) in
  let b' := bodies (m_rigid_data (integrateStepOne st)) in
  vel b' !!! body
  = vel (integrateStepOne_body (rconst (m_rigid_data st)) (box (m_pdata st))
           (m_deltaT st) body b) !!! body /\
  angmom b' !!! body
  = angmom (integrateStepOne_body (rconst (m_rigid_data st)) (box (m_pdata st))
              (m_deltaT st) body b) !!! body.
Proof.
  intros Hp Hnd Hin Hr b b'.
  destruct (prepared_frame st Hp) as (_ & _ & _ & _ & _ & _ & Hbl).
  cbv zeta in Hbl. fold b in Hbl.
  assert (Hr' : body_in_range b body).
  { by apply (body_in_range_lengths (bodies (m_rigid_data st))). }
  destruct (body_at_vel _ _ _ (integrateStepOne_at st body Hp Hnd Hin Hr'))
    as (Hv & Hl & _).
  done.
Qed.

Lemma integrateStepTwo_momenta (st : State Scalar) (body : nat) :
  group_ready st -> NoDup (m_body_group st) -> body ∈ m_body_group st ->
  body_in_range (bodies (m_rigid_data st)) body ->
  let b := bodies (m_rigid_data st) in
  let b' := bodies (m_rigid_data (integrateStepTwo st)) in
  let dt_half := (s_half * m_deltaT st)%S in
  let dtfm := (dt_half / (body_mass (rconst (m_rigid_data st)) !!! body))%S in
  let F := force_sum st body in
  let T := torque_sum st body in
  let v := vel b !!! body in
  let l := angmom b !!! body in
  vel b' !!! body
  = set_xyz v (x4 v + dtfm * x3 F)%S (y4 v + dtfm * y3 F)%S (z4 v + dtfm * z3 F)%S /\
  angmom b' !!! body
  = set_xyz l (x4 l + dt_half * x3 T)%S (y4 l + dt_half * y3 T)%S
              (z4 l + dt_half * z3 T)%S.
Proof.
  intros Hready Hnd Hin Hr b b' dt_half dtfm F T v l.
  destruct (body_at_vel _ _ _ (integrateStepTwo_at st body Hready Hnd Hin Hr))
    as (Hv & Hl & _).
  fold b b' in Hv, Hl.
  destruct (aggregate_body_sums st body b) as (Hforce & Htorque); try done.
  fold F T in Hforce, Htorque.
  pose proof (aggregate_body_erase st body b) as He.
  assert (Hvel : vel (aggregate_body st body b) = vel b)
    by exact (f_equal (fun r => vel r) He).
  assert (Hang : angmom (aggregate_body st body b) = angmom b)
    by exact (f_equal (fun r => angmom r) He).
  assert (Bv : body < length (vel b)).
  { apply (body_in_range_lt _ _ _ Hr). unfold body_lengths. simpl. tauto. }
  assert (Bl : body < length (angmom b)).
  { apply (body_in_range_lt _ _ _ Hr). unfold body_lengths. simpl. tauto. }
  rewrite Hv, Hl. cbn [vel angmom integrateStepTwo_body].
  rewrite Hvel, Hang, !list_lookup_total_insert_eq by done.
  rewrite Hforce, Htorque. done.
Qed.

(** X14. Over a full step, the first half step, then the force field
    replacing the net forces, torques and virials of the particles, then
    the second half step, a body of the group gets the velocity
    [(v + k f) + k F] and the angular momentum [(l + h t) + h T], with
    [h] half the time step, [k] that over the mass of the body, [f] and
    [t] the force and torque of the body before the step, and [F] and [T]
    the sums of the new net forces and torques over its constituents. *)
Theorem full_step_momenta (st : State Scalar) (body : nat)
  (nf nt : list (Scalar4 Scalar)) (nv : list Scalar) :
  protocol st -> NoDup (m_body_group st) -> body ∈ m_body_group st ->
  body_in_range (bodies (m_rigid_data st)) body ->
  let b := bodies (m_rigid_data (prepared st)) in
  let st1 := with_net_forces nf nt nv (integrateStepOne st) in
  let b2 := bodies (m_rigid_data (integrateStepTwo st1)) in
  let h := (s_half * m_deltaT st)%S in
  let k := (h / (body_mass (rconst (m_rigid_data st)) !!! body))%S in
  let f := force b !!! body in
  let t := torque b !!! body in
  let F := force_sum st1 body in
  let T := torque_sum st1 body in
  let v := vel b !!! body in
  let l := angmom b !!! body in
  vel b2 !!! body
  = set_xyz v (x4 v + k * x4 f + k * x3 F)%S (y4 v + k * y4 f + k * y3 F)%S
              (z4 v + k * z4 f + k * z3 F)%S /\
  angmom b2 !!! body
  = set_xyz l (x4 l + h * x4 t + h * x3 T)%S (y4 l + h * y4 t + h * y3 T)%S
              (z4 l + h * z4 t + h * z3 T)%S.
Proof.
  intros Hp Hnd Hin Hr b st1 b2 h k f t F T v l.
  destruct (integrateStepOne_fields st Hp) as (Hrc & Hdt & Hg & Hn).
  cbv zeta in Hrc, Hdt, Hg, Hn.
  destruct (integrateStepOne_momenta st body Hp Hnd Hin Hr) as (Hv1 & Hl1).
  cbv zeta in Hv1, Hl1. fold b in Hv1, Hl1.
  destruct (prepared_frame st Hp) as (_ & _ & _ & _ & _ & _ & Hbl).
  cbv zeta in Hbl. fold b in Hbl.
  assert (Hr0 : body_in_range b body).
  { by apply (body_in_range_lengths (bodies (m_rigid_data st))). }
  assert (Bv : body < length (vel b)).
  { apply (body_in_range_lt _ _ _ Hr0). unfold body_lengths. simpl. tauto. }
  assert (Bl : body < length (angmom b)).
  { apply (body_in_range_lt _ _ _ Hr0). unfold body_lengths. simpl. tauto. }
  cbn [vel angmom integrateStepOne_body] in Hv1, Hl1.
  rewrite !list_lookup_total_insert_eq in Hv1, Hl1 by done.
  assert (Hready1 : group_ready st1).
  { unfold group_ready, st1. cbn [with_net_forces m_n_bodies m_body_group].
    by rewrite Hn, Hg. }
  assert (Hr1 : body_in_range (bodies (m_rigid_data st1)) body).
  { apply (body_in_range_lengths (bodies (m_rigid_data st))); [|done].
    unfold st1. cbn [with_net_forces m_rigid_data].
    by apply integrateStepOne_lengths. }
  destruct (integrateStepTwo_momenta st1 body) as (Hv2 & Hl2); try done.
  { unfold st1. cbn [with_net_forces m_body_group]. by rewrite Hg. }
  { unfold st1. cbn [with_net_forces m_body_group]. by rewrite Hg. }
  cbv zeta in Hv2, Hl2. fold b2 F T in Hv2, Hl2.
  unfold st1 in Hv2 at 1 2 3 4 5 6 7 8 9 10.
  unfold st1 in Hl2 at 1 2 3 4 5 6 7.
  cbn [with_net_forces m_rigid_data m_deltaT] in Hv2, Hl2.
  rewrite Hrc, Hdt, Hv1 in Hv2. rewrite Hdt, Hl1 in Hl2.
  rewrite Hv2, Hl2. done.
Qed.

End FullStep.

(** ** The conjugate quaternion momentum *)

Section Conjqm.

Context {Scalar : Type} `{ScalarOps Scalar} `{QuaternionMath Scalar}.

Lemma fold_left_insert_length {A : Type} (g : nat -> A) (l : list nat) (a : list A) :
  length (fold_left (fun acc k => <[k := g k]> acc) l a) = length a.
Proof.
  revert a. induction l as [|k l IH]; intros a; simpl; [done|].
  by rewrite IH, length_insert.
Qed.

Lemma fold_left_insert_lookup {A : Type} `{Inhabited A} (g : nat -> A)
  (l : list nat) (a : list A) (i : nat) :
  i ∈ l -> i < length a ->
  fold_left (fun acc k => <[k := g k]> acc) l a !!! i = g i.
Proof.
  revert a. induction l as [|k l IH] using rev_ind; intros a Hin Hi.
  - by apply elem_of_nil in Hin.
  - rewrite fold_left_app. simpl.
    destruct (decide (k = i)) as [->|Hne].
    + rewrite list_lookup_total_insert_eq; [done|].
      by rewrite fold_left_insert_length.
    + rewrite list_lookup_total_insert_ne by done.
      apply IH; [|done].
      apply elem_of_app in Hin as [Hin|Hin]; [done|].
      apply list_elem_of_singleton in Hin. by subst.
Qed.

(** X15. [setup] allocates one conjugate quaternion momentum for each body
    of the group and stores, at the index of a body of the group that is
    below that number, twice the product of the orientation of the body
    with its angular momentum taken into the body frame, both as [setup]
    leaves them. *)
Theorem setup_conjqm (st : State Scalar) (body : nat) :
  body ∈ m_body_group st -> body < length (m_body_group st) ->
  let b' := bodies (m_rigid_data (setup st)) in
  let mbody := matrix_dot (ex_space b' !!! body) (ey_space b' !!! body)
                          (ez_space b' !!! body) (angmom b' !!! body) in
  let c := quatvec (orientation b' !!! body) mbody in
  length (m_conjqm (setup st)) = length (m_body_group st) /\
  m_conjqm (setup st) !!! body
  = make_scalar4 (x4 c * s_two)%S (y4 c * s_two)%S (z4 c * s_two)%S
                 (w4 c * s_two)%S.
Proof.
  intros Hin Hlt b' mbody c.
  assert (Hn : (length (m_body_group st) <=? 0)%nat = false).
  { apply Nat.leb_gt. lia. }
  subst c mbody b'. unfold setup. rewrite Hn.
  set (s := make_state _ _ _ _ _ _ _ _ _ _).
  pose proof (set_v_erase s) as He.
  assert (Hc : m_conjqm (set_v s) = m_conjqm s)
    by exact (f_equal (fun a => m_conjqm a) He).
  rewrite Hc, set_v_bodies. subst s. cbn [m_conjqm bodies m_rigid_data].
  set (b3 := for_each_body _ _ (setup_finalize_body _) _).
  rewrite for_each_body_members.
  change (fold_left (fun acc body0 => setup_conjqm_body b3 body0 acc)
            (m_body_group st) (replicate (length (m_body_group st)) zero4))
    with (fold_left
            (fun acc k =>
               <[k := let c := quatvec (orientation b3 !!! k)
                                 (matrix_dot (ex_space b3 !!! k) (ey_space b3 !!! k)
                                    (ez_space b3 !!! k) (angmom b3 !!! k)) in
                      make_scalar4 (x4 c * s_two)%S (y4 c * s_two)%S
                                   (z4 c * s_two)%S (w4 c * s_two)%S]> acc)
            (m_body_group st) (replicate (length (m_body_group st)) zero4)).
  split.
  - by rewrite fold_left_insert_length, length_replicate.
  - rewrite fold_left_insert_lookup; [done|done|].
    by rewrite length_replicate.
Qed.

End Conjqm.

(** ** The map into the box, in exact arithmetic *)

(** X16. In exact arithmetic, with the image counter away from the ends of
    its range, the map into the box keeps the unfolded coordinate, the
    coordinate plus the box length times the counter.  It takes one box
    length at most: a coordinate less than one box length outside the box
    comes back inside, one further out stays outside. *)
Theorem wrap_coord_exact (c lo hi : Q) (img : Z) :
  (lo < hi)%Q -> (INT_MIN < img < INT_MAX)%Z ->
  let L := (hi - lo)%S in
  let w := wrap_coord c lo hi L img in
  (fst w + L * s_of_int (snd w) == c + L * s_of_int img)%Q /\
  (lo - L <= c -> c < hi + L -> lo <= fst w /\ fst w < hi)%Q /\
  (hi + L <= c -> hi <= fst w)%Q /\
  (c < lo - L -> fst w < lo)%Q.
Proof.
  intros Hbox Himg L w.
  assert (HL : (L == hi - lo)%Q) by apply Qred_correct.
  subst w. unfold wrap_coord.
  destruct (c >=? hi)%S eqn:Hge; [|destruct (c <? lo)%S eqn:Hlt]; cbn [fst snd].
  - apply exact_geb_iff in Hge.
    assert (Hc : ((c - L)%S == c - L)%Q) by apply Qred_correct.
    rewrite int_incr_in_range by lia.
    rewrite Hc, inject_Z_plus. cbn [s_of_int scalar_ops].
    change (inject_Z 1) with 1%Q.
    repeat split; intros; lra.
  - assert (Hlo : (c < lo)%Q).
    { unfold s_ltb in Hlt. cbn [scalar_ops] in Hlt. unfold ltb in Hlt.
      apply negb_true_iff in Hlt. apply Qnot_le_lt. intros Hle.
      apply Qle_bool_iff in Hle. congruence. }
    assert (Hc : ((c + L)%S == c + L)%Q) by apply Qred_correct.
    rewrite int_decr_in_range by lia.
    rewrite Hc. cbn [s_of_int scalar_ops].
    replace (img - 1)%Z with (img + -1)%Z by lia. rewrite inject_Z_plus.
    change (inject_Z (-1)) with (-1 # 1)%Q.
    repeat split; intros; lra.
  - assert (Hhi : (c < hi)%Q).
    { apply Qnot_le_lt. intros Hle. apply exact_geb_iff in Hle. congruence. }
    assert (Hlo : (lo <= c)%Q).
    { unfold s_ltb in Hlt. cbn [scalar_ops] in Hlt. unfold ltb in Hlt.
      apply negb_false_iff in Hlt. by apply Qle_bool_iff. }
    repeat split; intros; lra.
Qed.

(** ** Plane walls when the box is rescaled, in exact arithmetic *)

Section WallProofs.

Local Open Scope Q_scope.

Lemma add_eq (a a' b b' : Q) : a == a' -> b == b' -> Exact.add a b == a' + b'.
Proof. intros Ha Hb. unfold Exact.add. by rewrite Qred_correct, Ha, Hb. Qed.

Lemma sub_eq (a a' b b' : Q) : a == a' -> b == b' -> Exact.sub a b == a' - b'.
Proof. intros Ha Hb. unfold Exact.sub. by rewrite Qred_correct, Ha, Hb. Qed.

Lemma mul_eq (a a' b b' : Q) : a == a' -> b == b' -> Exact.mul a b == a' * b'.
Proof. intros Ha Hb. unfold Exact.mul. by rewrite Qred_correct, Ha, Hb. Qed.

Lemma div_eq (a a' b b' : Q) : a == a' -> b == b' -> Exact.div a b == a' / b'.
Proof. intros Ha Hb. unfold Exact.div. by rewrite Qred_correct, Ha, Hb. Qed.

(** A proof that a term built with the exact operations equals the term
    built with the operations of [Q], the hypotheses of the goal used at
    the leaves. *)
Ltac denote t :=
  lazymatch t with
  | Exact.add ?a ?b =>
      let pa := denote a in let pb := denote b in constr:(add_eq _ _ _ _ pa pb)
  | Exact.sub ?a ?b =>
      let pa := denote a in let pb := denote b in constr:(sub_eq _ _ _ _ pa pb)
  | Exact.mul ?a ?b =>
      let pa := denote a in let pb := denote b in constr:(mul_eq _ _ _ _ pa pb)
  | Exact.div ?a ?b =>
      let pa := denote a in let pb := denote b in constr:(div_eq _ _ _ _ pa pb)
  | _ =>
      match goal with
      | Hleaf : t == _ |- _ => constr:(Hleaf)
      | _ => constr:(Qeq_refl t)
      end
  end.

Ltac exact_ops :=
  cbn [s_add s_sub s_mul s_div scalar_ops];
  match goal with
  | |- ?l == _ => let p := denote l in refine (Qeq_trans _ _ _ p _)
  end.

Ltac exact_ops_both := exact_ops; symmetry; exact_ops; symmetry.

Ltac exact_ops_in Hyp :=
  cbn [s_add s_sub s_mul s_div scalar_ops] in Hyp;
  match type of Hyp with
  | ~ (?l == _) =>
      let p := denote l in
      let Hnew := fresh "Hdet" in
      assert (Hnew := fun E => Hyp (Qeq_trans _ _ _ p E));
      clear Hyp
  end.

Variable B : Type.
Variable glv : B -> nat -> Scalar3 Q.

(** X17. In exact arithmetic, when the lattice vectors of the old box are
    independent, the matrix of [getTransMatrix] takes each lattice vector
    of the old box to that of the new box. *)
Theorem getTransMatrix_maps_lattice (old_box new_box : B) (i : nat) :
  ~ (det3 (glv old_box 0%nat) (glv old_box 1%nat) (glv old_box 2%nat) == 0) ->
  (i < 3)%nat ->
  eq3 (mat_vec (getTransMatrix B glv old_box new_box) (glv old_box i))
      (glv new_box i).
Proof.
  intros Hdet Hi. unfold det3 in Hdet.
  unfold eq3, mat_vec, getTransMatrix.
  cbn [lookup_total list_lookup_total x3 y3 z3].
  exact_ops_in Hdet.
  destruct i as [|[|[|i]]]; [| | |lia];
    (split; [|split]); exact_ops; field; exact Hdet0.
Qed.

Variable rsqrt : Q -> Q.
Variable vec_scale : Scalar3 Q -> Q -> Scalar3 Q.

(** X18. In exact arithmetic, for boxes whose lattice vectors are as HOOMD
    has them, the first along [x] and the second in the plane of [x] and
    [y], [rescaleWall] with the matrix of [getTransMatrix] keeps the
    coordinates of the origin of the wall in the lattice: the origin
    [al a + be b + ga c] of the old box becomes [al a' + be b' + ga c'] in
    the new one.  The components being assigned in place does no harm
    here, the matrix having no entry below the diagonal. *)
Theorem rescaleWall_origin (wall : PlaneWall Q) (old_box new_box : B)
  (al be ga : Q) :
  let a := glv old_box 0%nat in
  let b := glv old_box 1%nat in
  let c := glv old_box 2%nat in
  let a' := glv new_box 0%nat in
  let b' := glv new_box 1%nat in
  let c' := glv new_box 2%nat in
  upper_triangular a b -> upper_triangular a' b' ->
  ~ (det3 a b c == 0) ->
  eq3 (origin wall) (combine3 al be ga a b c) ->
  eq3 (origin (rescaleWall B rsqrt vec_scale wall old_box
                 (getTransMatrix B glv old_box new_box)))
      (combine3 al be ga a' b' c').
Proof.
  intros a b c a' b' c' (Hay & Haz & Hbz) (Hay' & Haz' & Hbz') Hdet (Hx & Hy & Hz).
  unfold det3 in Hdet. unfold combine3 in Hx, Hy, Hz. cbn [x3 y3 z3] in Hx, Hy, Hz.
  cbn [s_add s_sub s_mul s_div scalar_ops] in Hx, Hy, Hz.
  assert (Hx' := Qeq_trans _ _ _ Hx
                   ltac:(match goal with |- ?l == _ => let p := denote l in exact p end)).
  assert (Hy' := Qeq_trans _ _ _ Hy
                   ltac:(match goal with |- ?l == _ => let p := denote l in exact p end)).
  assert (Hz' := Qeq_trans _ _ _ Hz
                   ltac:(match goal with |- ?l == _ => let p := denote l in exact p end)).
  clear Hx Hy Hz.
  exact_ops_in Hdet.
  assert (Hd : ~ (x3 a * (y3 b * z3 c) == 0)).
  { intros E. apply Hdet0. transitivity (x3 a * (y3 b * z3 c)); [ring|exact E]. }
  assert (Hd1 : ~ x3 a == 0).
  { intros E. apply Hd. rewrite E. ring. }
  assert (Hd2 : ~ y3 b == 0).
  { intros E. apply Hd. rewrite E. ring. }
  assert (Hd3 : ~ z3 c == 0).
  { intros E. apply Hd. rewrite E. ring. }
  unfold eq3, rescaleWall, rescaled_origin, combine3, getTransMatrix.
  cbn [origin lookup_total list_lookup_total x3 y3 z3].
  fold a b c a' b' c'.
  (split; [|split]); exact_ops_both; field; auto.
Qed.

(** X19. In exact arithmetic, under a rescaling of the box along its
    axes, a matrix with entries on the diagonal only, none of them zero,
    [rescaleWall] divides each component of the normal of the wall by the
    factor of its axis before it normalises it. *)
Theorem rescaled_normal_diagonal (n : Scalar3 Q) (sx sy sz : Q) :
  ~ sx == 0 -> ~ sy == 0 -> ~ sz == 0 ->
  eq3 (rescaled_normal n [sx; 0; 0; 0; sy; 0; 0; 0; sz])
      (make_scalar3 (x3 n / sx) (y3 n / sy) (z3 n / sz)).
Proof.
  intros Hx Hy Hz. unfold eq3, rescaled_normal.
  cbn [lookup_total list_lookup_total x3 y3 z3].
  (split; [|split]); exact_ops_both; field; auto.
Qed.

End WallProofs.

(** ** What a run leaves alone *)

Section Others.

Context {Scalar : Type} `{ScalarOps Scalar} `{QuaternionMath Scalar}.

Lemma prepared_outside (st : State Scalar) (body : nat) :
  body ∉ m_body_group st ->
  body_at (bodies (m_rigid_data (prepared st))) body
  = body_at (bodies (m_rigid_data st)) body.
Proof.
  intros Hout. unfold prepared. destruct (m_first_step st); [|done].
  cbn [set_first_step m_rigid_data]. by apply setup_outside.
Qed.

Lemma step_outside (p : Phase) (st : State Scalar) (body : nat) :
  m_first_step st = false -> group_ready st -> body ∉ m_body_group st ->
  body_at (bodies (m_rigid_data (step p st))) body
  = body_at (bodies (m_rigid_data st)) body.
Proof.
  intros Hfs Hready Hout. destruct p; cbn [step].
  - rewrite integrateStepOne_outside; [|by intros _|done].
    by apply prepared_outside.
  - by apply integrateStepTwo_outside.
Qed.

(** X21. For an integrator whose accesses are inside the arrays, those
    that [setup] allocates when it is fresh: once the first half step has
    run, whatever calls follow, a body that is not in the group of the
    integrator keeps every element it has in the per-body arrays. *)
Theorem run_leaves_other_bodies (ps : list Phase) (st : State Scalar)
  (body : nat) :
  in_bounds st -> body ∉ m_body_group st ->
  body_at (bodies (m_rigid_data (run (StepOne :: ps) st))) body
  = body_at (bodies (m_rigid_data st)) body.
Proof.
  intros Hbounds Hout. pose proof (in_bounds_protocol st Hbounds) as Hp.
  unfold run. cbn [fold_left step].
  assert (Hone : m_first_step (integrateStepOne st) = false /\
                 group_ready (integrateStepOne st) /\
                 m_body_group (integrateStepOne st) = m_body_group st /\
                 body_at (bodies (m_rigid_data (integrateStepOne st))) body
                 = body_at (bodies (m_rigid_data st)) body).
  { destruct (integrateStepOne_fields st Hp) as (_ & _ & Hg & Hn).
    split; [apply integrateStepOne_read_only|].
    split; [unfold group_ready; by rewrite Hn, Hg|].
    split; [done|].
    rewrite integrateStepOne_outside by done. by apply prepared_outside. }
  revert Hone. generalize (integrateStepOne st).
  induction ps as [|p ps IH]; intros s (Hfs & Hready & Hg & Hb); [done|].
  cbn [fold_left]. apply IH.
  destruct (step_ready p s (conj Hfs Hready)) as (Hfs' & Hready').
  split; [done|]. split; [done|].
  assert (Hg' : m_body_group (step p s) = m_body_group s).
  { pose proof (step_read_only p s) as Hro.
    exact (f_equal (fun c => snd (fst (fst c))) Hro). }
  split; [by rewrite Hg'|].
  rewrite step_outside; [done|done|done|]. by rewrite Hg.
Qed.

Lemma set_xv_other_particle (st : State Scalar) (p : nat) :
  group_ready st ->
  (forall k, k ∈ constituents st -> pidx_of st (fst k) (snd k) <> p) ->
  particle_at (arrays (m_pdata (set_xv st))) p
  = particle_at (arrays (m_pdata st)) p.
Proof.
  intros Hready Hp. rewrite (set_xv_flatten st Hready).
  apply (fold_left_preserves
           (fun k acc => set_xv_particle (fst k) (snd k) acc)
           (fun a =>
              erase_projection a = erase_projection st /\
              particle_at (arrays (m_pdata a)) p
              = particle_at (arrays (m_pdata st)) p)); [|done].
  intros k a Hk (He & Hat).
  destruct (erase_projection_reads a st (fst k) (snd k) He) as (Hp' & _).
  assert (Hne : pidx_of a (fst k) (snd k) <> p).
  { rewrite Hp'. by apply Hp. }
  split; [by rewrite <- He|]. rewrite <- Hat.
  unfold particle_at, velocity3.
  cbn [arrays m_pdata x y z vx vy vz ix iy iz set_xv_particle].
  by rewrite !list_lookup_total_insert_ne.
Qed.

Lemma set_v_other_particle (st : State Scalar) (p : nat) :
  group_ready st ->
  (forall k, k ∈ constituents st -> pidx_of st (fst k) (snd k) <> p) ->
  particle_at (arrays (m_pdata (set_v st))) p
  = particle_at (arrays (m_pdata st)) p.
Proof.
  intros Hready Hp. rewrite (set_v_flatten st Hready).
  apply (fold_left_preserves
           (fun k acc => set_v_particle (fst k) (snd k) acc)
           (fun a =>
              erase_velocities a = erase_velocities st /\
              particle_at (arrays (m_pdata a)) p
              = particle_at (arrays (m_pdata st)) p)); [|done].
  intros k a Hk (He & Hat).
  destruct (erase_velocities_reads a st (fst k) (snd k) He) as (Hp' & _).
  assert (Hne : pidx_of a (fst k) (snd k) <> p).
  { rewrite Hp'. by apply Hp. }
  split; [by rewrite <- He|]. rewrite <- Hat.
  unfold particle_at, velocity3.
  cbn [arrays m_pdata x y z vx vy vz ix iy iz set_v_particle].
  by rewrite !list_lookup_total_insert_ne.
Qed.

Lemma setup_other_particle (st : State Scalar) (p : nat) :
  (forall k, k ∈ constituents st -> pidx_of st (fst k) (snd k) <> p) ->
  particle_at (arrays (m_pdata (setup st))) p
  = particle_at (arrays (m_pdata st)) p.
Proof.
  intros Hp. unfold setup.
  destruct (length (m_body_group st) <=? 0)%nat; [done|].
  set (s := make_state _ _ _ _ _ _ _ _ _ _).
  by rewrite (set_v_other_particle s p).
Qed.

Lemma integrateStepOne_other_particle (st : State Scalar) (p : nat) :
  protocol st ->
  (forall k, k ∈ constituents st -> pidx_of st (fst k) (snd k) <> p) ->
  particle_at (arrays (m_pdata (integrateStepOne st))) p
  = particle_at (arrays (m_pdata st)) p.
Proof.
  intros Hprot Hp.
  destruct (prepared_frame st Hprot) as (Hrc & _ & _ & Hg & Hn & _).
  cbv zeta in Hrc, Hg, Hn.
  assert (Hprep : particle_at (arrays (m_pdata (prepared st))) p
                  = particle_at (arrays (m_pdata st)) p).
  { unfold prepared. destruct (m_first_step st); [|done].
    cbn [set_first_step m_pdata]. by apply setup_other_particle. }
  unfold integrateStepOne. fold (prepared st).
  destruct (m_n_bodies (prepared st) <=? 0)%nat; [done|].
  set (s := with_bodies _ _).
  rewrite (set_xv_other_particle s p); [done| |].
  - unfold group_ready, s. cbn [with_bodies m_n_bodies m_body_group].
    by rewrite Hn, Hg.
  - unfold s, constituents, pidx_of.
    cbn [with_bodies m_rigid_data rconst m_body_group].
    rewrite Hrc, Hg. exact Hp.
Qed.

Lemma integrateStepTwo_other_particle (st : State Scalar) (p : nat) :
  group_ready st ->
  (forall k, k ∈ constituents st -> pidx_of st (fst k) (snd k) <> p) ->
  particle_at (arrays (m_pdata (integrateStepTwo st))) p
  = particle_at (arrays (m_pdata st)) p.
Proof.
  intros Hready Hp. unfold integrateStepTwo.
  destruct (m_n_bodies st <=? 0)%nat; [done|].
  set (s := with_bodies _ _).
  by rewrite (set_v_other_particle s p).
Qed.

Lemma read_only_constituents (a st : State Scalar) :
  read_only a = read_only st ->
  constituents a = constituents st /\
  forall body j, pidx_of a body j = pidx_of st body j.
Proof.
  intros Hro.
  assert (Hrc : rconst (m_rigid_data a) = rconst (m_rigid_data st)).
  { unfold read_only in Hro. by injection Hro. }
  assert (Hg : m_body_group a = m_body_group st).
  { unfold read_only in Hro. by injection Hro. }
  unfold constituents, pidx_of. by rewrite Hrc, Hg.
Qed.

(** X22. For an integrator whose accesses are inside the arrays, those
    that [setup] allocates when it is fresh: once the first half step has
    run, whatever calls follow, a particle that is a constituent of no body
    of the group keeps its position, its velocity and its image counters. *)
Theorem run_leaves_other_particles (ps : list Phase) (st : State Scalar)
  (p : nat) :
  in_bounds st ->
  (forall k, k ∈ constituents st -> pidx_of st (fst k) (snd k) <> p) ->
  particle_at (arrays (m_pdata (run (StepOne :: ps) st))) p
  = particle_at (arrays (m_pdata st)) p.
Proof.
  intros Hbounds Hp. pose proof (in_bounds_protocol st Hbounds) as Hprot.
  unfold run. cbn [fold_left step].
  assert (Hone : m_first_step (integrateStepOne st) = false /\
                 group_ready (integrateStepOne st) /\
                 read_only (integrateStepOne st) = read_only st /\
                 particle_at (arrays (m_pdata (integrateStepOne st))) p
                 = particle_at (arrays (m_pdata st)) p).
  { destruct (integrateStepOne_fields st Hprot) as (_ & _ & Hg & Hn).
    destruct (integrateStepOne_read_only st) as (Hro & Hfs).
    split; [done|]. split; [unfold group_ready; by rewrite Hn, Hg|].
    split; [done|]. by apply integrateStepOne_other_particle. }
  revert Hone. generalize (integrateStepOne st).
  induction ps as [|q ps IH]; intros s (Hfs & Hready & Hro & Hat); [done|].
  cbn [fold_left]. apply IH.
  destruct (step_ready q s (conj Hfs Hready)) as (Hfs' & Hready').
  split; [done|]. split; [done|].
  split; [by rewrite step_read_only|].
  rewrite <- Hat.
  destruct (read_only_constituents s st Hro) as (Hc & Hpidx).
  assert (Hp' : forall k, k ∈ constituents s -> pidx_of s (fst k) (snd k) <> p).
  { intros k Hk. rewrite Hpidx. apply Hp. by rewrite <- Hc. }
  destruct q; cbn [step].
  - apply integrateStepOne_other_particle; [by intros _|done].
  - by apply integrateStepTwo_other_particle.
Qed.

End Others.

(** ** The further properties at concrete states *)

Lemma trio_nodup : NoDup [0%nat; 2%nat].
Proof. by apply (bool_decide_unpack _). Qed.

Lemma trio_member (first : bool) (body : nat) :
  body = 0%nat \/ body = 2%nat -> body ∈ m_body_group (trio [0%nat; 2%nat] first).
Proof. intros [-> | ->]; by apply (bool_decide_unpack _). Qed.

Lemma trio_outside (first : bool) : 1%nat ∉ m_body_group (trio [0%nat; 2%nat] first).
Proof. by apply (bool_decide_unpack _). Qed.

Lemma trio_in_range (group : list nat) (first : bool) (body : nat) :
  body < 3 -> body_in_range (bodies (m_rigid_data (trio group first))) body.
Proof. intros Hb. destruct body as [|[|[|body]]]; [| | |lia]; concrete_bounds. Qed.

Lemma trio_protocol (first : bool) : protocol (trio [0%nat; 2%nat] first).
Proof. destruct first; [intros Hfs; discriminate Hfs | intros _; reflexivity]. Qed.

Lemma exact_advance_by_rule : advance_by_rule (Scalar := Q).
Proof.
  intros l moment w ex ey ez deltaT q.
  cbn [advanceQuaternion quaternion_math]. unfold q_advance.
  destruct (q_basis _) as ((ex1 & ey1) & ez1).
  cbn [adv_angvel adv_ex adv_ey adv_ez]. by eexists.
Qed.

Lemma setup_angular_momentum_witness :
  let b := bodies (m_rigid_data fresh_fleet) in
  let b' := bodies (m_rigid_data (setup fresh_fleet)) in
  (angmom b' !!! 0%nat = angmom b !!! 0%nat /\
   angmom b !!! 0%nat = v4 (1 # 2) (1 # 3) 2) /\
  (angmom b !!! 1%nat = v4 1 1 1 /\
   angmom b' !!! 1%nat = v4 (-177 # 40) (-63 # 80) (-3 # 80)) /\
  (vel b !!! 1%nat = v4 (1 # 10) (-1 # 5) (3 # 10) /\
   vel b' !!! 1%nat = v4 (5 # 8) (1 # 4) 0) /\
  (force b !!! 1%nat = v4 (1 # 2) 0 (-1) /\
   force b' !!! 1%nat = v4 (7 # 2) (-1 # 2) 0) /\
  (torque b !!! 1%nat = v4 (1 # 5) (1 # 5) (1 # 5) /\
   torque b' !!! 1%nat = v4 (201 # 40) (-53 # 40) (197 # 40)) /\
  vel b' !!! 0%nat = v4 (1 # 24) (-3 # 20) (3 # 8).
Proof.
  intros b b'.
  destruct (setup_angular_momentum fresh_fleet) as (Hkeep & Hsum).
  destruct (Hsum fleet_nodup 1%nat (fleet_member true 1 ltac:(lia))
              (fleet_in_range true 1 ltac:(lia))) as (Hl & Hv & Hf & Ht).
  destruct (Hsum fleet_nodup 0%nat (fleet_member true 0 ltac:(lia))
              (fleet_in_range true 0 ltac:(lia))) as (_ & Hv0 & _).
  split; [split; [exact (Hkeep 0%nat eq_refl)|reflexivity]|].
  split; [split; [reflexivity|]|].
  { refine (eq_trans (Hl eq_refl) _). vm_compute. reflexivity. }
  split; [split; [reflexivity|]|].
  { refine (eq_trans Hv _). vm_compute. reflexivity. }
  split; [split; [reflexivity|]|].
  { refine (eq_trans Hf _). vm_compute. reflexivity. }
  split; [split; [reflexivity|]|].
  { refine (eq_trans Ht _). vm_compute. reflexivity. }
  refine (eq_trans Hv0 _). vm_compute. reflexivity.
Defined.

Lemma zero_moment_no_division_witness :
  let l := v4 1 1 1 in
  let moment := v4 0 2 5 in
  let ex := v4 (7 # 25) (24 # 25) 0 in
  let ey := v4 (-24 # 25) (7 # 25) 0 in
  let ez := v4 0 0 1 in
  let w := v4 (1 # 7) 0 0 in
  computeAngularVelocity l moment ex ey ez w
  = v4 (204 # 625) (-119 # 1250) (1 # 5) /\
  computeAngularVelocity_checked l moment ex ey ez w
  = Some (v4 (204 # 625) (-119 # 1250) (1 # 5)) /\
  angvel (bodies (m_rigid_data (setup fresh_fleet))) !!! 1%nat
  = v4 (-4833 # 2500) (11277 # 20000) (-3 # 400) /\
  angvel (bodies (m_rigid_data (integrateStepTwo ready_fleet))) !!! 1%nat
  = v4 (84633 # 250000) (-197477 # 2000000) (24871 # 120000) /\
  (let b' := bodies (m_rigid_data (integrateStepOne ready_fleet)) in
   exists w0,
     angvel b' !!! 1%nat
     = computeAngularVelocity (angmom b' !!! 1%nat)
         (moment_inertia (rconst (m_rigid_data ready_fleet)) !!! 1%nat)
         (ex_space b' !!! 1%nat) (ey_space b' !!! 1%nat) (ez_space b' !!! 1%nat)
         w0).
Proof.
  intros l moment ex ey ez w.
  destruct (zero_moment_no_division (Scalar := Q)) as (Hrule & Hsites).
  destruct (Hrule l moment ex ey ez w) as (Hw & Hc).
  destruct (Hsites fresh_fleet 1%nat fleet_nodup (fleet_member true 1 ltac:(lia))
              (fleet_in_range true 1 ltac:(lia))) as (Hsetup & _).
  destruct (Hsites ready_fleet 1%nat fleet_nodup (fleet_member false 1 ltac:(lia))
              (fleet_in_range false 1 ltac:(lia))) as (_ & Htwo & Hone).
  split; [|split; [|split; [|split]]].
  - refine (eq_trans Hw _). vm_compute. reflexivity.
  - refine (eq_trans Hc _). vm_compute. reflexivity.
  - refine (eq_trans Hsetup _). vm_compute. reflexivity.
  - refine (eq_trans (Htwo eq_refl) _). vm_compute. reflexivity.
  - exact (Hone (fleet_protocol false) exact_advance_by_rule).
Defined.

Lemma run_read_only_witness :
  let st' := run [StepOne; StepTwo; StepOne] fresh_fleet in
  read_only st' = read_only fresh_fleet /\ ready_in_bounds st'.
Proof.
  exact (run_read_only [StepTwo; StepOne] fresh_fleet (fleet_in_bounds true)).
Defined.

Lemma computeForceAndTorque_sums_witness :
  let b' := bodies (m_rigid_data (computeForceAndTorque ready_fleet)) in
  force b' !!! 1%nat = v4 (7 # 2) (-1 # 2) 0 /\
  torque b' !!! 1%nat = v4 (201 # 40) (-33 # 40) (871 # 120).
Proof.
  intros b'.
  destruct (computeForceAndTorque_sums ready_fleet 1 eq_refl fleet_nodup
              (fleet_member false 1 ltac:(lia))
              (fleet_in_range false 1 ltac:(lia))) as (Hf & Ht).
  split.
  - refine (eq_trans Hf _). vm_compute. reflexivity.
  - refine (eq_trans Ht _). vm_compute. reflexivity.
Defined.

Lemma computeForceAndTorque_frame_witness :
  let b := bodies (m_rigid_data ready_trio) in
  let b' := bodies (m_rigid_data (computeForceAndTorque ready_trio)) in
  force b' !!! 1%nat = force b !!! 1%nat /\ com b' = com b.
Proof.
  intros b b'.
  destruct (computeForceAndTorque_frame ready_trio eq_refl)
    as (_ & He & _ & _ & Hout).
  split.
  - exact (proj1 (Hout 1%nat (trio_outside false))).
  - exact (f_equal (fun r => com r) He).
Defined.

Lemma setup_aggregates_witness :
  let b' := bodies (m_rigid_data (setup fresh_trio)) in
  vel b' !!! 2%nat = v4 0 (1 # 100) 0 /\
  force b' !!! 2%nat = v4 0 (3 # 4) 0 /\
  torque b' !!! 2%nat = v4 0 0 (1 # 4).
Proof.
  intros b'.
  destruct (setup_aggregates fresh_trio 2 trio_nodup
              (trio_member true 2 (or_intror eq_refl))
              (trio_in_range _ true 2 ltac:(lia))) as (Hv & Hf & Ht & _).
  split; [|split].
  - refine (eq_trans Hv _). vm_compute. reflexivity.
  - refine (eq_trans Hf _). vm_compute. reflexivity.
  - refine (eq_trans Ht _). vm_compute. reflexivity.
Defined.

Lemma setup_keeps_configuration_witness :
  m_n_bodies (setup fresh_fleet) = 2%nat /\
  body_at (bodies (m_rigid_data (setup fresh_fleet))) 2
  = body_at (bodies (m_rigid_data fresh_fleet)) 2 /\
  ready_in_bounds (setup fresh_fleet).
Proof.
  destruct (setup_keeps_configuration fresh_fleet (fleet_in_bounds true))
    as (_ & Hn & Hout & Hb).
  split; [|split].
  - refine (eq_trans Hn _). reflexivity.
  - exact (Hout 2%nat (fleet_outside true)).
  - exact Hb.
Defined.

Lemma integrateStepOne_half_kick_witness :
  let b' := bodies (m_rigid_data (integrateStepOne ready_trio)) in
  vel b' !!! 2%nat = v4 0 (19 # 1600) 0 /\
  angmom b' !!! 2%nat = v4 0 0 (1 # 800) /\
  force b' = force (bodies (m_rigid_data (prepared ready_trio))).
Proof.
  intros b'.
  destruct (integrateStepOne_half_kick ready_trio 2 (trio_protocol false)
              trio_nodup (trio_member false 2 (or_intror eq_refl))
              (trio_in_range _ false 2 ltac:(lia)))
    as (Hv & Hl & _ & _ & _ & _ & _ & Hf & _).
  split; [|split].
  - refine (eq_trans Hv _). vm_compute. reflexivity.
  - refine (eq_trans Hl _). vm_compute. reflexivity.
  - exact Hf.
Defined.

Lemma integrateStepTwo_half_kick_witness :
  let b' := bodies (m_rigid_data (integrateStepTwo ready_trio)) in
  force b' !!! 0%nat = v4 1 0 0 /\
  torque b' !!! 0%nat = v4 0 0 (1 # 3) /\
  vel b' !!! 0%nat = v4 (1 # 200) 0 0 /\
  angmom b' !!! 0%nat = v4 0 0 (1201 # 600).
Proof.
  intros b'.
  destruct (integrateStepTwo_half_kick ready_trio 0 eq_refl trio_nodup
              (trio_member false 0 (or_introl eq_refl))
              (trio_in_range _ false 0 ltac:(lia)))
    as (Hf & Ht & Hv & Hl & _).
  split; [|split; [|split]].
  - refine (eq_trans Hf _). vm_compute. reflexivity.
  - refine (eq_trans Ht _). vm_compute. reflexivity.
  - refine (eq_trans Hv _). vm_compute. reflexivity.
  - refine (eq_trans Hl _). vm_compute. reflexivity.
Defined.

Lemma group_order_irrelevant_witness :
  bodies (m_rigid_data (integrateStepOne (with_group [2%nat; 0%nat] fresh_trio)))
  = bodies (m_rigid_data (integrateStepOne fresh_trio)) /\
  bodies (m_rigid_data (integrateStepTwo (with_group [2%nat; 0%nat] ready_trio)))
  = bodies (m_rigid_data (integrateStepTwo ready_trio)).
Proof.
  split.
  - destruct (group_order_irrelevant fresh_trio [2%nat; 0%nat]
                (trio_protocol true) (perm_swap 0%nat 2%nat []))
      as (_ & Hone & _).
    exact Hone.
  - destruct (group_order_irrelevant ready_trio [2%nat; 0%nat]
                (trio_protocol false) (perm_swap 0%nat 2%nat []))
      as (_ & _ & Htwo).
    exact (proj2 (Htwo eq_refl)).
Defined.

Lemma trio_constituent (first : bool) (body j : nat) :
  body = 0%nat \/ body = 2%nat -> j < 2 ->
  (body, j) ∈ constituents (trio [0%nat; 2%nat] first).
Proof.
  intros Hb Hj. apply elem_of_constituents. split.
  - by apply trio_member.
  - destruct Hb as [-> | ->]; exact Hj.
Qed.

Lemma trio_constituents (first : bool) :
  constituents (trio [0%nat; 2%nat] first)
  = [(0, 0); (0, 1); (2, 0); (2, 1)]%nat.
Proof. reflexivity. Qed.



Lemma run_ready_witness :
  let st' := run [StepOne; StepTwo; StepOne; StepTwo] fresh_trio in
  m_first_step st' = false /\ group_ready st'.
Proof.
  intros st'.
  destruct (run_ready [StepTwo; StepOne; StepTwo] fresh_trio (trio_protocol true))
    as (Hfs & Hready & _).
  exact (conj Hfs Hready).
Defined.

Lemma set_xv_writes_only_particles_witness :
  position AxisX (arrays (m_pdata (set_xv ready_fleet))) !!! 6%nat
  = position AxisX (arrays (m_pdata ready_fleet)) !!! 6%nat /\
  m_virial (set_xv ready_fleet) !!! 7%nat = m_virial ready_fleet !!! 7%nat.
Proof.
  destruct (set_xv_writes_only_particles ready_fleet (fleet_in_bounds false))
    as (_ & Hp & Hq & _).
  assert (Hfree : forall k, k ∈ constituents ready_fleet ->
                            pidx_of ready_fleet (fst k) (snd k) <> 6%nat)
    by each_constituent.
  assert (Hslot : forall k, k ∈ constituents ready_fleet ->
                            localidx_of ready_fleet (fst k) (snd k) <> 7%nat)
    by each_constituent.
  split.
  - exact (proj1 (Hp 6%nat Hfree AxisX)).
  - exact (proj2 (proj2 (Hq 7%nat Hslot))).
Defined.



Lemma set_xv_orientation_witness :
  pd_orientation (m_pdata (set_xv ready_trio))
    !!! (tag (arrays (m_pdata ready_trio)) !!! pidx_of ready_trio 2 1)
  = identity_quat.
Proof.
  assert (Htags : forall k, k ∈ constituents ready_trio ->
                    tag (arrays (m_pdata ready_trio))
                      !!! pidx_of ready_trio (fst k) (snd k)
                    = tag (arrays (m_pdata ready_trio)) !!! pidx_of ready_trio 2 1 ->
                    k = (2%nat, 1%nat)).
  { intros k Hk. unfold ready_trio in Hk. rewrite trio_constituents in Hk.
    repeat (apply elem_of_cons in Hk as [-> | Hk]);
      try (by apply elem_of_nil in Hk); vm_compute; intros Heq; done. }
  refine (eq_trans
            (set_xv_orientation ready_trio 2 1 eq_refl trio_nodup
               (trio_constituent false 2 1 (or_intror eq_refl) ltac:(lia))
               Htags ltac:(vm_compute; lia)) _).
  vm_compute. reflexivity.
Defined.

Lemma full_step_momenta_witness :
  let st1 := with_net_forces (net_force (m_pdata ready_trio))
               (net_torque (m_pdata ready_trio)) (net_virial (m_pdata ready_trio))
               (integrateStepOne ready_trio) in
  vel (bodies (m_rigid_data (integrateStepTwo st1))) !!! 2%nat
  = v4 0 (11 # 800) 0.
Proof.
  intros st1.
  destruct (full_step_momenta ready_trio 2 (net_force (m_pdata ready_trio))
              (net_torque (m_pdata ready_trio)) (net_virial (m_pdata ready_trio))
              (trio_protocol false) trio_nodup
              (trio_member false 2 (or_intror eq_refl))
              (trio_in_range _ false 2 ltac:(lia))) as (Hv & _).
  refine (eq_trans Hv _). vm_compute. reflexivity.
Defined.

Lemma setup_conjqm_witness :
  length (m_conjqm (setup fresh_trio)) = 2%nat /\
  m_conjqm (setup fresh_trio) !!! 0%nat = make_scalar4 0%Q 0%Q 0%Q 4%Q.
Proof.
  destruct (setup_conjqm fresh_trio 0 (trio_member true 0 (or_introl eq_refl))
              ltac:(vm_compute; lia)) as (Hlen & Hc).
  split.
  - refine (eq_trans Hlen _). reflexivity.
  - refine (eq_trans Hc _). vm_compute. reflexivity.
Defined.

Lemma wrap_coord_exact_witness :
  let w := wrap_coord (11 # 2)%Q (-5)%Q 5%Q (5%Q - (-5)%Q)%S 0%Z in
  (-5 <= fst w)%Q /\ (fst w < 5)%Q.
Proof.
  intros w.
  destruct (wrap_coord_exact (11 # 2)%Q (-5)%Q 5%Q 0%Z ltac:(reflexivity)
              ltac:(vm_compute; split; reflexivity)) as (_ & Hin & _).
  apply Hin.
  - vm_compute. intros Hgt. discriminate Hgt.
  - reflexivity.
Defined.

Lemma getTransMatrix_maps_lattice_witness :
  eq3 (mat_vec (getTransMatrix ExampleBox example_lattice CubicBox ShearedBox)
               (example_lattice CubicBox 1))
      (example_lattice ShearedBox 1).
Proof.
  apply (getTransMatrix_maps_lattice ExampleBox example_lattice CubicBox
           ShearedBox 1).
  - vm_compute. intros Hz. discriminate Hz.
  - lia.
Defined.

Lemma rescaleWall_origin_witness :
  eq3 (origin (rescaleWall ExampleBox q_rsqrt q_vec_scale example_wall CubicBox
                 (getTransMatrix ExampleBox example_lattice CubicBox ShearedBox)))
      (combine3 (1 # 5)%Q (3 # 10)%Q (2 # 5)%Q (example_lattice ShearedBox 0)
                (example_lattice ShearedBox 1) (example_lattice ShearedBox 2)).
Proof.
  apply (rescaleWall_origin ExampleBox example_lattice q_rsqrt q_vec_scale
           example_wall CubicBox ShearedBox (1 # 5)%Q (3 # 10)%Q (2 # 5)%Q).
  - vm_compute. repeat split.
  - vm_compute. repeat split.
  - vm_compute. intros Hz. discriminate Hz.
  - vm_compute. repeat split.
Defined.

Lemma rescaled_normal_diagonal_witness :
  eq3 (rescaled_normal (make_scalar3 1 1 0)%Q [2; 0; 0; 0; 4; 0; 0; 0; 5]%Q)
      (make_scalar3 (1 / 2) (1 / 4) (0 / 5))%Q.
Proof.
  apply (rescaled_normal_diagonal (make_scalar3 1 1 0)%Q 2%Q 4%Q 5%Q);
    vm_compute; intros Hz; discriminate Hz.
Defined.

Lemma run_leaves_other_bodies_witness :
  body_at (bodies (m_rigid_data (run [StepOne; StepTwo; StepOne] fresh_fleet))) 2
  = body_at (bodies (m_rigid_data fresh_fleet)) 2.
Proof.
  exact (run_leaves_other_bodies [StepTwo; StepOne] fresh_fleet 2
           (fleet_in_bounds true) (fleet_outside true)).
Defined.

Lemma run_leaves_other_particles_witness :
  particle_at (arrays (m_pdata (run [StepOne; StepTwo; StepOne] fresh_fleet))) 2
  = particle_at (arrays (m_pdata fresh_fleet)) 2.
Proof.
  assert (Hfree : forall k, k ∈ constituents fresh_fleet ->
                            pidx_of fresh_fleet (fst k) (snd k) <> 2%nat)
    by each_constituent.
  exact (run_leaves_other_particles [StepTwo; StepOne] fresh_fleet 2
           (fleet_in_bounds true) Hfree).
Defined.
